(** * Prompt-control conditioning engine: a shallow embedding of
      [prompt_control/node_clip.py] and the properties of its specification.

    Conventions of the embedding.
    - Python floats (step percentages, weights, tensor entries) are rationals
      [Q]; Python's [==] on them is [Qeq].  [round(x, n)] is rounding to the
      nearest multiple of [10^-n], ties to even, as CPython does on the exact
      value of its argument.
    - A raised exception is a [Raise e] result; nothing in the module catches
      one, so every caller passes it on.
    - A conditioning tensor is a list of token rows, a pooled output a list of
      numbers: the leading batch axis (always of size one) is left out, and
      the outermost list is the axis that [equalize] compares.
    - Dictionaries with a fixed set of keys (the metadata of a conditioning
      segment) are records of optional fields; the conditioning cache, keyed
      by arbitrary strings, is a [gmap].
    - The tokenizer and encoder, the LoRA loader, the random generator and the
      float printer are collaborators outside the module: they are the fields
      of the record [Externals], over which everything is parametric. *)

From Stdlib Require Import ZArith QArith Qround Qabs Lia String Ascii List Bool.
From stdpp Require Import base option list gmap strings pretty.
Import ListNotations.

Local Open Scope Z_scope.
Local Open Scope string_scope.

(* ===================================================================== *)
(** ** Exceptions *)
(* ===================================================================== *)

Inductive exn : Type :=
| UnboundLocalError (var : string)
| ZeroDivisionError
| IndexError
| AssertionError
| ValueError
| RuntimeError
| FormatError (directive : string) (values : list Q).

Inductive result (A : Type) : Type :=
| Ok (a : A)
| Raise (e : exn).
Arguments Ok {A} a.
Arguments Raise {A} e.

#[export] Instance result_ret : MRet result := fun _ a => Ok a.
#[export] Instance result_bind : MBind result := fun _ _ k m =>
  match m with
  | Ok a => k a
  | Raise e => Raise e
  end.

(** A [for] loop whose body may raise: the first exception ends the loop. *)
Fixpoint for_each {S A} (body : S -> A -> result S) (l : list A) (s : S)
  : result S :=
  match l with
  | [] => Ok s
  | a :: l' => s' ← body s a; for_each body l' s'
  end.

Definition is_ok {A} (r : result A) : bool :=
  match r with Ok _ => true | Raise _ => false end.

(* ===================================================================== *)
(** ** Numbers *)
(* ===================================================================== *)

Definition Qltb (x y : Q) : bool := (Qnum x * QDen y <? Qnum y * QDen x)%Z.
Definition Qleb (x y : Q) : bool := (Qnum x * QDen y <=? Qnum y * QDen x)%Z.
Definition Qeqb (x y : Q) : bool := (Qnum x * QDen y =? Qnum y * QDen x)%Z.

Fixpoint pow10 (n : nat) : positive :=
  match n with
  | O => 1%positive
  | S n' => (10 * pow10 n')%positive
  end.

(** Nearest integer, ties to the even one. *)
Definition round_half_even (x : Q) : Z :=
  let f := Qfloor x in
  match Qcompare (x - inject_Z f) (1 # 2) with
  | Lt => f
  | Gt => f + 1
  | Eq => if Z.even f then f else f + 1
  end.

(** [round(x, ndigits)] for a float [x]. *)
Definition py_round (x : Q) (ndigits : nat) : Q :=
  let p := pow10 ndigits in
  Qmake (round_half_even (x * inject_Z (Zpos p))) p.

(** [int(x)] for a float [x]: truncation towards zero. *)
Definition py_int (x : Q) : Z := Z.quot (Qnum x) (QDen x).

(** [min(a, b)] and [max(a, b)]: the first argument wins a tie. *)
Definition py_min (a b : Q) : Q := if Qltb b a then b else a.
Definition py_max (a b : Q) : Q := if Qltb a b then b else a.

(** [a / b] on floats. *)
Definition py_div (a b : Q) : result Q :=
  if Qeqb b 0 then Raise ZeroDivisionError else Ok (a / b)%Q.

(** [range(a, b)]. *)
Definition py_range (a b : Z) : list Z :=
  map (fun i => a + Z.of_nat i) (seq 0 (Z.to_nat (b - a))).

(* ===================================================================== *)
(** ** Tensors *)
(* ===================================================================== *)

(** Pointwise arithmetic, by recursion on the nesting of lists. *)
Class TensorOps (A : Type) := {
  tadd : A -> A -> A;
  tsub : A -> A -> A;
  tmul : A -> Q -> A;          (* [t * c] for a Python number [c] *)
  radd : Q -> A -> A;          (* [c + t], as the first step of [sum] *)
  teq : A -> A -> Prop         (* equality of all entries *)
}.

#[export] Instance Q_ops : TensorOps Q := {|
  tadd := Qplus; tsub := Qminus; tmul := Qmult; radd := Qplus; teq := Qeq
|}.

#[export] Instance list_ops {A} `{TensorOps A} : TensorOps (list A) := {|
  tadd := zip_with tadd;
  tsub := zip_with tsub;
  tmul := fun t c => map (fun x => tmul x c) t;
  radd := fun c t => map (radd c) t;
  teq := Forall2 teq
|}.

Definition Pooled := list Q.
Definition Tensor := list (list Q).
Definition Mask := list (list (list Q)).

(** Modelled from the spec: [utils.equalize], which is not part of this file.
    It brings tensors to a common length along the compared axis by repeating
    the last element of the shorter ones; it never truncates. *)
Definition pad_to {A} (n : nat) (t : list A) : list A :=
  match last t with
  | Some x => t ++ repeat x (n - length t)
  | None => t
  end.

Definition equalize {A} (ts : list (list A)) : list (list A) :=
  let n := foldr Nat.max O (map (@length A) ts) in
  map (pad_to n) ts.

Definition equalize2 {A} (a b : list A) : list A * list A :=
  let n := Nat.max (length a) (length b) in (pad_to n a, pad_to n b).

(** [sum(ts)] on a non-empty list of tensors: Python starts from the integer
    [0].  (The module calls [sum] on non-empty lists only.) *)
Definition py_sum {A} `{TensorOps A} (ts : list A) : option A :=
  match ts with
  | [] => None
  | t :: rest => Some (fold_left tadd rest (radd 0%Q t))
  end.

(* ===================================================================== *)
(** ** Conditioning segments *)
(* ===================================================================== *)

Inductive Area : Type :=
| AreaPercentage (h w y x : Q)
| AreaPixels (h w y x : Z).

Record SdxlOpts := {
  width : Z; height : Z;
  target_width : Z; target_height : Z;
  crop_w : Z; crop_h : Z
}.

(** The metadata dictionary of a segment; an absent key is [None]. *)
Record Meta := {
  start_percent : option Q;
  end_percent : option Q;
  prompt : option string;
  pooled_output : option Pooled;
  area : option Area;
  strength : option Q;
  set_area_to_bounds : option bool;
  mask : option Mask;
  mask_strength : option Q;
  sdxl : option SdxlOpts
}.

Definition empty_meta : Meta := {|
  start_percent := None; end_percent := None; prompt := None;
  pooled_output := None; area := None; strength := None;
  set_area_to_bounds := None; mask := None; mask_strength := None;
  sdxl := None
|}.

Definition set_start_percent (v : Q) (m : Meta) : Meta :=
  {| start_percent := Some v; end_percent := end_percent m; prompt := prompt m;
     pooled_output := pooled_output m; area := area m; strength := strength m;
     set_area_to_bounds := set_area_to_bounds m; mask := mask m;
     mask_strength := mask_strength m; sdxl := sdxl m |}.

Definition set_end_percent (v : Q) (m : Meta) : Meta :=
  {| start_percent := start_percent m; end_percent := Some v; prompt := prompt m;
     pooled_output := pooled_output m; area := area m; strength := strength m;
     set_area_to_bounds := set_area_to_bounds m; mask := mask m;
     mask_strength := mask_strength m; sdxl := sdxl m |}.

Definition set_prompt (v : string) (m : Meta) : Meta :=
  {| start_percent := start_percent m; end_percent := end_percent m; prompt := Some v;
     pooled_output := pooled_output m; area := area m; strength := strength m;
     set_area_to_bounds := set_area_to_bounds m; mask := mask m;
     mask_strength := mask_strength m; sdxl := sdxl m |}.

Definition set_pooled_output (v : Pooled) (m : Meta) : Meta :=
  {| start_percent := start_percent m; end_percent := end_percent m; prompt := prompt m;
     pooled_output := Some v; area := area m; strength := strength m;
     set_area_to_bounds := set_area_to_bounds m; mask := mask m;
     mask_strength := mask_strength m; sdxl := sdxl m |}.

Definition set_area (a : Area) (w : Q) (m : Meta) : Meta :=
  {| start_percent := start_percent m; end_percent := end_percent m; prompt := prompt m;
     pooled_output := pooled_output m; area := Some a; strength := Some w;
     set_area_to_bounds := Some false; mask := mask m;
     mask_strength := mask_strength m; sdxl := sdxl m |}.

Definition set_strength (w : Q) (m : Meta) : Meta :=
  {| start_percent := start_percent m; end_percent := end_percent m; prompt := prompt m;
     pooled_output := pooled_output m; area := area m; strength := Some w;
     set_area_to_bounds := set_area_to_bounds m; mask := mask m;
     mask_strength := mask_strength m; sdxl := sdxl m |}.

Definition set_mask (k : Mask) (w : Q) (m : Meta) : Meta :=
  {| start_percent := start_percent m; end_percent := end_percent m; prompt := prompt m;
     pooled_output := pooled_output m; area := area m; strength := strength m;
     set_area_to_bounds := set_area_to_bounds m; mask := Some k;
     mask_strength := Some w; sdxl := sdxl m |}.

(** [settings.update(opts)] for a dictionary of resolution hints: an empty
    one changes nothing. *)
Definition update_sdxl (o : option SdxlOpts) (m : Meta) : Meta :=
  match o with
  | None => m
  | Some _ =>
    {| start_percent := start_percent m; end_percent := end_percent m; prompt := prompt m;
       pooled_output := pooled_output m; area := area m; strength := strength m;
       set_area_to_bounds := set_area_to_bounds m; mask := mask m;
       mask_strength := mask_strength m; sdxl := o |}
  end.

(** A conditioning segment [[tensor, metadata]]. *)
Definition Cond : Type := Tensor * Meta.

(* ===================================================================== *)
(** ** Strings and the regular expressions of the module *)
(* ===================================================================== *)

Definition ascii_in_range (lo hi : N) (c : ascii) : bool :=
  (lo <=? N_of_ascii c)%N && (N_of_ascii c <=? hi)%N.

Definition is_digit (c : ascii) : bool := ascii_in_range 48 57 c.
Definition is_letter (c : ascii) : bool :=
  ascii_in_range 65 90 c || ascii_in_range 97 122 c.
(** [\w]: letters, digits and the underscore. *)
Definition is_word (c : ascii) : bool :=
  is_letter c || is_digit c || Ascii.eqb c "_".
(** The characters [str.strip()] removes. *)
Definition is_space (c : ascii) : bool :=
  ascii_in_range 9 13 c || ascii_in_range 28 32 c.

Fixpoint string_rev_app (s acc : string) : string :=
  match s with
  | EmptyString => acc
  | String c s' => string_rev_app s' (String c acc)
  end.
Definition string_rev (s : string) : string := string_rev_app s "".

Fixpoint lstrip (s : string) : string :=
  match s with
  | String c s' => if is_space c then lstrip s' else s
  | EmptyString => s
  end.
(** [s.strip()]. *)
Definition strip (s : string) : string :=
  string_rev (lstrip (string_rev (lstrip s))).

Fixpoint string_drop (n : nat) (s : string) : string :=
  match n, s with
  | S n', String _ s' => string_drop n' s'
  | _, _ => s
  end.

(** [needle in s]. *)
Fixpoint contains (needle s : string) : bool :=
  String.prefix needle s ||
  match s with
  | String _ s' => contains needle s'
  | EmptyString => false
  end.

(** [s.replace(needle, "")] for a non-empty [needle]: occurrences are removed
    from left to right, without overlap.  [skip] counts the characters of an
    occurrence that are still to be dropped. *)
Fixpoint remove_all_from (needle : string) (skip : nat) (s : string) : string :=
  match s with
  | EmptyString => ""
  | String c s' =>
      match skip with
      | S k => remove_all_from needle k s'
      | O =>
          if String.prefix needle s
          then remove_all_from needle (String.length needle - 1) s'
          else String c (remove_all_from needle 0 s')
      end
  end.
Definition remove_all (needle s : string) : string :=
  match needle with
  | EmptyString => s
  | _ => remove_all_from needle 0 s
  end.

(** [\b] after a keyword that ends in a word character: the text ends or goes
    on with a non-word character. *)
Definition boundary_at (s : string) : bool :=
  match s with
  | EmptyString => true
  | String c _ => negb (is_word c)
  end.

(** [re.split(r"\bKW\b", s)] for a keyword [kw] made of word characters.
    [prev_word] says whether the character before [s] is a word character. *)
Fixpoint split_keyword_from (kw : string) (prev_word : bool) (skip : nat)
    (s : string) : list string :=
  match s with
  | EmptyString => [""]
  | String c s' =>
      match skip with
      | S k => split_keyword_from kw (is_word c) k s'
      | O =>
          if negb prev_word && String.prefix kw s
             && boundary_at (string_drop (String.length kw) s)
          then "" :: split_keyword_from kw (is_word c) (String.length kw - 1) s'
          else
            match split_keyword_from kw (is_word c) 0 s' with
            | piece :: pieces => String c piece :: pieces
            | [] => [String c ""]
            end
      end
  end.
Definition split_keyword (kw s : string) : list string :=
  split_keyword_from kw false 0 s.

(** Splitting at whitespace ([re.split(r"\s+", s)] on a stripped string). *)
Fixpoint split_spaces_from (in_gap : bool) (s : string) : list string :=
  match s with
  | EmptyString => [""]
  | String c s' =>
      if is_space c then
        if in_gap then split_spaces_from true s'
        else "" :: split_spaces_from true s'
      else
        match split_spaces_from false s' with
        | piece :: pieces => String c piece :: pieces
        | [] => [String c ""]
        end
  end.
Definition split_spaces (s : string) : list string := split_spaces_from false s.

(** Splitting at a character ([s.split(",")]). *)
Fixpoint split_char (sep : ascii) (s : string) : list string :=
  match s with
  | EmptyString => [""]
  | String c s' =>
      if Ascii.eqb c sep then "" :: split_char sep s'
      else
        match split_char sep s' with
        | piece :: pieces => String c piece :: pieces
        | [] => [String c ""]
        end
  end.

(** The text before and after the first occurrence of a character. *)
Fixpoint take_until (stop : ascii) (s : string) : option (string * string) :=
  match s with
  | EmptyString => None
  | String c s' =>
      if Ascii.eqb c stop then Some ("", s')
      else
        match take_until stop s' with
        | Some (before, after) => Some (String c before, after)
        | None => None
        end
  end.

(** *** Numerals *)

Definition digit_value (c : ascii) : Z := Z.of_N (N_of_ascii c) - 48.

(** The longest run of digits at the head of [s]: its value after [acc], the
    number of digits, and the rest of the text. *)
Fixpoint read_digits (acc : Z) (s : string) : Z * nat * string :=
  match s with
  | String c s' =>
      if is_digit c then
        let '(v, n, rest) := read_digits (acc * 10 + digit_value c) s' in
        (v, S n, rest)
      else (acc, O, s)
  | EmptyString => (acc, O, s)
  end.

Definition read_sign (s : string) : bool * string :=
  match s with
  | String c s' =>
      if Ascii.eqb c "-" then (true, s')
      else if Ascii.eqb c "+" then (false, s')
      else (false, s)
  | EmptyString => (false, s)
  end.

Definition signed (neg : bool) (v : Z) : Z := if neg then - v else v.

(** [float(s)] for plain decimal numerals: an optional sign, digits, an
    optional fractional part, blanks around.  [None] stands for the
    [ValueError] of everything else (exponents and the spellings of infinity
    and not-a-number are left out of the model). *)
Definition parse_float (s : string) : option Q :=
  let '(neg, s1) := read_sign (strip s) in
  let '(a, na, s2) := read_digits 0 s1 in
  match s2 with
  | EmptyString =>
      if Nat.eqb na 0 then None else Some (inject_Z (signed neg a))
  | String c s3 =>
      if Ascii.eqb c "." then
        let '(v, nb, s4) := read_digits a s3 in
        match s4 with
        | EmptyString =>
            if Nat.eqb (na + nb) 0 then None
            else Some (Qmake (signed neg v) (pow10 nb))
        | _ => None
        end
      else None
  end.

(** [int(s)] for a string. *)
Definition parse_int (s : string) : result Z :=
  let '(neg, s1) := read_sign (strip s) in
  let '(a, na, s2) := read_digits 0 s1 in
  match s2 with
  | EmptyString => if Nat.eqb na 0 then Raise ValueError else Ok (signed neg a)
  | _ => Raise ValueError
  end.

(* ===================================================================== *)
(** ** Collaborators outside the module *)
(* ===================================================================== *)

Record Externals := {
  (** [str(x)] and [f"{x}"] for a float. *)
  str_float : Q -> string;
  (** The encoder handle, its [clone()], and [utils.get_lora_keymap] and
      [utils.load_lora]. *)
  Clip : Type;
  KeyMap : Type;
  LoraWeights : Type;
  clip_clone : Clip -> Clip;
  get_lora_keymap : Clip -> KeyMap;
  load_lora : Clip -> LoraWeights -> Q -> KeyMap -> Clip;
  (** [encode_prompt(clip, text, style, normalization)]: tokenizing and
      encoding one sub-prompt is the work of the encoder handle and of the
      weighting back ends. *)
  encode_prompt : Clip -> string -> string -> string -> Tensor * option Pooled;
  (** Whether the advanced-encoding package could be imported. *)
  have_advanced_encode : bool;
  (** [torch.randn(shape, generator=gen)]: the seed ([None] for the global
      generator), the number of earlier draws from that generator, and the
      number of entries wanted. *)
  randn : option Z -> nat -> nat -> list Q;
  (** The order in which a set of floats built from the given list is
      iterated. *)
  set_iter : list Q -> list Q
}.

(* ===================================================================== *)
(** ** The control-point interpolator *)
(* ===================================================================== *)

Section Interpolator.
Context (E : Externals).

(** The locals of [linear_interpolate_cond] that outlive one turn of its
    outer loop.  [li_new_pooled = None] says that the local [new_pooled] has
    not been assigned yet; once assigned it holds a tensor. *)
Record InterpLocals := {
  li_start_at : option Q;
  li_end_at : option Q;
  li_new_pooled : option Pooled;
  li_all_res : list Cond
}.

(** The locals of the inner loop over the steps. *)
Record StepLocals := {
  sl_from_pooled : option Pooled;
  sl_to_pooled : option Pooled;
  sl_new_pooled : option Pooled;
  sl_start_pct : Q;
  sl_res : list Cond
}.

Definition blend {A} `{TensorOps A} (from to : A) (factor : Q) : A :=
  tadd from (tmul (tsub to from) factor).

Definition blend_factor (s : Z) (x : Q) : Q :=
  py_round (inject_Z (s + 1) * x) 2.

Definition linear_prompt (factor : Q) : string :=
  "linear:" ++ str_float E (py_round (1 - factor) 2) ++ " / " ++ str_float E factor.

(** The pooled outputs after the [if]/[elif] of one step: the (equalized)
    [from_pooled] and [to_pooled], and the binding of [new_pooled]. *)
Definition step_pooled (from_pooled to_pooled new_pooled : option Pooled)
    (factor : Q) : option Pooled * option Pooled * option Pooled :=
  match from_pooled, to_pooled with
  | Some fp, Some tp =>
      let '(fp', tp') := equalize2 fp tp in
      (Some fp', Some tp', Some (blend fp' tp' factor))
  | Some fp, None => (Some fp, None, Some fp)
  | None, tp => (None, tp, new_pooled)
  end.

(** The segment [n] that one step appends. *)
Definition step_segment (new_cond : Tensor) (meta : Meta) (np : Pooled)
    (start_pct step factor : Q) (prompt_start : string) : Cond :=
  let m := set_pooled_output np meta in
  let m := set_start_percent (py_round start_pct 2) m in
  let m := set_end_percent (py_min (py_round (start_pct + step) 2) 1%Q) m in
  let m := if String.eqb prompt_start "" then m
           else set_prompt (linear_prompt factor) m in
  (new_cond, m).

(** One turn of [for s in range(start_on, num_steps)].  Reading the unbound
    local [new_pooled] raises. *)
Definition interpolate_step (from_cond to_cond : Tensor) (meta : Meta)
    (step x : Q) (prompt_start : string) (l : StepLocals) (s : Z)
  : result StepLocals :=
  let factor := blend_factor s x in
  let new_cond := blend from_cond to_cond factor in
  let '(from_pooled, to_pooled, new_pooled) :=
    step_pooled (sl_from_pooled l) (sl_to_pooled l) (sl_new_pooled l) factor in
  match new_pooled with
  | None => Raise (UnboundLocalError "new_pooled")
  | Some np =>
      Ok {| sl_from_pooled := from_pooled; sl_to_pooled := to_pooled;
            sl_new_pooled := Some np;
            sl_start_pct := py_round (sl_start_pct l + step) 2;
            sl_res := sl_res l ++
              [step_segment new_cond meta np (sl_start_pct l) step factor
                 prompt_start] |}
  end.

(** [res[-1][1]["end_percent"] = v], for a non-empty [res]. *)
Fixpoint set_last_end_percent (v : Q) (res : list Cond) : list Cond :=
  match res with
  | [] => []
  | [(t, m)] => [(t, set_end_percent v m)]
  | n :: res' => n :: set_last_end_percent v res'
  end.

(** [int(round((at - from_step) / step, 0))]. *)
Definition step_count (from_step step at_ : Q) : result Z :=
  q ← py_div (at_ - from_step) step; Ok (round_half_even q).

(** One turn of [for idx in range(count)], for the pair
    [start[idx], end[idx]]. *)
Definition interpolate_pair (from_step to_step step : Q) (prompt_start : string)
    (l : InterpLocals) (pair : Cond * Cond) : result InterpLocals :=
  let '((start_t, start_m), (end_t, end_m)) := pair in
  let '(from_cond, to_cond) := equalize2 start_t end_t in
  let start_at := default from_step (li_start_at l) in
  let end_at := default to_step (li_end_at l) in
  total_steps ← step_count from_step step to_step;
  num_steps ← step_count from_step step end_at;
  start_on ← step_count from_step step start_at;
  x ← py_div 1 (inject_Z (total_steps + 1));
  sl ← for_each (interpolate_step from_cond to_cond start_m step x prompt_start)
         (py_range start_on num_steps)
         {| sl_from_pooled := pooled_output start_m;
            sl_to_pooled := pooled_output end_m;
            sl_new_pooled := li_new_pooled l;
            sl_start_pct := start_at;
            sl_res := [] |};
  Ok {| li_start_at := Some start_at;
        li_end_at := Some end_at;
        li_new_pooled := sl_new_pooled sl;
        li_all_res :=
          match sl_res sl with
          | [] => li_all_res l
          | res => li_all_res l ++ set_last_end_percent (py_round end_at 2) res
          end |}.

(** [linear_interpolate_cond(start, end, from_step, to_step, step, start_at,
    end_at, prompt_start)].  [zip] pairs the two lists up to the shorter one,
    as [range(min(len(start), len(end)))] does. *)
Definition linear_interpolate_cond (start end_ : list Cond)
    (from_step to_step step : Q) (start_at end_at : option Q)
    (prompt_start : string) : result (list Cond) :=
  l ← for_each (interpolate_pair from_step to_step step prompt_start)
        (zip start end_)
        {| li_start_at := start_at; li_end_at := end_at;
           li_new_pooled := None; li_all_res := [] |};
  Ok (li_all_res l).

(** [linear_interpolator(control_points, step, start_pct, end_pct)].  The
    loop runs over [control_points[1:]] with the cursor [t_start, start] and
    the accumulator [conds]; both [break]s return what has been collected. *)
Fixpoint interpolator_loop (o_start o_end step start_pct end_pct : Q)
    (t_start : Q) (start : list Cond) (conds : list Cond)
    (rest : list (Q * list Cond)) : result (list Cond) :=
  match rest with
  | [] => Ok conds
  | (t_end, end_) :: rest' =>
      if Qltb t_start start_pct then
        interpolator_loop o_start o_end step start_pct end_pct
          t_end end_ conds rest'
      else if Qleb end_pct t_start then Ok conds
      else
        cs ← linear_interpolate_cond start end_ o_start o_end step
               (Some t_start) (Some end_pct) "N/A";
        match cs with
        | [] => Ok conds
        | _ => interpolator_loop o_start o_end step start_pct end_pct
                 t_end end_ (conds ++ cs) rest'
        end
  end.

Definition linear_interpolator (control_points : list (Q * list Cond))
    (step start_pct end_pct : Q) : result (list Cond) :=
  match control_points, last control_points with
  | (o_start, start) :: rest, Some (o_end, _) =>
      interpolator_loop o_start o_end step start_pct end_pct
        o_start start [] rest
  | _, _ => Raise IndexError
  end.

End Interpolator.

(* ===================================================================== *)
(** ** The directive extractor *)
(* ===================================================================== *)

(** Modelled from the spec: [utils.get_function], which is not part of this
    file.  [get_function text name defaults] removes every [NAME(args)] from
    the text and returns the remaining text with the argument tuples in source
    order.  The arguments of one occurrence run up to the first closing
    parenthesis and are separated by commas; an argument that is missing or
    empty is replaced by the default of its position, and the tuple has the
    arity of the defaults.  A name that is only the tail of a longer word is
    not this directive and stays in the text. *)
Fixpoint scan_function (pat : string) (prev_word : bool) (skip : nat)
    (s : string) : string * list string :=
  match s with
  | EmptyString => ("", [])
  | String c s' =>
      match skip with
      | S k => scan_function pat (is_word c) k s'
      | O =>
          let keep :=
            let '(t, found) := scan_function pat (is_word c) 0 s' in
            (String c t, found) in
          if negb prev_word && String.prefix pat s then
            match take_until ")" (string_drop (String.length pat) s) with
            | Some (inner, _) =>
                let '(t, found) :=
                  scan_function pat (is_word c)
                    (String.length pat + String.length inner) s' in
                (t, inner :: found)
            | None => keep
            end
          else keep
      end
  end.

Fixpoint fill_defaults (given defaults : list string) : list string :=
  match defaults with
  | [] => []
  | d :: defaults' =>
      match given with
      | [] => d :: fill_defaults [] defaults'
      | g :: given' =>
          (if String.eqb g "" then d else g) :: fill_defaults given' defaults'
      end
  end.

Definition get_function (text name : string) (defaults : list string)
  : string * list (list string) :=
  let '(t, found) := scan_function (name ++ "(") false 0 text in
  (t, map (fun inner => fill_defaults (map strip (split_char "," inner)) defaults)
          found).

(** [args[i]] on an argument tuple. *)
Definition arg (i : nat) (args : list string) : string := nth i args "".

(** Modelled from the spec: [utils.parse_floats] with [split_re="\s+"], which
    is not part of this file.  A pair written as two numerals separated by
    blanks; anything else is a parsing failure and gives the default pair. *)
Definition parse_floats (s : string) (defaults : Q * Q) : Q * Q :=
  match split_spaces (strip s) with
  | [a; b] =>
      match parse_float a, parse_float b with
      | Some x, Some y => (x, y)
      | _, _ => defaults
      end
  | _ => defaults
  end.

(** Modelled from the spec: [utils.safe_float], which is not part of this
    file: the float the string spells, and the default when it spells none.
    The default is returned as it is, so the result is optional here and the
    callers supply the default. *)
Definition safe_float (s : string) : option Q := parse_float s.

Definition is_pct (f : Q) : bool := Qleb 0 f && Qleb f 1.
Definition is_pixel (f : Q) : bool := Qeqb f 0 || Qltb 1 f.

(** [mask[a:b, c:d] = 1] and [torch.full((1, h, w), 0)]. *)
Definition py_slice_bound (len i : Z) : Z :=
  if (i <? 0)%Z then Z.max (i + len) 0 else Z.min i len.

Definition in_slice (len : nat) (a b : Z) (i : nat) : bool :=
  (py_slice_bound (Z.of_nat len) a <=? Z.of_nat i)%Z
  && (Z.of_nat i <? py_slice_bound (Z.of_nat len) b)%Z.

(** A slice assignment with two slices addresses the first two axes of the
    tensor; every entry below a selected position is written. *)
Definition assign_slice2 (a b c d : Z) (v : Q) (m : Mask) : Mask :=
  imap (fun i plane =>
    imap (fun j row =>
      if in_slice (length m) a b i && in_slice (length plane) c d j
      then map (fun _ => v) row else row) plane) m.

Definition torch_full3 (d0 d1 d2 : Z) (v : Q) : result Mask :=
  if (d0 <? 0)%Z || (d1 <? 0)%Z || (d2 <? 0)%Z then Raise RuntimeError
  else Ok (repeat (repeat (repeat v (Z.to_nat d2)) (Z.to_nat d1)) (Z.to_nat d0)).

Section Encoder.
Context (E : Externals).

Definition AVAILABLE_STYLES : list string :=
  (if have_advanced_encode E
   then ["comfy"; "A1111"; "compel"; "comfy++"; "down_weight"]
   else ["comfy"]) ++ ["perp"].

Definition AVAILABLE_NORMALIZATIONS : list string :=
  if have_advanced_encode E then ["none"; "mean"; "length"; "length+mean"]
  else ["none"].

Definition is_Some_b {A} (o : option A) : bool :=
  match o with Some _ => true | None => false end.

Definition string_in (s : string) (l : list string) : bool :=
  existsb (String.eqb s) l.

(** [get_sdxl(text)]: the text without the directive and the options, [None]
    for the empty dictionary. *)
Definition get_sdxl (text : string) : string * option SdxlOpts :=
  let '(text, sdxl) :=
    get_function text "SDXL" [""; "1024 1024"; "1024 1024"; "0 0"] in
  match sdxl with
  | [] => (text, None)
  | args :: _ =>
      let '(w, h) := parse_floats (arg 0 args) (1024, 1024)%Q in
      let '(tw, th) := parse_floats (arg 1 args) (1024, 1024)%Q in
      let '(cropw, croph) := parse_floats (arg 2 args) (0, 0)%Q in
      (text, Some {| width := py_int w;
                     height := py_int h;
                     target_width := py_int tw;
                     target_height := py_int tw;
                     crop_w := py_int cropw;
                     crop_h := py_int croph |})
  end.

(** [get_style(text, default_style, default_normalization)]. *)
Definition get_style (text default_style default_normalization : string)
  : string * string * string :=
  let '(text', styles) :=
    get_function text "STYLE" [default_style; default_normalization] in
  match styles with
  | [] => (default_style, default_normalization, text')
  | args :: _ =>
      let style := arg 0 args in
      let normalization := arg 1 args in
      let style :=
        if string_in style AVAILABLE_STYLES then style else default_style in
      let normalization :=
        if string_in normalization AVAILABLE_NORMALIZATIONS
        then normalization else default_normalization in
      (style, normalization, text')
  end.

(** The body of [get_area] after the arguments are parsed. *)
Definition area_of_values (x w y h : Q) : result Area :=
  if forallb is_pct [h; w; y; x] then Ok (AreaPercentage h w y x)
  else if forallb is_pixel [h; w; y; x] then
    Ok (AreaPixels (py_int h / 8) (py_int w / 8) (py_int y / 8) (py_int x / 8))
  else Raise (FormatError "AREA" [x; w; h; y]).

(** [get_area(text)]. *)
Definition get_area (text : string) : result (string * option (Area * Q)) :=
  let '(text, areas) := get_function text "AREA" ["0 1"; "0 1"; "1"] in
  match areas with
  | [] => Ok (text, None)
  | args :: _ =>
      let '(x, w) := parse_floats (arg 0 args) (0, 1)%Q in
      let '(y, h) := parse_floats (arg 1 args) (0, 1)%Q in
      let weight := default 1%Q (safe_float (arg 2 args)) in
      a ← area_of_values x w y h;
      Ok (text, Some (a, weight))
  end.

(** [get_mask_size(text)]. *)
Definition get_mask_size (text : string) : result (string * (Z * Z)) :=
  let '(text, sizes) := get_function text "MASK_SIZE" ["512"; "512"] in
  match sizes with
  | [] => Ok (text, (512, 512))
  | args :: _ =>
      w ← parse_int (arg 0 args);
      h ← parse_int (arg 1 args);
      Ok (text, (w, h))
  end.

(** The body of [get_mask] after the arguments are parsed. *)
Definition mask_of_values (x1 x2 y1 y2 : Q) (size : Z * Z) : result Mask :=
  let '(w, h) := size in
  bounds ←
    (if forallb is_pct [x1; x2; y1; y2] then
       Ok ((py_int (inject_Z w * x1), py_int (inject_Z w * x2)),
           (py_int (inject_Z h * y1), py_int (inject_Z h * y2)))
     else if forallb is_pixel [x1; x2; y1; y2] then
       Ok ((py_int x1, py_int x2), (py_int y1, py_int y2))
     else Raise (FormatError "MASK" [x1; x2; y1; y2]));
  let '((xs0, xs1), (ys0, ys1)) := bounds in
  mask ← torch_full3 1 h w 0;
  Ok (assign_slice2 ys0 ys1 xs0 xs1 1 mask).

(** [get_mask(text, size)]. *)
Definition get_mask (text : string) (size : Z * Z)
  : result (string * option Mask * option Q) :=
  let '(text, masks) := get_function text "MASK" ["0 1"; "0 1"; "1"] in
  match masks with
  | [] => Ok (text, None, None)
  | args :: _ =>
      let '(x1, x2) := parse_floats (arg 0 args) (0, 1)%Q in
      let '(y1, y2) := parse_floats (arg 1 args) (0, 1)%Q in
      let weight := default 1%Q (safe_float (arg 2 args)) in
      mask ← mask_of_values x1 x2 y1 y2 size;
      Ok (text, Some mask, Some weight)
  end.

(** A noise generator: the seed it was created with ([None] for the global
    generator) and the number of draws made from it. *)
Definition Generator : Type := option Z * nat.

(** [get_noise(text)]: the text, the clamped weight and the generator; the
    weight is [None] when there is no directive. *)
Definition get_noise (text : string) : string * option Q * option Z :=
  let '(text, noises) := get_function text "NOISE" ["0.0"; "none"] in
  match noises with
  | [] => (text, None, None)
  | first :: _ =>
      let gen := option_map py_int (safe_float (arg 1 first)) in
      let w := fold_left
                 (fun w n => (w + default 0%Q (safe_float (arg 0 n)))%Q)
                 noises 0%Q in
      (text, Some (py_max (py_min w 1%Q) 0%Q), gen)
  end.

Fixpoint reshape_like {A} (t : list (list A)) (flat : list Q) : list (list Q) :=
  match t with
  | [] => []
  | r :: t' =>
      take (length r) flat :: reshape_like t' (drop (length r) flat)
  end.

(** [apply_noise(cond, weight, gen)] on a conditioning tensor and on a
    pooled output; [draw] is the number of earlier draws from [gen]. *)
Definition noisy (weight : option Q) : bool :=
  match weight with
  | Some w => negb (Qeqb w 0)
  | None => false
  end.

Definition apply_noise_tensor (cond : Tensor) (weight : option Q)
    (gen : Generator) : Tensor * Generator :=
  if noisy weight then
    let w := default 0%Q weight in
    let n := reshape_like cond
               (randn E (fst gen) (snd gen) (length (concat cond))) in
    (tadd (tmul cond (1 - w)%Q) (tmul n w), (fst gen, S (snd gen)))
  else (cond, gen).

Definition apply_noise_pooled (pooled : option Pooled) (weight : option Q)
    (gen : Generator) : option Pooled * Generator :=
  match pooled with
  | Some p =>
      if noisy weight then
        let w := default 0%Q weight in
        let n := randn E (fst gen) (snd gen) (length p) in
        (Some (tadd (tmul p (1 - w)%Q) (tmul n w)), (fst gen, S (snd gen)))
      else (pooled, gen)
  | None => (None, gen)
  end.

(** *** The weight suffix [:<float>[!tag]] *)

Definition newline : ascii := "010"%char.

Fixpoint span_chars (f : ascii -> bool) (s : string) : string * string :=
  match s with
  | String c s' =>
      if f c then let '(run, rest) := span_chars f s' in (String c run, rest)
      else ("", s)
  | EmptyString => ("", s)
  end.

(** [$]: the end of the text, or the newline that ends it. *)
Definition at_end (s : string) : bool :=
  String.eqb s "" || String.eqb s (String newline "").

(** [-?\d\.?\d*] at the head of the text: the numeral and the rest.  Whatever
    follows the numeral in the pattern starts with [!] or ends the text, so
    the greedy reading is the only one that can succeed. *)
Definition read_weight_numeral (s : string) : option (string * string) :=
  let '(sign, s1) :=
    match s with
    | String c s' => if Ascii.eqb c "-" then ("-", s') else ("", s)
    | EmptyString => ("", s)
    end in
  match s1 with
  | String d s2 =>
      if is_digit d then
        let '(dot, s3) :=
          match s2 with
          | String c s' => if Ascii.eqb c "." then (".", s') else ("", s2)
          | EmptyString => ("", s2)
          end in
        let '(digits, rest) := span_chars is_digit s3 in
        Some (sign ++ String d "" ++ dot ++ digits, rest)
      else None
  | EmptyString => None
  end.

(** [(![A-Za-z]+)?$] on the rest: the tag, if the rest matches. *)
Definition read_weight_tag (s : string) : option (option string) :=
  if at_end s then Some None
  else
    match s with
    | String c s' =>
        if Ascii.eqb c "!" then
          let '(letters, rest) := span_chars is_letter s' in
          if negb (String.eqb letters "") && at_end rest
          then Some (Some (String c letters)) else None
        else None
    | EmptyString => None
    end.

(** [re.search] for the weight pattern (a colon, the numeral group, the
    optional tag group, the end of the text): the text before the leftmost
    colon at which the pattern matches, with the two groups. *)
Fixpoint search_weight (t : string) : option (string * string * option string) :=
  match t with
  | EmptyString => None
  | String c t' =>
      let here :=
        if Ascii.eqb c ":" then
          match read_weight_numeral t' with
          | Some (numeral, rest) =>
              match read_weight_tag rest with
              | Some tag => Some ("", numeral, tag)
              | None => None
              end
          | None => None
          end
        else None in
      match here with
      | Some m => Some m
      | None =>
          match search_weight t' with
          | Some (before, numeral, tag) => Some (String c before, numeral, tag)
          | None => None
          end
      end
  end.

(** The local function [weight(t)] of [do_encode]: the weight, whether the
    options hold the key [scale], and the text without the suffix.  ([float]
    accepts every numeral the pattern lets through.) *)
Definition weight (t : string) : Q * bool * string :=
  match search_weight t with
  | None => (1%Q, false, t)
  | Some (before, numeral, tag) =>
      (default 0%Q (parse_float numeral),
       match tag with
       | Some tg => String.eqb tg "!noscale"
       | None => false
       end,
       before)
  end.

(** *** [do_encode] *)

(** The locals that the loop over the sub-prompts updates. *)
Record EncodeLocals := {
  el_text : string;
  el_conds : list Cond;
  el_res : list (Tensor * option Pooled * Q)
}.

Definition spatial (p : string) : bool :=
  contains "AREA(" p || contains "MASK(" p.

(** [sum(abs(weight(p)[0]) for p in prompts if not (...))]. *)
Definition shared_scale (prompts : list string) : Q :=
  fold_left (fun acc p => (acc + Qabs (fst (fst (weight p))))%Q)
    (List.filter (fun p => negb (spatial p)) prompts) 0%Q.

(** One turn of [for prompt in prompts].  [p] is the first sub-prompt
    without its resolution hint, as bound before the loop. *)
Definition encode_term (clip : Clip E) (style normalization : string)
    (mask_size : Z * Z) (alt_method : bool) (p : string)
    (sdxl_opts : option SdxlOpts) (scale : Q)
    (l : EncodeLocals) (prompt : string) : result EncodeLocals :=
  '(prompt, mask, mask_weight) ← get_mask prompt mask_size;
  let '(w, noscale, prompt) := weight prompt in
  let '(text, noise_w, seed) := get_noise (el_text l) in
  if Qeqb w 0 then
    Ok {| el_text := text; el_conds := el_conds l; el_res := el_res l |}
  else
    '(prompt, area) ← get_area prompt;
    let '(prompt, local_sdxl_opts) := get_sdxl p in
    let '(cond, pooled) := encode_prompt E clip prompt style normalization in
    let '(cond, gen) := apply_noise_tensor cond noise_w (seed, O) in
    let '(pooled, gen) := apply_noise_pooled pooled noise_w gen in
    let settings := set_prompt prompt empty_meta in
    let settings := if alt_method then set_strength w settings else settings in
    let '(prompt, local_sdxl_opts) := get_sdxl p in
    let settings := update_sdxl sdxl_opts settings in
    let settings := update_sdxl local_sdxl_opts settings in
    let settings :=
      match area with
      | Some (a, aw) => set_area a aw settings
      | None => settings
      end in
    let settings :=
      match mask, mask_weight with
      | Some k, Some kw => set_mask k kw settings
      | _, _ => settings
      end in
    if is_Some_b mask || is_Some_b area || alt_method || is_Some_b local_sdxl_opts
    then
      let settings :=
        match pooled with
        | Some po => set_pooled_output po settings
        | None => settings
        end in
      Ok {| el_text := text; el_conds := el_conds l ++ [(cond, settings)];
            el_res := el_res l |}
    else
      c ← py_div w (if noscale then 1%Q else scale);
      Ok {| el_text := text; el_conds := el_conds l;
            el_res := el_res l ++ [(cond, pooled, c)] |}.

(** The summed segment appended after the loop, when [res] is not empty.
    Its metadata is the dictionary [sdxl_opts] itself, with the summed pooled
    output when some term has one. *)
Definition summed_segment (sdxl_opts : option SdxlOpts)
    (res : list (Tensor * option Pooled * Q)) : option Cond :=
  let sumconds := map (fun r => tmul (fst (fst r)) (snd r)) res in
  let pooleds := omap (fun r => snd (fst r)) res in
  match py_sum (equalize sumconds) with
  | None => None
  | Some sumcond =>
      let opts := update_sdxl sdxl_opts empty_meta in
      let opts :=
        match py_sum (equalize pooleds) with
        | Some po => set_pooled_output po opts
        | None => opts
        end in
      Some (sumcond, opts)
  end.

(** [do_encode(clip, text)]. *)
Definition do_encode (clip : Clip E) (text : string) : result (list Cond) :=
  let '(style, normalization, text) := get_style text "comfy" "none" in
  '(text, mask_size) ← get_mask_size text;
  let alt_method := contains "COMFYAND()" text in
  let text := remove_all "COMFYAND()" text in
  let prompts := map strip (split_keyword "AND" text) in
  let '(p, sdxl_opts) := get_sdxl (hd "" prompts) in
  let prompts := p :: tl prompts in
  let scale := shared_scale prompts in
  l ← for_each
        (encode_term clip style normalization mask_size alt_method p
           sdxl_opts scale)
        prompts
        {| el_text := text; el_conds := []; el_res := [] |};
  match summed_segment sdxl_opts (el_res l) with
  | Some n => Ok (el_conds l ++ [n])%list
  | None => Ok (el_conds l)
  end.

End Encoder.

(* ===================================================================== *)
(** ** The schedule orchestrator *)
(* ===================================================================== *)

(** A dictionary of LoRAs, [name -> weight_clip], as the list of its items in
    insertion order; the names are distinct, as the keys of a dictionary
    are. *)
Definition Loras : Type := list (string * Q).

Record SegmentConfig := {
  sc_prompt : string;
  sc_loras : Loras
}.

Fixpoint assoc {A} (k : string) (l : list (string * A)) : option A :=
  match l with
  | [] => None
  | (k', v) :: l' => if String.eqb k k' then Some v else assoc k l'
  end.

(** [d1 == d2] on dictionaries: the same keys with equal values. *)
Definition included (d1 d2 : Loras) : bool :=
  forallb (fun kv =>
    match assoc (fst kv) d2 with
    | Some v => Qeqb (snd kv) v
    | None => false
    end) d1.
Definition dict_eqb (d1 d2 : Loras) : bool := included d1 d2 && included d2 d1.

(** [sorted(l)], as a stable insertion sort. *)
Fixpoint insert_sorted {A} (le : A -> A -> bool) (x : A) (l : list A) : list A :=
  match l with
  | [] => [x]
  | y :: l' => if le y x then y :: insert_sorted le x l' else x :: l
  end.
Definition sorted {A} (le : A -> A -> bool) (l : list A) : list A :=
  foldr (insert_sorted le) [] l.

(** The prompt schedule handed over by the parser: its entries
    [(end_percent, segment)], its interpolation specs
    [(control_points, step)], and the LoRAs that [load_loras] returns. *)
Record Schedule (W : Type) := {
  entries : list (Q * SegmentConfig);
  interpolations : list (list Q * Q);
  loaded_loras : list (string * W)
}.
Arguments entries {W} s.
Arguments interpolations {W} s.
Arguments loaded_loras {W} s.

(** Modelled from the spec: the schedule's [at_step], which is not part of
    this file: the entry active at a percentage, that is the first one that
    ends at or after it, and the last entry beyond the end. *)
Fixpoint at_step (es : list (Q * SegmentConfig)) (s : Q)
  : result (Q * SegmentConfig) :=
  match es with
  | [] => Raise IndexError
  | [e] => Ok e
  | e :: es' => if Qleb s (fst e) then Ok e else at_step es' s
  end.

Section Orchestrator.
Context (E : Externals).

(** What the closures of [control_to_clip_common] share: the encoder handle
    [clip], [current_loras] and the conditioning cache.  [es_encoded] is a
    ghost field: the segments for which [do_encode] was invoked, oldest
    first. *)
Record EncoderState := {
  es_clip : Clip E;
  es_current_loras : Loras;
  es_cache : gmap string (list Cond);
  es_encoded : list SegmentConfig
}.

(** Computations over the shared state that may raise; the state outlives
    an exception, as the caller's cache does. *)
Definition Enc (A : Type) : Type := EncoderState -> result A * EncoderState.

Definition enc_ret {A} (a : A) : Enc A := fun st => (Ok a, st).
Definition enc_bind {A B} (m : Enc A) (k : A -> Enc B) : Enc B :=
  fun st =>
    match m st with
    | (Ok a, st') => k a st'
    | (Raise e, st') => (Raise e, st')
    end.
Definition enc_lift {A} (r : result A) : Enc A := fun st => (r, st).

Fixpoint enc_for_each {S A} (body : S -> A -> Enc S) (l : list A) (s : S)
  : Enc S :=
  match l with
  | [] => enc_ret s
  | a :: l' => enc_bind (body s a) (enc_for_each body l')
  end.

Fixpoint enc_map {A B} (f : A -> Enc B) (l : list A) : Enc (list B) :=
  match l with
  | [] => enc_ret []
  | a :: l' =>
      enc_bind (f a) (fun b =>
      enc_bind (enc_map f l') (fun bs => enc_ret (b :: bs)))
  end.

(** The local function [load_clip_lora(clip, loraspec)]. *)
Definition load_clip_lora (loaded : list (string * LoraWeights E))
    (clip : Clip E) (loraspec : Loras) : Clip E :=
  match loraspec with
  | [] => clip
  | _ =>
      let key_map := get_lora_keymap E clip in
      fold_left (fun clip item =>
        match assoc (fst item) loaded with
        | None => clip
        | Some weights =>
            if Qeqb (snd item) 0 then clip
            else load_lora E clip weights (snd item) key_map
        end) loraspec clip
  end.

(** The sorted [(lora_name, weight_clip)] pairs of a segment. *)
Definition lora_state (c : SegmentConfig) : list (string * Q) :=
  omap (fun k => pair k <$> assoc k (sc_loras c))
       (sorted String.leb (map fst (sc_loras c))).

(** The local function [c_str(c)]: the cache key. *)
Definition c_str (c : SegmentConfig) : string :=
  String.concat ""
    (sc_prompt c ::
     flat_map (fun kw => [fst kw; str_float E (snd kw)]) (lora_state c)).

(** The local function [encode(c)]. *)
Definition encode (orig_clip : Clip E) (loaded : list (string * LoraWeights E))
    (c : SegmentConfig) : Enc (list Cond) := fun st =>
  let cachekey := c_str c in
  match es_cache st !! cachekey with
  | Some cond => (Ok cond, st)
  | None =>
      let '(clip, current) :=
        if dict_eqb (sc_loras c) (es_current_loras st)
        then (es_clip st, es_current_loras st)
        else (load_clip_lora loaded (clip_clone E orig_clip) (sc_loras c),
              sc_loras c) in
      match do_encode E clip (sc_prompt c) with
      | Ok cond =>
          (Ok cond,
           {| es_clip := clip; es_current_loras := current;
              es_cache := <[cachekey := cond]> (es_cache st);
              es_encoded := es_encoded st ++ [c] |})
      | Raise e =>
          (Raise e,
           {| es_clip := clip; es_current_loras := current;
              es_cache := es_cache st;
              es_encoded := es_encoded st ++ [c] |})
      end
  end.

(** [get_control_points(schedule, steps, encoder)]. *)
Definition get_control_points (es : list (Q * SegmentConfig)) (steps : list Q)
    (encoder : SegmentConfig -> Enc (list Cond)) : Enc (list (Q * list Cond)) :=
  match steps, last steps with
  | first :: _ :: _, Some lst =>
      let inside :=
        List.filter (fun s => Qleb first s && Qleb s lst) (map fst es) in
      let new_steps := set_iter E (steps ++ inside) in
      enc_bind
        (enc_map (fun s =>
           enc_bind (enc_lift (at_step es s)) (fun e =>
           enc_bind (encoder (snd e)) (fun conds => enc_ret (s, conds))))
           new_steps)
        (fun control_points =>
           enc_ret (sorted (fun a b => Qleb (fst a) (fst b)) control_points))
  | _, _ => enc_lift (Raise AssertionError)
  end.

(** The condition that selects the interpolations of one schedule entry. *)
Definition overlaps (start_pct end_pct : Q) (i : list Q * Q) : result bool :=
  match fst i, last (fst i) with
  | first :: _, Some lst =>
      Ok ((Qleb first start_pct && Qltb start_pct lst)
          || (Qltb first end_pct && Qltb start_pct lst))
  | _, _ => Raise IndexError
  end.

Fixpoint filter_result {A} (f : A -> result bool) (l : list A) : result (list A) :=
  match l with
  | [] => Ok []
  | a :: l' =>
      b ← f a;
      rest ← filter_result f l';
      Ok (if b : bool then a :: rest else rest)
  end.

(** [min(i[1] for i in interpolations)] on a non-empty list. *)
Definition min_of (l : list Q) : Q :=
  match l with
  | [] => 0%Q
  | x :: l' => fold_left py_min l' x
  end.

(** The locals of the loop over the schedule. *)
Record RunLocals := {
  rl_start_pct : Q;
  rl_conds : list Cond
}.

(** One turn of [for i in interpolations]. *)
Definition interpolate_spec (es : list (Q * SegmentConfig))
    (encoder : SegmentConfig -> Enc (list Cond))
    (min_step start_pct end_pct : Q)
    (l : RunLocals) (i : list Q * Q) : Enc RunLocals :=
  match fst i, last (fst i) with
  | first :: _, Some lst =>
      let interpolation_end_pct := py_min lst end_pct in
      let interpolation_start_pct := py_max first start_pct in
      enc_bind (get_control_points es (fst i) encoder) (fun control_points =>
      enc_bind (enc_lift (linear_interpolator E control_points min_step
                            interpolation_start_pct interpolation_end_pct))
        (fun cs =>
           enc_ret {| rl_start_pct := py_max (rl_start_pct l) interpolation_end_pct;
                      rl_conds := rl_conds l ++ cs |}))
  | _, _ => enc_lift (Raise IndexError)
  end.

(** The copy of a segment that the orchestrator stamps and emits. *)
Definition stamp (start_pct end_pct : Q) (c : SegmentConfig) (n : Cond) : Cond :=
  (fst n,
   set_prompt (sc_prompt c)
     (set_end_percent (py_round end_pct 2)
        (set_start_percent (py_round start_pct 2) (snd n)))).

(** One turn of [for end_pct, c in schedules]. *)
Definition schedule_step (sched : Schedule (LoraWeights E))
    (encoder : SegmentConfig -> Enc (list Cond))
    (l : RunLocals) (entry : Q * SegmentConfig) : Enc RunLocals :=
  let '(end_pct, c) := entry in
  let start_pct := rl_start_pct l in
  enc_bind (enc_lift (filter_result (overlaps start_pct end_pct)
                        (interpolations sched))) (fun selected =>
  enc_bind
    (match selected with
     | [] => enc_ret {| rl_start_pct := start_pct; rl_conds := rl_conds l |}
     | _ =>
         let min_step := min_of (map snd selected) in
         enc_for_each
           (interpolate_spec (entries sched) encoder min_step start_pct end_pct)
           selected
           {| rl_start_pct := start_pct; rl_conds := rl_conds l |}
     end) (fun l1 =>
  enc_bind
    (if Qltb (rl_start_pct l1) end_pct then
       enc_bind (encoder c) (fun cond =>
       enc_ret (rl_conds l1 ++ map (stamp (rl_start_pct l1) end_pct c) cond)%list)
     else enc_ret (rl_conds l1)) (fun conds =>
  enc_ret {| rl_start_pct := end_pct; rl_conds := conds |}))).

(** The initial state of the closures: [clip] as passed in, no LoRA applied,
    the cache the caller supplies (the empty one for [None]). *)
Definition initial_state (clip : Clip E) (cond_cache : gmap string (list Cond))
  : EncoderState :=
  {| es_clip := clip; es_current_loras := []; es_cache := cond_cache;
     es_encoded := [] |}.

(** [control_to_clip_common(self, clip, schedules, lora_cache, cond_cache)]:
    the returned list, or the exception, with the final state of the
    closures. *)
Definition control_to_clip_common (clip : Clip E)
    (schedules : Schedule (LoraWeights E))
    (cond_cache : gmap string (list Cond))
  : result (list Cond) * EncoderState :=
  let orig_clip := clip_clone E clip in
  let encoder := encode orig_clip (loaded_loras schedules) in
  match enc_for_each (schedule_step schedules encoder) (entries schedules)
          {| rl_start_pct := 0%Q; rl_conds := [] |}
          (initial_state clip cond_cache) with
  | (Ok l, st) => (Ok (rl_conds l), st)
  | (Raise e, st) => (Raise e, st)
  end.

End Orchestrator.

(* ===================================================================== *)
(** ** Notions used by the properties *)
(* ===================================================================== *)

(** [int(round((at - from_step) / step, 0))] when [step] is not zero. *)
Definition step_index (from_step step at_ : Q) : Z :=
  round_half_even ((at_ - from_step) / step).

(** A segment carries the tensor and the pooled output of another one. *)
Definition same_values (n a : Cond) : Prop :=
  teq (fst n) (fst a) /\
  match pooled_output (snd n), pooled_output (snd a) with
  | Some p, Some q => teq p q
  | _, _ => False
  end.

(** The values of [end_percent] that [n] steps write, before the last one is
    overwritten. *)
Fixpoint end_percents (step pct : Q) (n : nat) : list Q :=
  match n with
  | O => []
  | S n' =>
      py_min (py_round (pct + step) 2) 1%Q
      :: end_percents step (py_round (pct + step) 2) n'
  end.

Definition deciles : list Q :=
  [0.1; 0.2; 0.3; 0.4; 0.5; 0.6; 0.7; 0.8; 0.9; 1.0]%Q.

Definition ends_at (n : Cond) (q : Q) : Prop :=
  exists v, end_percent (snd n) = Some v /\ (v == q)%Q.

(** The ten segments of one paired index, for [step = 0.1] over [0, 1]. *)
Definition decile_chunk (chunk : list Cond) (pair : Cond * Cond) : Prop :=
  Forall2 ends_at chunk deciles /\
  map fst chunk =
  map (fun s => blend (fst (equalize2 (fst (fst pair)) (fst (snd pair))))
                      (snd (equalize2 (fst (fst pair)) (fst (snd pair))))
                      (py_round (inject_Z (s + 1) * (1 / inject_Z (10 + 1))) 2))
      (py_range 0 10).

(** The last segment of a list, if any, ends at [v]. *)
Definition closes_at (v : Q) (segs : list Cond) : Prop :=
  forall n, last segs = Some n -> end_percent (snd n) = Some v.

Definition consecutive_pairs {A} (l : list A) : list (A * A) := zip l (tail l).

(** The interpolator as the specification words it: the consecutive pairs
    of control points are walked in order; a pair that starts before
    [start_pct] is skipped; the walk stops before a pair that starts at or
    after [end_pct] and at a pair that yields no segment; the outputs of the
    other pairs are concatenated. *)
Fixpoint interpolator_spec (E : Externals)
    (o_start o_end step start_pct end_pct : Q)
    (pairs : list ((Q * list Cond) * (Q * list Cond))) : result (list Cond) :=
  match pairs with
  | [] => Ok []
  | ((t_start, start), (_, end_)) :: later =>
      if Qltb t_start start_pct then
        interpolator_spec E o_start o_end step start_pct end_pct later
      else if Qleb end_pct t_start then Ok []
      else
        cs ← linear_interpolate_cond E start end_ o_start o_end step
               (Some t_start) (Some end_pct) "N/A";
        match cs with
        | [] => Ok []
        | _ =>
            more ← interpolator_spec E o_start o_end step start_pct end_pct later;
            Ok (cs ++ more)%list
        end
  end.

(** The mask as the specification words it: of shape [(1, h, w)], one on the
    rows [int(h*y1) .. int(h*y2)] and columns [int(w*x1) .. int(w*x2)] (upper
    ends excluded), zero elsewhere. *)
Definition rectangle_mask (w h : Z) (x1 x2 y1 y2 : Q) : Mask :=
  [map (fun row =>
     map (fun col =>
       if (py_int (inject_Z h * y1) <=? row)%Z && (row <? py_int (inject_Z h * y2))%Z
          && (py_int (inject_Z w * x1) <=? col)%Z && (col <? py_int (inject_Z w * x2))%Z
       then 1%Q else 0%Q)
       (py_range 0 w))
     (py_range 0 h)].

(** The ranges [[start_percent, end_percent)] of a list of segments. *)
Definition range_of (n : Cond) : option (Q * Q) :=
  match start_percent (snd n), end_percent (snd n) with
  | Some a, Some b => Some (a, b)
  | _, _ => None
  end.

(** Each range repeats the one before it or starts where that one ends, and
    no range is reversed. *)
Fixpoint chained (prev : Q * Q) (rs : list (Q * Q)) : Prop :=
  match rs with
  | [] => True
  | r :: rs' =>
      ((fst r == fst prev /\ snd r == snd prev) \/ fst r == snd prev)%Q
      /\ (fst r <= snd r)%Q /\ chained r rs'
  end.

(** The ranges of the segments partition [[0, 1]], in ascending order. *)
Definition partitions_unit (conds : list Cond) : Prop :=
  exists r rs z,
    map range_of conds = map Some (r :: rs)
    /\ (fst r == 0)%Q /\ (fst r <= snd r)%Q /\ chained r rs
    /\ last (r :: rs) = Some z /\ (snd z == 1)%Q.

(** A schedule covers [[0, 1]]: its percentages increase strictly from above
    zero and the last one is one. *)
Fixpoint increasing_from (p : Q) (es : list (Q * SegmentConfig)) : Prop :=
  match es with
  | [] => True
  | e :: es' => (p < fst e)%Q /\ increasing_from (fst e) es'
  end.

Definition covers_unit (es : list (Q * SegmentConfig)) : Prop :=
  increasing_from 0 es /\ exists e, last es = Some e /\ (fst e == 1)%Q.

(** *** A concrete set of collaborators, for the examples *)

Definition digit_string (d : Z) : string :=
  String (ascii_of_N (Z.to_N (48 + d))) "".

(** Floats with at most two decimals, printed as Python prints them. *)
Definition demo_str_float (q : Q) : string :=
  let n := round_half_even (q * 100) in
  let a := Z.abs n in
  (if (n <? 0)%Z then "-" else "")
  ++ pretty (a / 100)%Z ++ "."
  ++ digit_string ((a / 10) mod 10)
  ++ (if (a mod 10 =? 0)%Z then "" else digit_string (a mod 10)).

(** The encoder of the examples: one token row holding the length of the
    text and the code of its first character, and a pooled output holding
    the length. *)
Definition demo_encode (text : string) : Tensor * option Pooled :=
  let len := inject_Z (Z.of_nat (String.length text)) in
  let code := match text with
              | String c _ => inject_Z (Z.of_N (N_of_ascii c))
              | EmptyString => 0%Q
              end in
  ([[len; code]], Some [len]).

Definition demo : Externals := {|
  str_float := demo_str_float;
  Clip := unit; KeyMap := unit; LoraWeights := unit;
  clip_clone := fun c => c;
  get_lora_keymap := fun _ => tt;
  load_lora := fun c _ _ _ => c;
  encode_prompt := fun _ text _ _ => demo_encode text;
  have_advanced_encode := false;
  randn := fun _ _ n => repeat 0%Q n;
  set_iter := fun l => l
|}.

Definition demo_segment (text : string) : Cond :=
  (fst (demo_encode text),
   set_pooled_output (default [] (snd (demo_encode text))) empty_meta).

Definition demo_schedule (es : list (Q * string)) : Schedule unit :=
  {| entries := map (fun e => (fst e, {| sc_prompt := snd e; sc_loras := [] |})) es;
     interpolations := [];
     loaded_loras := [] |}.

(** The weighted mean [(wa*a + wb*b) / (wa + wb)] of two tensors. *)
Definition weighted_mean2 (a b : Tensor) (wa wb : Q) : Tensor :=
  tmul (tadd (tmul a wa) (tmul b wb)) (1 / (wa + wb))%Q.

(** What identifies a segment for the cache: its prompt text and its sorted
    [(lora_name, weight_clip)] pairs. *)
Definition segment_identity (c : SegmentConfig) : string * list (string * Q) :=
  (sc_prompt c, lora_state c).

(** The ranges that a run without interpolation stamps: for each entry, as
    many copies of its range as the entry has segments. *)
Fixpoint stamped_ranges (p : Q) (qs : list Q) (ks : list nat) : list (Q * Q) :=
  match qs, ks with
  | q :: qs', k :: ks' =>
      repeat (py_round p 2, py_round q 2) k ++ stamped_ranges q qs' ks'
  | _, _ => []
  end.

(** Every list in the cache has a segment. *)
Definition cache_inhabited (E : Externals) (st : EncoderState E) : Prop :=
  forall k v, es_cache E st !! k = Some v -> v <> [].

Definition encodes_something (E : Externals) (c : SegmentConfig) : Prop :=
  forall clip, exists n ns, do_encode E clip (sc_prompt c) = Ok (n :: ns).

(** The invariant of a run that has not raised, for the cache [cache0] that
    the caller supplied: the segments encoded so far have distinct keys, all
    of them are in the cache, none of them was in [cache0], and no key of
    [cache0] has been lost. *)
Definition cache_good (E : Externals) (cache0 : gmap string (list Cond))
    (st : EncoderState E) : Prop :=
  NoDup (map (c_str E) (es_encoded E st))
  /\ (forall c, In c (es_encoded E st) -> is_Some (es_cache E st !! c_str E c))
  /\ (forall c, In c (es_encoded E st) -> cache0 !! c_str E c = None)
  /\ (forall k, is_Some (cache0 !! k) -> is_Some (es_cache E st !! k)).

(** What is left of it after an exception. *)
Definition cache_weak (E : Externals) (cache0 : gmap string (list Cond))
    (st : EncoderState E) : Prop :=
  NoDup (map (c_str E) (es_encoded E st))
  /\ (forall c, In c (es_encoded E st) -> cache0 !! c_str E c = None).

Definition keeps (E : Externals) (cache0 : gmap string (list Cond)) {A}
    (m : Enc E A) : Prop :=
  forall st, cache_good E cache0 st ->
    cache_weak E cache0 (snd (m st))
    /\ (is_ok (fst (m st)) = true -> cache_good E cache0 (snd (m st))).

(* ===================================================================== *)
(** ** Notions used by the properties of the shared state *)
(* ===================================================================== *)

(** A property of the shared state that a computation keeps, whether it
    returns or raises. *)
Definition enc_preserves (E : Externals) (P : EncoderState E -> Prop) {A}
    (m : Enc E A) : Prop :=
  forall st, P st -> P (snd (m st)).

(** The cache only grows, and a computation that has returned from some
    state returns the same value, and changes nothing, from every state
    whose cache holds what the first run has left. *)
Definition replays (E : Externals) {A} (m : Enc E A) : Prop :=
  (forall st, es_cache E st ⊆ es_cache E (snd (m st)))
  /\ (forall st1 st2 a st1',
        m st1 = (Ok a, st1') -> es_cache E st1' ⊆ es_cache E st2 ->
        m st2 = (Ok a, st2)).

(** The entries of the cache [cache0] are in the cache of the state. *)
Definition cache_extends (E : Externals) (cache0 : gmap string (list Cond))
    (st : EncoderState E) : Prop :=
  forall k v, cache0 !! k = Some v -> es_cache E st !! k = Some v.

(** Every entry of the cache is an entry of [cache0] or what [do_encode]
    returned for a segment encoded in this run, under the key of that
    segment. *)
Definition cache_sound (E : Externals) (cache0 : gmap string (list Cond))
    (st : EncoderState E) : Prop :=
  forall k v, es_cache E st !! k = Some v ->
    cache0 !! k = Some v
    \/ exists c clip, In c (es_encoded E st) /\ c_str E c = k
                      /\ do_encode E clip (sc_prompt c) = Ok v.

(** The encoder handle in use is the one passed in, with no LoRA recorded,
    or a fresh clone of the original with the recorded LoRAs applied. *)
Definition clip_in_step (E : Externals) (clip0 orig : Clip E)
    (loaded : list (string * LoraWeights E)) (st : EncoderState E) : Prop :=
  (es_clip E st = clip0 /\ es_current_loras E st = [])
  \/ es_clip E st
     = load_clip_lora E loaded (clip_clone E orig) (es_current_loras E st).

(** A segment that carries its range. *)
Definition ranged (n : Cond) : Prop :=
  is_Some (start_percent (snd n)) /\ is_Some (end_percent (snd n)).

(** *** Notions used by the properties of the directives *)

(** An area the sampler can use: percentages within [[0, 1]], or pixel
    units that are not negative. *)
Definition valid_area (a : Area) : Prop :=
  match a with
  | AreaPercentage h w y x =>
      (0 <= h <= 1)%Q /\ (0 <= w <= 1)%Q /\ (0 <= y <= 1)%Q /\ (0 <= x <= 1)%Q
  | AreaPixels h w y x => (0 <= h /\ 0 <= w /\ 0 <= y /\ 0 <= x)%Z
  end.

(** A mask of shape [(1, h, w)] whose entries are zero or one. *)
Definition mask_shape (w h : Z) (m : Mask) : Prop :=
  length m = 1%nat
  /\ Forall (fun plane =>
       length plane = Z.to_nat h
       /\ Forall (fun row =>
            length row = Z.to_nat w
            /\ Forall (fun v => v = 0%Q \/ v = 1%Q) row) plane) m.

(** The text has no colon. *)
Fixpoint colon_free (t : string) : bool :=
  match t with
  | EmptyString => true
  | String c t' => negb (Ascii.eqb c ":") && colon_free t'
  end.

(** *** Notions used by the properties of the LoRA handling *)

(** A LoRA of the specification that changes the encoder handle: it has
    been loaded and its weight is not zero. *)
Definition effective (E : Externals) (loaded : list (string * LoraWeights E))
    (item : string * Q) : bool :=
  is_Some_b (assoc (fst item) loaded) && negb (Qeqb (snd item) 0).

(** Control points in ascending order of their percentage. *)
Fixpoint ascending {A} (cps : list (Q * A)) : Prop :=
  match cps with
  | [] => True
  | a :: rest =>
      Forall (fun b => (fst a <= fst b)%Q) rest /\ ascending rest
  end.

(** A separate layer: a segment with its own strength and prompt. *)
Definition layered (n : Cond) : Prop :=
  is_Some (strength (snd n)) /\ is_Some (prompt (snd n)).

(* ===================================================================== *)
(** ** Arithmetic of the step window *)
(* ===================================================================== *)

Lemma Qeqb_spec (a b : Q) : Qeqb a b = true <-> (a == b)%Q.
Proof. unfold Qeqb, Qeq. apply Z.eqb_eq. Qed.

Lemma Qltb_spec (a b : Q) : Qltb a b = true <-> (a < b)%Q.
Proof. unfold Qltb, Qlt. apply Z.ltb_lt. Qed.

Lemma Qleb_spec (a b : Q) : Qleb a b = true <-> (a <= b)%Q.
Proof. unfold Qleb, Qle. apply Z.leb_le. Qed.

Lemma Qeqb_false (a b : Q) : ~ (a == b)%Q -> Qeqb a b = false.
Proof.
  intros H. destruct (Qeqb a b) eqn:Heq; [|reflexivity].
  apply Qeqb_spec in Heq. contradiction.
Qed.

Lemma py_div_ok (a b : Q) : ~ (b == 0)%Q -> py_div a b = Ok (a / b)%Q.
Proof. intros H. unfold py_div. now rewrite (Qeqb_false _ _ H). Qed.

Lemma step_count_ok (from_step step at_ : Q) :
  ~ (step == 0)%Q ->
  step_count from_step step at_ = Ok (step_index from_step step at_).
Proof. intros H. unfold step_count. now rewrite (py_div_ok _ _ H). Qed.

Lemma inject_Z_nonzero (z : Z) : z <> 0 -> ~ (inject_Z z == 0)%Q.
Proof. unfold Qeq. simpl. lia. Qed.

Lemma py_range_cons (a b : Z) :
  a < b -> py_range a b = a :: py_range (a + 1) b.
Proof.
  intros H. unfold py_range.
  replace (Z.to_nat (b - a)) with (S (Z.to_nat (b - (a + 1)))) by lia.
  cbn [seq map]. f_equal; [lia|].
  rewrite <- seq_shift, map_map. apply map_ext. intros i. lia.
Qed.

Lemma py_range_nil (a b : Z) : b <= a -> py_range a b = [].
Proof. intros H. unfold py_range. now replace (Z.to_nat (b - a)) with O by lia. Qed.

Lemma interpolate_pair_unbound (E : Externals) (start0 end0 : Cond)
    (from_step to_step step : Q) (prompt_start : string) (l : InterpLocals) :
  pooled_output (snd start0) = None ->
  li_new_pooled l = None ->
  ~ (step == 0)%Q ->
  step_index from_step step to_step <> -1 ->
  step_index from_step step (default from_step (li_start_at l))
    < step_index from_step step (default to_step (li_end_at l)) ->
  interpolate_pair E from_step to_step step prompt_start l (start0, end0)
  = Raise (UnboundLocalError "new_pooled").
Proof.
  intros Hs Hnp Hstep Htotal Hwin.
  destruct start0 as [st sm], end0 as [et em]. simpl in Hs.
  unfold interpolate_pair.
  destruct (equalize2 st et) as [fc tc].
  rewrite !(step_count_ok _ _ _ Hstep). cbn [mbind result_bind].
  rewrite py_div_ok by (apply inject_Z_nonzero; lia).
  cbn [mbind result_bind].
  rewrite (py_range_cons _ _ Hwin). cbn [for_each].
  unfold interpolate_step, step_pooled.
  cbn [sl_from_pooled sl_to_pooled sl_new_pooled].
  rewrite Hs, Hnp. reflexivity.
Qed.

(** C10: when neither the first start segment nor the first end segment has
    a pooled output and the step window of the first pair is not empty
    ([start_on < num_steps], for a non-zero [step] and a number of steps
    other than [-1], so that no division fails before the loop),
    [linear_interpolate_cond] raises the unbound-local error for
    [new_pooled] instead of returning. *)
Theorem linear_interpolate_cond_unbound_pooled
    (E : Externals) (start0 end0 : Cond) (starts ends : list Cond)
    (from_step to_step step : Q) (start_at end_at : option Q)
    (prompt_start : string) :
  pooled_output (snd start0) = None ->
  pooled_output (snd end0) = None ->
  ~ (step == 0)%Q ->
  step_index from_step step to_step <> -1 ->
  step_index from_step step (default from_step start_at)
    < step_index from_step step (default to_step end_at) ->
  linear_interpolate_cond E (start0 :: starts) (end0 :: ends)
    from_step to_step step start_at end_at prompt_start
  = Raise (UnboundLocalError "new_pooled").
Proof.
  intros Hs He Hstep Htotal Hwin.
  unfold linear_interpolate_cond. cbn [zip zip_with for_each].
  rewrite interpolate_pair_unbound; auto.
Qed.

(* ===================================================================== *)
(** ** Interpolating between identical ends *)
(* ===================================================================== *)

Lemma py_range_length (a b : Z) : length (py_range a b) = Z.to_nat (b - a).
Proof. unfold py_range. now rewrite length_map, length_seq. Qed.

Lemma pad_to_length {A} (t : list A) : pad_to (length t) t = t.
Proof.
  unfold pad_to. destruct (last t); [|reflexivity].
  rewrite Nat.sub_diag. apply app_nil_r.
Qed.

Lemma equalize2_same {A} (t : list A) : equalize2 t t = (t, t).
Proof. unfold equalize2. now rewrite Nat.max_id, pad_to_length. Qed.

Lemma blend_same_Q (a f : Q) : teq (blend a a f) a.
Proof. unfold blend. simpl. ring. Qed.

Lemma blend_same_list {A} `{TensorOps A} (t : list A) (f : Q) :
  (forall a : A, teq (blend a a f) a) -> teq (blend t t f) t.
Proof.
  intros Hrec. unfold blend. simpl.
  induction t as [|a t IH]; simpl; constructor; auto. apply Hrec.
Qed.

Lemma blend_same_pooled (p : Pooled) (f : Q) : teq (blend p p f) p.
Proof. apply blend_same_list. intros a. apply blend_same_Q. Qed.

Lemma blend_same_tensor (t : Tensor) (f : Q) : teq (blend t t f) t.
Proof. apply blend_same_list. intros a. apply blend_same_pooled. Qed.

Lemma step_segment_fst E c m np pct step f ps :
  fst (step_segment E c m np pct step f ps) = c.
Proof. reflexivity. Qed.

Lemma step_segment_pooled E c m np pct step f ps :
  pooled_output (snd (step_segment E c m np pct step f ps)) = Some np.
Proof. unfold step_segment. simpl. now destruct (String.eqb ps ""). Qed.

Lemma set_last_end_percent_same v (res : list Cond) (l : list Cond) :
  Forall2 same_values res l ->
  Forall2 same_values (set_last_end_percent v res) l.
Proof.
  induction 1 as [|[t m] a res l Ha Hall IH]; simpl; [constructor|].
  destruct res as [|n res].
  - inversion Hall; subst. constructor; [|constructor]. exact Ha.
  - constructor; [exact Ha|]. exact IH.
Qed.

Section SameEnds.
Context (E : Externals) (t : Tensor) (m : Meta) (p : Pooled).
Context (ps : string).
Hypothesis Hp : pooled_output m = Some p.

Lemma same_values_refl_segment (step f pct : Q) :
  same_values (step_segment E (blend t t f) m (blend p p f) pct step f ps) (t, m).
Proof.
  split.
  - rewrite step_segment_fst. apply blend_same_tensor.
  - rewrite step_segment_pooled. simpl. rewrite Hp. apply blend_same_pooled.
Qed.

Lemma interpolate_step_same (step x : Q) (l : StepLocals) (s : Z) :
  sl_from_pooled l = Some p -> sl_to_pooled l = Some p ->
  interpolate_step E t t m step x ps l s =
  Ok {| sl_from_pooled := Some p; sl_to_pooled := Some p;
        sl_new_pooled := Some (blend p p (blend_factor s x));
        sl_start_pct := py_round (sl_start_pct l + step) 2;
        sl_res := sl_res l ++
          [step_segment E (blend t t (blend_factor s x)) m
             (blend p p (blend_factor s x)) (sl_start_pct l) step
             (blend_factor s x) ps] |}.
Proof.
  intros Hf Ht. unfold interpolate_step, step_pooled.
  now rewrite Hf, Ht, equalize2_same.
Qed.

Lemma same_ends_steps (step x : Q) (ss : list Z) (l : StepLocals) :
  sl_from_pooled l = Some p -> sl_to_pooled l = Some p ->
  exists l' new,
    for_each (interpolate_step E t t m step x ps) ss l = Ok l'
    /\ sl_res l' = (sl_res l ++ new)%list
    /\ Forall2 same_values new (repeat (t, m) (length ss)).
Proof.
  revert l. induction ss as [|s ss IH]; intros l Hf Ht.
  - exists l, []. simpl. rewrite app_nil_r. repeat split; constructor.
  - cbn [for_each]. rewrite (interpolate_step_same step x l s Hf Ht).
    cbn [mbind result_bind].
    match goal with |- context [for_each _ ss ?l1] =>
      destruct (IH l1) as (l' & new & Hrun & Hres & Hall); [reflexivity..|]
    end.
    exists l'. eexists. split; [exact Hrun|]. split.
    + rewrite Hres. cbn [sl_res]. rewrite <- app_assoc. reflexivity.
    + simpl. constructor; [apply same_values_refl_segment|exact Hall].
Qed.

Lemma step_count_total : step_count 0 0.1 1 = Ok 10.
Proof. reflexivity. Qed.

Lemma step_count_zero : step_count 0 0.1 0 = Ok 0.
Proof. reflexivity. Qed.

Lemma same_ends_pair (l : InterpLocals) :
  default 0%Q (li_start_at l) = 0%Q -> default 1%Q (li_end_at l) = 1%Q ->
  exists l' chunk,
    interpolate_pair E 0 1 0.1 ps l ((t, m) : Cond, (t, m) : Cond) = Ok l'
    /\ li_start_at l' = Some 0%Q /\ li_end_at l' = Some 1%Q
    /\ li_all_res l' = (li_all_res l ++ chunk)%list
    /\ Forall2 same_values chunk (repeat ((t, m) : Cond) 10).
Proof.
  intros Hs He. unfold interpolate_pair.
  rewrite equalize2_same, Hs, He, step_count_total, step_count_zero.
  cbn [mbind result_bind].
  change (py_div 1 (inject_Z (10 + 1))) with (Ok (1 / inject_Z 11)%Q).
  cbn [mbind result_bind].
  match goal with |- context [for_each ?f ?ss ?l1] =>
    destruct (same_ends_steps 0.1%Q (1 / inject_Z 11)%Q ss l1) as (sl & new & Hrun & Hres & Hall);
      [exact Hp..|]
  end.
  rewrite Hrun. cbn [mbind result_bind].
  rewrite py_range_length in Hall. change (Z.to_nat (10 - 0)) with 10%nat in Hall.
  cbn [sl_res app] in Hres. rewrite Hres.
  eexists. exists (set_last_end_percent (py_round 1 2) new).
  split; [reflexivity|]. split; [reflexivity|]. split; [reflexivity|]. split.
  - cbn [li_all_res]. destruct new; [inversion Hall | reflexivity].
  - now apply set_last_end_percent_same.
Qed.

End SameEnds.

Lemma same_ends_pairs (E : Externals) (ps : string) (A : list Cond)
    (l : InterpLocals) :
  Forall (fun a => is_Some (pooled_output (snd a))) A ->
  default 0%Q (li_start_at l) = 0%Q -> default 1%Q (li_end_at l) = 1%Q ->
  exists l' segs,
    for_each (interpolate_pair E 0 1 0.1 ps) (zip A A) l = Ok l'
    /\ li_all_res l' = (li_all_res l ++ segs)%list
    /\ Forall2 same_values segs (flat_map (fun a => repeat a 10) A).
Proof.
  intros HA. revert l. induction HA as [|[t m] A [p Hp] HA IH]; intros l Hs He.
  - exists l, []. simpl. rewrite app_nil_r. repeat split; constructor.
  - cbn [zip zip_with for_each].
    destruct (same_ends_pair E t m p ps Hp l Hs He)
      as (l1 & chunk & Hrun & Hs1 & He1 & Hres1 & Hall1).
    rewrite Hrun. cbn [mbind result_bind].
    destruct (IH l1) as (l' & segs & Hrun' & Hres' & Hall').
    { now rewrite Hs1. } { now rewrite He1. }
    exists l', (chunk ++ segs)%list. split; [exact Hrun'|]. split.
    + rewrite Hres', Hres1. now rewrite app_assoc.
    + cbn [flat_map]. apply Forall2_app; assumption.
Qed.

(** C8: for a list [A] whose segments all have a pooled output,
    [linear_interpolate_cond(A, A, 0, 1, 0.1)] returns, for each segment of
    [A] in order, ten segments whose tensor and pooled output have the
    entries of that segment's: blending a tensor with itself is the identity
    for every factor. *)
Theorem interpolate_identical_is_identity (E : Externals) (A : list Cond)
    (prompt_start : string) :
  Forall (fun a => is_Some (pooled_output (snd a))) A ->
  exists segs,
    linear_interpolate_cond E A A 0 1 0.1 None None prompt_start = Ok segs
    /\ Forall2 same_values segs (flat_map (fun a => repeat a 10) A).
Proof.
  intros HA. unfold linear_interpolate_cond.
  destruct (same_ends_pairs E prompt_start A
              {| li_start_at := None; li_end_at := None;
                 li_new_pooled := None; li_all_res := [] |} HA)
    as (l' & segs & Hrun & Hres & Hall); [reflexivity..|].
  rewrite Hrun. exists segs. split; [|exact Hall].
  cbn [mbind result_bind]. now rewrite Hres.
Qed.

(* ===================================================================== *)
(** ** The segments of one interpolation *)
(* ===================================================================== *)

Lemma step_segment_end E c m np pct step f ps :
  end_percent (snd (step_segment E c m np pct step f ps))
  = Some (py_min (py_round (pct + step) 2) 1%Q).
Proof. unfold step_segment. simpl. now destruct (String.eqb ps ""). Qed.

Section Steps.
Context (E : Externals) (fc tc : Tensor) (m : Meta) (step x : Q) (ps : string).

Lemma interpolate_step_bound (l : StepLocals) (s : Z) :
  is_Some (sl_from_pooled l) \/ is_Some (sl_new_pooled l) ->
  exists l1 seg,
    interpolate_step E fc tc m step x ps l s = Ok l1
    /\ is_Some (sl_new_pooled l1)
    /\ sl_start_pct l1 = py_round (sl_start_pct l + step) 2
    /\ sl_res l1 = (sl_res l ++ [seg])%list
    /\ fst seg = blend fc tc (blend_factor s x)
    /\ end_percent (snd seg)
       = Some (py_min (py_round (sl_start_pct l + step) 2) 1%Q).
Proof.
  intros H. unfold interpolate_step, step_pooled.
  destruct (sl_from_pooled l) as [fp|].
  - destruct (sl_to_pooled l) as [tp|]; cbn [equalize2];
      (eexists; eexists; split; [reflexivity|]; cbn [sl_new_pooled sl_start_pct sl_res];
       repeat split; eauto using step_segment_end).
  - destruct H as [[? H]|[np H]]; [discriminate|]. rewrite H.
    eexists; eexists; split; [reflexivity|]; cbn [sl_new_pooled sl_start_pct sl_res];
      repeat split; eauto using step_segment_end.
Qed.

Lemma steps_run (ss : list Z) (l : StepLocals) :
  is_Some (sl_from_pooled l) \/ is_Some (sl_new_pooled l) ->
  exists l' new,
    for_each (interpolate_step E fc tc m step x ps) ss l = Ok l'
    /\ (ss <> [] \/ is_Some (sl_new_pooled l) -> is_Some (sl_new_pooled l'))
    /\ sl_res l' = (sl_res l ++ new)%list
    /\ map fst new = map (fun s => blend fc tc (blend_factor s x)) ss
    /\ map (fun n => end_percent (snd n)) new
       = map Some (end_percents step (sl_start_pct l) (length ss)).
Proof.
  revert l. induction ss as [|s ss IH]; intros l H.
  - exists l, []. simpl. rewrite app_nil_r. repeat split; auto.
    intros [?|?]; [congruence|assumption].
  - destruct (interpolate_step_bound l s H)
      as (l1 & seg & Hrun & Hnp & Hpct & Hres & Hfst & Hend).
    destruct (IH l1 (or_intror Hnp)) as (l' & new & Hrun' & Hnp' & Hres' & Hfst' & Hend').
    exists l', (seg :: new). cbn [for_each]. rewrite Hrun. cbn [mbind result_bind].
    split; [exact Hrun'|]. split; [intros _; apply Hnp'; now right|]. split.
    + rewrite Hres', Hres, <- app_assoc. reflexivity.
    + cbn [map length end_percents]. rewrite Hfst, Hfst', Hend, Hend', Hpct.
      split; reflexivity.
Qed.

End Steps.

Lemma set_last_end_percent_fst v (res : list Cond) :
  map fst (set_last_end_percent v res) = map fst res.
Proof.
  induction res as [|[t m] res IH]; [reflexivity|].
  destruct res as [|n res]; [reflexivity|].
  change (set_last_end_percent v ((t, m) :: n :: res))
    with ((t, m) :: set_last_end_percent v (n :: res)).
  cbn [map]. now rewrite IH.
Qed.

Lemma set_last_end_percent_ends v (res : list Cond) (n : Cond) :
  map (fun n => end_percent (snd n)) (set_last_end_percent v (res ++ [n]))
  = (map (fun n => end_percent (snd n)) res ++ [Some v])%list.
Proof.
  induction res as [|[t m] res IH].
  - destruct n as [t m]. reflexivity.
  - destruct res as [|n' res].
    + destruct n as [t' m']. reflexivity.
    + change (set_last_end_percent v (((t, m) :: n' :: res) ++ [n]))
        with ((t, m) :: set_last_end_percent v ((n' :: res) ++ [n])).
      rewrite map_cons, IH. reflexivity.
Qed.

Lemma decile_ends :
  Forall2 (fun v q => (v == q)%Q)
    (removelast (end_percents 0.1 0 10) ++ [py_round 1 2]) deciles.
Proof. vm_compute. repeat constructor. Qed.

Lemma end_percents_snoc (step pct : Q) (n : nat) :
  exists front e, end_percents step pct (S n) = (front ++ [e])%list
                  /\ front = removelast (end_percents step pct (S n)).
Proof.
  destruct (exists_last (l := end_percents step pct (S n))) as (front & e & H);
    [discriminate|].
  exists front, e. split; [exact H|]. now rewrite H, removelast_last.
Qed.

Lemma decile_pair (E : Externals) (ps : string) (l : InterpLocals) (a b : Cond) :
  default 0%Q (li_start_at l) = 0%Q -> default 1%Q (li_end_at l) = 1%Q ->
  is_Some (pooled_output (snd a)) \/ is_Some (li_new_pooled l) ->
  exists l' chunk,
    interpolate_pair E 0 1 0.1 ps l (a, b) = Ok l'
    /\ li_start_at l' = Some 0%Q /\ li_end_at l' = Some 1%Q
    /\ is_Some (li_new_pooled l')
    /\ li_all_res l' = (li_all_res l ++ chunk)%list
    /\ decile_chunk chunk (a, b).
Proof.
  intros Hs He Hp. destruct a as [st sm], b as [et em].
  unfold interpolate_pair, decile_chunk. cbn [fst snd] in *.
  rewrite Hs, He, step_count_total, step_count_zero.
  destruct (equalize2 st et) as [fc tc]. cbn [mbind result_bind fst snd].
  change (py_div 1 (inject_Z (10 + 1))) with (Ok (1 / inject_Z 11)%Q).
  cbn [mbind result_bind].
  match goal with |- context [for_each _ ?ss ?l1] =>
    destruct (steps_run E fc tc sm 0.1 (1 / inject_Z 11) ps ss l1 Hp)
      as (sl & new & Hrun & Hnp & Hres & Hfst & Hend)
  end.
  rewrite Hrun. cbn [mbind result_bind].
  cbn [sl_res sl_start_pct app] in Hres, Hend. rewrite Hres.
  rewrite py_range_length in Hend. change (Z.to_nat (10 - 0)) with 10%nat in Hend.
  destruct (exists_last (l := new)) as (front & n & ->).
  { intros ->. discriminate Hend. }
  eexists. exists (set_last_end_percent (py_round 1 2) (front ++ [n])).
  split; [reflexivity|]. split; [reflexivity|]. split; [reflexivity|].
  split; [cbn [li_new_pooled]; apply Hnp; left; discriminate|].
  split; [cbn [li_all_res]; destruct (front ++ [n])%list eqn:Hn;
            [destruct front; discriminate|reflexivity]|].
  split.
  - assert (Hends : map (fun n => end_percent (snd n))
                      (set_last_end_percent (py_round 1 2) (front ++ [n]))
                    = map Some (removelast (end_percents 0.1 0 10) ++ [py_round 1 2])).
    { rewrite set_last_end_percent_ends, map_app. f_equal.
      rewrite map_app in Hend.
      destruct (end_percents_snoc 0.1 0 9) as (fr & e & Heq & Hfr).
      rewrite Heq in Hend. rewrite map_app in Hend.
      apply app_inj_tail in Hend. destruct Hend as [Hend _].
      subst fr. exact Hend. }
    pose proof decile_ends as Hd.
    revert Hends Hd. generalize (removelast (end_percents 0.1 0 10) ++ [py_round 1 2])%list.
    generalize (set_last_end_percent (py_round 1 2) (front ++ [n])). 
    intros segs vs Hends Hd. revert segs Hends.
    induction Hd as [|v q vs qs Hvq Hd IH]; intros segs Hends.
    + destruct segs; [constructor|discriminate].
    + destruct segs as [|seg segs]; [discriminate|]. injection Hends as Hv Hrest.
      constructor; [exists v; auto | now apply IH].
  - rewrite set_last_end_percent_fst. exact Hfst.
Qed.

Lemma decile_pairs_bound (E : Externals) (ps : string) (pairs : list (Cond * Cond))
    (l : InterpLocals) :
  default 0%Q (li_start_at l) = 0%Q -> default 1%Q (li_end_at l) = 1%Q ->
  is_Some (li_new_pooled l) ->
  exists l' chunks,
    for_each (interpolate_pair E 0 1 0.1 ps) pairs l = Ok l'
    /\ li_all_res l' = (li_all_res l ++ concat chunks)%list
    /\ Forall2 decile_chunk chunks pairs.
Proof.
  revert l. induction pairs as [|[a b] pairs IH]; intros l Hs He Hnp.
  - exists l, []. simpl. rewrite app_nil_r. repeat split; constructor.
  - destruct (decile_pair E ps l a b Hs He (or_intror Hnp))
      as (l1 & chunk & Hrun & Hs1 & He1 & Hnp1 & Hres1 & Hchunk).
    destruct (IH l1) as (l' & chunks & Hrun' & Hres' & Hall'); auto.
    { now rewrite Hs1. } { now rewrite He1. }
    exists l', (chunk :: chunks). cbn [for_each]. rewrite Hrun.
    cbn [mbind result_bind]. split; [exact Hrun'|]. split.
    + rewrite Hres', Hres1. cbn [concat]. now rewrite app_assoc.
    + constructor; assumption.
Qed.

Lemma for_each_invariant {S A} (P : S -> Prop) (body : S -> A -> result S)
    (l : list A) (s s' : S) :
  (forall s a s', P s -> body s a = Ok s' -> P s') ->
  P s -> for_each body l s = Ok s' -> P s'.
Proof.
  intros Hbody. revert s. induction l as [|a l IH]; intros s Hs Hrun.
  - simpl in Hrun. now inversion Hrun; subst.
  - cbn [for_each] in Hrun. destruct (body s a) as [s1|e] eqn:Hb;
      cbn [mbind result_bind] in Hrun; [|discriminate].
    eapply IH; [|exact Hrun]. eapply Hbody; eauto.
Qed.

Lemma set_last_end_percent_last v (res : list Cond) (n : Cond) :
  last (set_last_end_percent v res) = Some n -> end_percent (snd n) = Some v.
Proof.
  induction res as [|[t m] res IH]; [discriminate|].
  destruct res as [|n' res].
  - simpl. intros H. now inversion H; subst.
  - change (set_last_end_percent v ((t, m) :: n' :: res))
      with ((t, m) :: set_last_end_percent v (n' :: res)).
    intros H. apply IH. revert H.
    destruct (set_last_end_percent v (n' :: res)) eqn:Hset; [|auto].
    destruct n' as [t' m']. destruct res; discriminate Hset.
Qed.

Lemma closes_at_app (v : Q) (old res : list Cond) :
  res <> [] -> closes_at v (old ++ set_last_end_percent v res).
Proof.
  intros Hres n Hn. rewrite last_app in Hn.
  destruct (last (set_last_end_percent v res)) as [n'|] eqn:Hl.
  - injection Hn as <-. eapply set_last_end_percent_last; exact Hl.
  - exfalso. apply last_None in Hl. destruct res as [|[t m] res]; [congruence|].
    destruct res; discriminate Hl.
Qed.

Lemma interpolate_pair_closes (E : Externals) (from_step to_step step : Q)
    (ps : string) (e : Q) (l : InterpLocals) (pair : Cond * Cond)
    (l' : InterpLocals) :
  default to_step (li_end_at l) = e /\ closes_at (py_round e 2) (li_all_res l) ->
  interpolate_pair E from_step to_step step ps l pair = Ok l' ->
  default to_step (li_end_at l') = e /\ closes_at (py_round e 2) (li_all_res l').
Proof.
  intros [He Hlast] Hrun. destruct pair as [[st sm] [et em]].
  unfold interpolate_pair in Hrun. destruct (equalize2 st et) as [fc tc].
  repeat match type of Hrun with
  | (?m ≫= _) = Ok _ =>
      destruct m eqn:?; cbn [mbind result_bind] in Hrun; [|discriminate]
  end.
  inversion Hrun; subst l'; clear Hrun. cbn [li_end_at li_all_res default].
  split; [exact He|]. rewrite He.
  destruct (sl_res _) as [|c res]; [exact Hlast|].
  apply (closes_at_app (py_round e 2) (li_all_res l) (c :: res)). discriminate.
Qed.

(** C4 (as amended): over [from_step = 0], [to_step = 1], [step = 0.1] and
    no [start_at] or [end_at], on non-empty lists whose first start segment
    has a pooled output, [linear_interpolate_cond] emits for each paired
    index ten segments that end at 0.1, 0.2, ..., 1.0, the tensor of step
    [s] being the blend with factor [round((s+1) * 1/(10+1), 2)]; and for
    every call that returns at least one segment, the last segment ends at
    [round(end_at, 2)], the requested end rounded to two decimals. *)
Theorem linear_interpolate_deciles (E : Externals) :
  (forall (start0 end0 : Cond) (starts ends : list Cond) (prompt_start : string),
     is_Some (pooled_output (snd start0)) ->
     exists chunks,
       linear_interpolate_cond E (start0 :: starts) (end0 :: ends)
         0 1 0.1 None None prompt_start = Ok (concat chunks)
       /\ Forall2 decile_chunk chunks (zip (start0 :: starts) (end0 :: ends)))
  /\
  (forall (start end_ : list Cond) (from_step to_step step : Q)
          (start_at end_at : option Q) (prompt_start : string)
          (segs : list Cond) (n : Cond),
     linear_interpolate_cond E start end_ from_step to_step step
       start_at end_at prompt_start = Ok segs ->
     last segs = Some n ->
     end_percent (snd n) = Some (py_round (default to_step end_at) 2)).
Proof.
  split.
  - intros start0 end0 starts ends ps Hp.
    unfold linear_interpolate_cond. cbn [zip zip_with for_each].
    match goal with |- context [interpolate_pair _ _ _ _ _ ?l0 _] =>
      destruct (decile_pair E ps l0 start0 end0) as
        (l1 & chunk & Hrun & Hs1 & He1 & Hnp1 & Hres1 & Hchunk);
        [reflexivity | reflexivity | now left |]
    end.
    rewrite Hrun. cbn [mbind result_bind].
    destruct (decile_pairs_bound E ps (zip starts ends) l1)
      as (l' & chunks & Hrun' & Hres' & Hall'); auto.
    { now rewrite Hs1. } { now rewrite He1. }
    rewrite Hrun'. cbn [mbind result_bind]. exists (chunk :: chunks). split.
    + rewrite Hres', Hres1. reflexivity.
    + constructor; assumption.
  - intros start end_ from_step to_step step start_at end_at ps segs n Hrun Hn.
    unfold linear_interpolate_cond in Hrun.
    match type of Hrun with
    | (for_each ?body ?ps ?s ≫= _) = _ =>
        destruct (for_each body ps s) as [l'|] eqn:Hloop;
          cbn [mbind result_bind] in Hrun; [|discriminate];
        pose proof (for_each_invariant
          (fun st => default to_step (li_end_at st) = default to_step end_at
                    /\ closes_at (py_round (default to_step end_at) 2) (li_all_res st))
          body ps s l') as Hinv
    end.
    inversion Hrun; subst segs; clear Hrun.
    apply Hinv; auto.
    + intros s a s' Hs Hb. eapply interpolate_pair_closes; eauto.
    + split; [reflexivity|]. intros ? H. discriminate H.
Qed.

(* ===================================================================== *)
(** ** The walk over the control points *)
(* ===================================================================== *)

Lemma interpolator_loop_spec (E : Externals) (o_start o_end step start_pct end_pct : Q)
    (rest : list (Q * list Cond)) (t_start : Q) (start conds : list Cond) :
  interpolator_loop E o_start o_end step start_pct end_pct t_start start conds rest
  = (r ← interpolator_spec E o_start o_end step start_pct end_pct
          (zip ((t_start, start) :: rest) rest);
     Ok (conds ++ r)%list).
Proof.
  revert t_start start conds.
  induction rest as [|[t_end end_] rest IH]; intros t_start start conds.
  - simpl. now rewrite app_nil_r.
  - change (zip ((t_start, start) :: (t_end, end_) :: rest) ((t_end, end_) :: rest))
      with (((t_start, start), (t_end, end_)) :: zip ((t_end, end_) :: rest) rest).
    cbn [interpolator_loop interpolator_spec].
    destruct (Qltb t_start start_pct); [apply IH|].
    destruct (Qleb end_pct t_start); [simpl; now rewrite app_nil_r|].
    destruct (linear_interpolate_cond E start end_ o_start o_end step
                (Some t_start) (Some end_pct) "N/A") as [cs|e];
      cbn [mbind result_bind]; [|reflexivity].
    destruct cs as [|c cs]; [simpl; now rewrite app_nil_r|].
    rewrite IH.
    destruct (interpolator_spec E o_start o_end step start_pct end_pct
                (zip ((t_end, end_) :: rest) rest)) as [more|e];
      cbn [mbind result_bind]; [|reflexivity].
    now rewrite app_assoc.
Qed.

(** C9: [linear_interpolator] is the walk over the consecutive pairs of
    control points that [interpolator_spec] words: a pair that starts before
    [start_pct] is skipped, the walk stops before a pair that starts at or
    after [end_pct], the segments of the other pairs are concatenated, and
    the first of them that yields no segment ends the walk, so that the
    later pairs contribute nothing.  (Without control points, indexing the
    first one raises.) *)
Theorem linear_interpolator_walks_pairs (E : Externals)
    (control_points : list (Q * list Cond)) (step start_pct end_pct : Q) :
  linear_interpolator E control_points step start_pct end_pct =
  match control_points, last control_points with
  | (o_start, _) :: _, Some (o_end, _) =>
      interpolator_spec E o_start o_end step start_pct end_pct
        (consecutive_pairs control_points)
  | _, _ => Raise IndexError
  end.
Proof.
  unfold linear_interpolator, consecutive_pairs.
  destruct control_points as [|[o_start start] rest]; [reflexivity|].
  destruct (last ((o_start, start) :: rest)) as [[o_end ?]|]; [|reflexivity].
  rewrite interpolator_loop_spec. cbn [tail].
  destruct (interpolator_spec _ _ _ _ _ _ _); reflexivity.
Qed.

(* ===================================================================== *)
(** ** Units of the spatial directives *)
(* ===================================================================== *)

Lemma forallb_area_order (f : Q -> bool) (a b c d : Q) :
  forallb f [d; b; c; a] = forallb f [a; b; c; d].
Proof. simpl. destruct (f a), (f b), (f c), (f d); reflexivity. Qed.

Lemma torch_full3_ok (h w : Z) (v : Q) :
  0 <= h -> 0 <= w -> exists m, torch_full3 1 h w v = Ok m.
Proof.
  intros Hh Hw. unfold torch_full3.
  replace (h <? 0)%Z with false by (symmetry; apply Z.ltb_ge; lia).
  replace (w <? 0)%Z with false by (symmetry; apply Z.ltb_ge; lia).
  eexists. reflexivity.
Qed.

Lemma torch_full3_no_format (d0 d1 d2 : Z) (v : Q) (dir : string) (vs : list Q) :
  torch_full3 d0 d1 d2 v <> Raise (FormatError dir vs).
Proof.
  unfold torch_full3.
  destruct ((d0 <? 0)%Z || (d1 <? 0)%Z || (d2 <? 0)%Z); discriminate.
Qed.

Lemma area_of_values_cases (a b c d : Q) :
  area_of_values a b c d =
  if forallb is_pct [a; b; c; d] then Ok (AreaPercentage d b c a)
  else if forallb is_pixel [a; b; c; d] then
    Ok (AreaPixels (py_int d / 8) (py_int b / 8) (py_int c / 8) (py_int a / 8))
  else Raise (FormatError "AREA" [a; b; d; c]).
Proof.
  unfold area_of_values.
  now rewrite (forallb_area_order is_pct a b c d),
              (forallb_area_order is_pixel a b c d).
Qed.

(** C3 (as amended): four range values that are neither all percentages in
    [[0, 1]] nor all pixel magnitudes make AREA and MASK raise a format
    error, which [do_encode] passes on, as for [AREA(0.2 0.8, 64 256, 1)];
    values that are all percentages give a percentage area; values that are
    all pixel magnitudes and not all percentages give an area in units of
    eight pixels (floor division); and a MASK whose values are all of one
    kind raises no format error, and returns a mask on a canvas whose sides
    are not negative. *)
Theorem spatial_units (a b c d : Q) (size : Z * Z) :
  (forallb is_pct [a; b; c; d] = false ->
   forallb is_pixel [a; b; c; d] = false ->
   area_of_values a b c d = Raise (FormatError "AREA" [a; b; d; c])
   /\ mask_of_values a b c d size = Raise (FormatError "MASK" [a; b; c; d]))
  /\ (forallb is_pct [a; b; c; d] = true ->
      area_of_values a b c d = Ok (AreaPercentage d b c a))
  /\ (forallb is_pct [a; b; c; d] = false ->
      forallb is_pixel [a; b; c; d] = true ->
      area_of_values a b c d
      = Ok (AreaPixels (py_int d / 8) (py_int b / 8) (py_int c / 8) (py_int a / 8)))
  /\ (forallb is_pct [a; b; c; d] = true \/ forallb is_pixel [a; b; c; d] = true ->
      (forall dir vs, mask_of_values a b c d size <> Raise (FormatError dir vs))
      /\ (0 <= fst size -> 0 <= snd size ->
          exists m, mask_of_values a b c d size = Ok m))
  /\ get_area "AREA(0.2 0.8, 64 256, 1)"
     = Raise (FormatError "AREA" [0.2; 0.8; 256; 64]%Q)
  /\ (forall (E : Externals) (clip : Clip E),
        do_encode E clip "AREA(0.2 0.8, 64 256, 1)"
        = Raise (FormatError "AREA" [0.2; 0.8; 256; 64]%Q)).
Proof.
  destruct size as [w h].
  rewrite area_of_values_cases. unfold mask_of_values.
  split; [|split; [|split; [|split; [|split]]]].
  - intros Hpct Hpix. now rewrite Hpct, Hpix.
  - intros Hpct. now rewrite Hpct.
  - intros Hpct Hpix. now rewrite Hpct, Hpix.
  - intros H. split.
    + intros dir vs.
      destruct (forallb is_pct [a; b; c; d]) eqn:Hpct;
        [|destruct (forallb is_pixel [a; b; c; d]) eqn:Hpix;
          [|destruct H as [H|H]; congruence]];
        cbn [mbind result_bind];
        (destruct (torch_full3 1 h w 0) eqn:Hfull; cbn [mbind result_bind];
         [discriminate | rewrite <- Hfull; apply torch_full3_no_format]).
    + cbn [fst snd]. intros Hw Hh.
      destruct (torch_full3_ok h w 0 Hh Hw) as [m Hm].
      destruct (forallb is_pct [a; b; c; d]) eqn:Hpct;
        [|destruct (forallb is_pixel [a; b; c; d]) eqn:Hpix;
          [|destruct H as [H|H]; congruence]];
        cbn [mbind result_bind]; rewrite Hm; cbn [mbind result_bind]; eauto.
  - vm_compute. reflexivity.
  - intros E clip. vm_compute. reflexivity.
Qed.

Lemma spatial_units_examples :
  area_of_values 0.2 0.8 64 256 = Raise (FormatError "AREA" [0.2; 0.8; 256; 64]%Q)
  /\ area_of_values 0 0.5 0 0.5 = Ok (AreaPercentage 0.5 0.5 0 0)
  /\ area_of_values 64 256 0 512 = Ok (AreaPixels 64 32 0 8)
  /\ exists m, mask_of_values 0 0.5 0 1 (4, 2) = Ok m.
Proof.
  split; [|split; [|split]].
  - apply (proj1 (spatial_units 0.2 0.8 64 256 (512, 512))); reflexivity.
  - apply (proj1 (proj2 (spatial_units 0 0.5 0 0.5 (512, 512)))); reflexivity.
  - apply (proj1 (proj2 (proj2 (spatial_units 64 256 0 512 (512, 512)))));
      reflexivity.
  - apply (proj1 (proj2 (proj2 (proj2 (spatial_units 0 0.5 0 1 (4, 2)))))).
    + left; reflexivity.
    + simpl; lia.
    + simpl; lia.
Defined.

(** C3, as stated, fails on four zeros: they are pixel magnitudes, and the
    area is kept as a percentage area instead of being divided by 8. *)
Lemma area_of_zeros_is_percentage :
  forallb is_pixel [0; 0; 0; 0]%Q = true
  /\ area_of_values 0 0 0 0 = Ok (AreaPercentage 0 0 0 0)
  /\ area_of_values 0 0 0 0
     <> Ok (AreaPixels (py_int 0 / 8) (py_int 0 / 8) (py_int 0 / 8) (py_int 0 / 8))
  /\ get_area "AREA(0 0, 0 0, 1)" = Ok ("", Some (AreaPercentage 0 0 0 0, 1%Q)).
Proof.
  split; [reflexivity|]. split; [reflexivity|]. split; [discriminate|].
  vm_compute. reflexivity.
Qed.

(* ===================================================================== *)
(** ** The mask and the resolution hint *)
(* ===================================================================== *)

(** C6 (the code departs from the claim): on a canvas of width 4 and
    height 2, [MASK(0 1, 0.5 1)] asks for the
    lower row; the slice assignment addresses the batch axis with the row
    range and writes nothing.  [MASK(0 0.5, 0 1)] asks for the left half and
    gets every entry. *)
Theorem get_mask_misses_rectangle :
  get_mask "MASK(0 1, 0.5 1)" (4, 2)
  = Ok ("", Some [[[0; 0; 0; 0]; [0; 0; 0; 0]]]%Q, Some 1%Q)
  /\ rectangle_mask 4 2 0 1 0.5 1 = [[[0; 0; 0; 0]; [1; 1; 1; 1]]]%Q
  /\ get_mask "MASK(0 0.5, 0 1)" (4, 2)
     = Ok ("", Some [[[1; 1; 1; 1]; [1; 1; 1; 1]]]%Q, Some 1%Q)
  /\ rectangle_mask 4 2 0 0.5 0 1 = [[[1; 1; 0; 0]; [1; 1; 0; 0]]]%Q.
Proof. repeat split; vm_compute; reflexivity. Qed.

Lemma get_sdxl_target_height (text t : string) (o : SdxlOpts) :
  get_sdxl text = (t, Some o) -> target_height o = target_width o.
Proof.
  unfold get_sdxl.
  destruct (get_function text "SDXL" _) as [t' [|args rest]]; [discriminate|].
  destruct (parse_floats (arg 0 args) _), (parse_floats (arg 1 args) _),
           (parse_floats (arg 2 args) _).
  intros H. injection H as _ <-. reflexivity.
Qed.

(** C7 (the code departs from the claim): the target height of [SDXL(1024 1024, 640 480, 0 0)] is the target
    width 640, not 480; and an omitted crop pair falls back to the third
    default, [1024 1024]. *)
Theorem get_sdxl_height_from_width :
  get_sdxl "SDXL(1024 1024, 640 480, 0 0)"
  = ("", Some {| width := 1024; height := 1024;
                 target_width := 640; target_height := 640;
                 crop_w := 0; crop_h := 0 |})
  /\ get_sdxl "SDXL(1024 1024, 640 480)"
     = ("", Some {| width := 1024; height := 1024;
                    target_width := 640; target_height := 640;
                    crop_w := 1024; crop_h := 1024 |})
  /\ get_sdxl "a plain prompt" = ("a plain prompt", None).
Proof. repeat split; vm_compute; reflexivity. Qed.

(* ===================================================================== *)
(** ** The weighted sum of sub-prompts *)
(* ===================================================================== *)

Lemma encode_term_plain (E : Externals) (clip : Clip E)
    (style normalization : string) (mask_size : Z * Z) (p : string)
    (sdxl_opts : option SdxlOpts) (scale : Q) (l : EncodeLocals)
    (prompt prompt1 t t2 text' p' : string) (w : Q) (noscale : bool) :
  get_mask prompt mask_size = Ok (prompt1, None, None) ->
  weight prompt1 = (w, noscale, t) ->
  get_noise (el_text l) = (text', None, None) ->
  Qeqb w 0 = false ->
  get_area t = Ok (t2, None) ->
  get_sdxl p = (p', None) ->
  encode_term E clip style normalization mask_size false p sdxl_opts scale l prompt
  = (c ← py_div w (if noscale then 1%Q else scale);
     Ok {| el_text := text'; el_conds := el_conds l;
           el_res := el_res l ++
             [(fst (encode_prompt E clip p' style normalization),
               snd (encode_prompt E clip p' style normalization), c)] |}).
Proof.
  intros Hmask Hweight Hnoise Hw Harea Hsdxl. unfold encode_term.
  rewrite Hmask. cbn [mbind result_bind]. rewrite Hweight, Hnoise, Hw, Harea.
  cbn [mbind result_bind]. rewrite Hsdxl.
  destruct (encode_prompt E clip p' style normalization) as [cond pooled].
  unfold apply_noise_tensor, apply_noise_pooled. cbn [noisy fst snd].
  destruct pooled; cbn [is_Some_b orb]; reflexivity.
Qed.

Lemma do_encode_pair (E : Externals) (clip : Clip E) :
  do_encode E clip "a:2 AND b:1" =
  match summed_segment None
          [(fst (encode_prompt E clip "a:2" "comfy" "none"),
            snd (encode_prompt E clip "a:2" "comfy" "none"), (2 / 3)%Q);
           (fst (encode_prompt E clip "a:2" "comfy" "none"),
            snd (encode_prompt E clip "a:2" "comfy" "none"), (1 / 3)%Q)] with
  | Some n => Ok [n]
  | None => Ok []
  end.
Proof.
  unfold do_encode.
  change (get_style E "a:2 AND b:1" "comfy" "none")
    with ("comfy", "none", "a:2 AND b:1").
  cbv beta iota.
  change (get_mask_size "a:2 AND b:1") with (Ok ("a:2 AND b:1", (512, 512))).
  cbn [mbind result_bind].
  change (contains "COMFYAND()" "a:2 AND b:1") with false.
  change (remove_all "COMFYAND()" "a:2 AND b:1") with "a:2 AND b:1".
  change (map strip (split_keyword "AND" "a:2 AND b:1")) with ["a:2"; "b:1"].
  cbn [hd tl].
  change (get_sdxl "a:2") with ("a:2", @None SdxlOpts).
  cbv beta iota zeta.
  change (shared_scale ["a:2"; "b:1"]) with 3%Q.
  cbn [for_each].
  rewrite (encode_term_plain E clip "comfy" "none" (512, 512) "a:2" None 3
             _ "a:2" "a:2" "a" "a" "a:2 AND b:1" "a:2" 2 false);
    [|vm_compute; reflexivity..].
  change (py_div 2 3) with (Ok (2 / 3)%Q).
  cbn [mbind result_bind el_res el_conds el_text app].
  rewrite (encode_term_plain E clip "comfy" "none" (512, 512) "a:2" None 3
             _ "b:1" "b:1" "b" "b" "a:2 AND b:1" "a:2" 1 false);
    [|vm_compute; reflexivity..].
  change (py_div 1 3) with (Ok (1 / 3)%Q).
  cbn [mbind result_bind el_res el_conds el_text app].
  destruct (summed_segment _ _); reflexivity.
Qed.

Lemma equalize_pair_same_length {A} (a b : list A) :
  length a = length b -> equalize [a; b] = [a; b].
Proof.
  intros H. unfold equalize. cbn [map foldr].
  rewrite Nat.max_0_r, <- H, Nat.max_id. cbn [map].
  rewrite pad_to_length. rewrite H at 1. now rewrite pad_to_length.
Qed.

Lemma thirds_Q (a : Q) : teq (tadd (radd 0%Q (tmul a (2 / 3)%Q)) (tmul a (1 / 3)%Q)) a.
Proof. simpl. field. Qed.

Lemma thirds_list {A} `{TensorOps A} (t : list A) :
  (forall a : A, teq (tadd (radd 0%Q (tmul a (2 / 3)%Q)) (tmul a (1 / 3)%Q)) a) ->
  teq (tadd (radd 0%Q (tmul t (2 / 3)%Q)) (tmul t (1 / 3)%Q)) t.
Proof.
  intros Hrec. simpl. induction t as [|a t IH]; simpl; constructor; auto.
Qed.

Lemma thirds_tensor (t : Tensor) :
  teq (tadd (radd 0%Q (tmul t (2 / 3)%Q)) (tmul t (1 / 3)%Q)) t.
Proof. apply thirds_list. intros r. apply thirds_list. apply thirds_Q. Qed.

Lemma summed_thirds (o : option SdxlOpts) (t : Tensor) (p : option Pooled) :
  exists n, summed_segment o [(t, p, (2 / 3)%Q); (t, p, (1 / 3)%Q)] = Some n
            /\ teq (fst n) t.
Proof.
  assert (Heq : equalize [tmul t (2 / 3)%Q; tmul t (1 / 3)%Q]
                = [tmul t (2 / 3)%Q; tmul t (1 / 3)%Q]).
  { apply equalize_pair_same_length. simpl. now rewrite !length_map. }
  unfold summed_segment. cbn [map fst snd].
  unfold Tensor in *. rewrite Heq.
  cbn [py_sum fold_left]. eexists. split; [reflexivity|].
  cbn [fst]. apply thirds_tensor.
Qed.

(** For every encoder the summed tensor of ["a:2 AND b:1"] is the encoding
    of the text ["a:2"]. *)
Lemma do_encode_pair_any_encoder (E : Externals) (clip : Clip E) :
  exists n,
    do_encode E clip "a:2 AND b:1" = Ok [n]
    /\ teq (fst n) (fst (encode_prompt E clip "a:2" "comfy" "none")).
Proof.
  rewrite do_encode_pair.
  destruct (summed_thirds None (fst (encode_prompt E clip "a:2" "comfy" "none"))
              (snd (encode_prompt E clip "a:2" "comfy" "none")))
    as (n & Hn & Hteq).
  rewrite Hn. eauto.
Qed.

(** C2 (the code departs from the claim): for ["a:2 AND b:1"] the shared
    scale is 3 and [do_encode] returns one summed segment, but for every
    encoder its tensor is the encoding of the text ["a:2"]: both terms
    encode the first sub-prompt, weight suffix included, and their shares
    2/3 and 1/3 add up to one.  With the encoder of the examples this is not
    the weighted mean of the encodings of ["a"] and ["b"]. *)
Theorem do_encode_sums_first_prompt :
  shared_scale ["a:2"; "b:1"] = 3%Q
  /\ (forall (E : Externals) (clip : Clip E),
        exists n,
          do_encode E clip "a:2 AND b:1" = Ok [n]
          /\ teq (fst n) (fst (encode_prompt E clip "a:2" "comfy" "none")))
  /\ exists n,
       do_encode demo tt "a:2 AND b:1" = Ok [n]
       /\ teq (fst n) (fst (demo_encode "a:2"))
       /\ ~ teq (fst n)
            (weighted_mean2 (fst (demo_encode "a")) (fst (demo_encode "b")) 2 1).
Proof.
  split; [reflexivity|]. split; [apply do_encode_pair_any_encoder|].
  eexists. split; [vm_compute; reflexivity|].
  split; [repeat constructor|].
  intros H. inversion H as [|? ? ? ? Hrow _]; subst.
  inversion Hrow as [|? ? ? ? Hq _]; subst. vm_compute in Hq. discriminate Hq.
Qed.

(* ===================================================================== *)
(** ** The conditioning cache *)
(* ===================================================================== *)

Section CacheInvariant.
Context (E : Externals) (cache0 : gmap string (list Cond)).

Lemma cache_good_weak st : cache_good E cache0 st -> cache_weak E cache0 st.
Proof. intros (H1 & _ & H3 & _). split; assumption. Qed.

Lemma keeps_ret {A} (a : A) : keeps E cache0 (enc_ret E a).
Proof. intros st H. split; [now apply cache_good_weak | intros _; exact H]. Qed.

Lemma keeps_lift {A} (r : result A) : keeps E cache0 (enc_lift E r).
Proof. intros st H. split; [now apply cache_good_weak | intros _; exact H]. Qed.

Lemma keeps_bind {A B} (m : Enc E A) (k : A -> Enc E B) :
  keeps E cache0 m -> (forall a, keeps E cache0 (k a)) -> keeps E cache0 (enc_bind E m k).
Proof.
  intros Hm Hk st H. unfold enc_bind. specialize (Hm st H).
  destruct (m st) as [[a|e] st']; cbn [fst snd is_ok] in *.
  - apply Hk. now apply Hm.
  - split; [apply Hm | discriminate].
Qed.

Lemma keeps_for_each {S A} (body : S -> A -> Enc E S) (l : list A) (s : S) :
  (forall s a, keeps E cache0 (body s a)) -> keeps E cache0 (enc_for_each E body l s).
Proof.
  intros Hbody. revert s. induction l as [|a l IH]; intros s; cbn [enc_for_each].
  - apply keeps_ret.
  - apply keeps_bind; [apply Hbody | exact IH].
Qed.

Lemma keeps_map {A B} (f : A -> Enc E B) (l : list A) :
  (forall a, keeps E cache0 (f a)) -> keeps E cache0 (enc_map E f l).
Proof.
  intros Hf. induction l as [|a l IH]; cbn [enc_map].
  - apply keeps_ret.
  - apply keeps_bind; [apply Hf|]. intros b.
    apply keeps_bind; [exact IH|]. intros bs. apply keeps_ret.
Qed.

Lemma keeps_encode (orig : Clip E) (loaded : list (string * LoraWeights E))
    (c : SegmentConfig) : keeps E cache0 (encode E orig loaded c).
Proof.
  intros st (Hnd & Hin & Hnew & Hmono). unfold encode.
  destruct (es_cache E st !! c_str E c) as [cond|] eqn:Hlook.
  - cbn [fst snd]. split; [split; assumption|]. intros _. repeat split; assumption.
  - assert (Hfresh : ~ In (c_str E c) (map (c_str E) (es_encoded E st))).
    { intros Hk. apply in_map_iff in Hk. destruct Hk as (c' & Hkey & Hc').
      destruct (Hin c' Hc') as [v Hv]. rewrite Hkey, Hlook in Hv. discriminate. }
    assert (Hnone : cache0 !! c_str E c = None).
    { destruct (cache0 !! c_str E c) as [v|] eqn:H0; [|reflexivity].
      destruct (Hmono (c_str E c)) as [v' Hv']; [eauto|].
      rewrite Hlook in Hv'. discriminate. }
    assert (Hnd' : NoDup (map (c_str E) (es_encoded E st ++ [c]))).
    { rewrite map_app. apply NoDup_app. split; [exact Hnd|]. split.
      - intros k Hk Hk'. apply list_elem_of_In in Hk.
        apply list_elem_of_In in Hk'. destruct Hk' as [<-|[]]. contradiction.
      - apply NoDup_singleton. }
    assert (Hnew' : forall c', In c' (es_encoded E st ++ [c]) ->
                               cache0 !! c_str E c' = None).
    { intros c' Hc'. apply in_app_or in Hc'. destruct Hc' as [Hc'|[<-|[]]]; auto. }
    assert (Hin' : forall cond c',
              In c' (es_encoded E st ++ [c]) ->
              is_Some (<[c_str E c := cond]> (es_cache E st) !! c_str E c')).
    { intros cond c' Hc'. apply in_app_or in Hc'.
      destruct (decide (c_str E c = c_str E c')) as [Heq|Hne].
      - rewrite <- Heq, lookup_insert_eq. eauto.
      - rewrite lookup_insert_ne by exact Hne.
        destruct Hc' as [Hc'|[<-|[]]]; [now apply Hin|congruence]. }
    assert (Hmono' : forall cond k,
              is_Some (cache0 !! k) ->
              is_Some (<[c_str E c := cond]> (es_cache E st) !! k)).
    { intros cond k Hk. destruct (decide (c_str E c = k)) as [<-|Hne].
      - rewrite lookup_insert_eq. eauto.
      - rewrite lookup_insert_ne by exact Hne. now apply Hmono. }
    unfold cache_good, cache_weak.
    destruct (dict_eqb (sc_loras c) (es_current_loras E st));
      destruct (do_encode E _ (sc_prompt c)) as [cond|e];
      cbn [fst snd is_ok es_encoded es_cache];
      (split; [split; assumption|]); try discriminate; intros _;
      (split; [exact Hnd'|]; split; [apply Hin'|split; [exact Hnew'|apply Hmono']]).
Qed.

Lemma keeps_get_control_points (es : list (Q * SegmentConfig)) (steps : list Q)
    (encoder : SegmentConfig -> Enc E (list Cond)) :
  (forall c, keeps E cache0 (encoder c)) -> keeps E cache0 (get_control_points E es steps encoder).
Proof.
  intros Henc. unfold get_control_points.
  destruct steps as [|first [|second steps]]; try apply keeps_lift.
  destruct (last _); [|apply keeps_lift].
  apply keeps_bind.
  - apply keeps_map. intros s. apply keeps_bind; [apply keeps_lift|].
    intros e. apply keeps_bind; [apply Henc|]. intros conds. apply keeps_ret.
  - intros cps. apply keeps_ret.
Qed.

Lemma keeps_interpolate_spec (es : list (Q * SegmentConfig))
    (encoder : SegmentConfig -> Enc E (list Cond))
    (min_step start_pct end_pct : Q) (l : RunLocals) (i : list Q * Q) :
  (forall c, keeps E cache0 (encoder c)) ->
  keeps E cache0 (interpolate_spec E es encoder min_step start_pct end_pct l i).
Proof.
  intros Henc. unfold interpolate_spec.
  destruct (fst i) as [|first rest]; [apply keeps_lift|].
  destruct (last _); [|apply keeps_lift].
  apply keeps_bind; [now apply keeps_get_control_points|]. intros cps.
  apply keeps_bind; [apply keeps_lift|]. intros cs. apply keeps_ret.
Qed.

Lemma keeps_schedule_step (sched : Schedule (LoraWeights E))
    (encoder : SegmentConfig -> Enc E (list Cond)) (l : RunLocals)
    (entry : Q * SegmentConfig) :
  (forall c, keeps E cache0 (encoder c)) -> keeps E cache0 (schedule_step E sched encoder l entry).
Proof.
  intros Henc. unfold schedule_step. destruct entry as [end_pct c].
  apply keeps_bind; [apply keeps_lift|]. intros selected.
  apply keeps_bind.
  - destruct selected; [apply keeps_ret|].
    apply keeps_for_each. intros s a. now apply keeps_interpolate_spec.
  - intros l1. apply keeps_bind.
    + destruct (Qltb _ _); [|apply keeps_ret].
      apply keeps_bind; [apply Henc|]. intros cond. apply keeps_ret.
    + intros conds. apply keeps_ret.
Qed.

End CacheInvariant.

Lemma NoDup_map_factor {A B C} (f : A -> B) (g : B -> C) (l : list A) :
  NoDup (map (fun a => g (f a)) l) -> NoDup (map f l).
Proof.
  induction l as [|a l IH]; cbn [map]; intros H; [constructor|].
  apply NoDup_cons in H. destruct H as [Hnotin Hnd].
  apply NoDup_cons. split; [|now apply IH].
  intros Hin. apply Hnotin. apply list_elem_of_In in Hin.
  apply list_elem_of_In. apply in_map_iff in Hin. destruct Hin as (a' & Heq & Ha').
  apply in_map_iff. exists a'. split; [now rewrite Heq | exact Ha'].
Qed.

Lemma c_str_of_identity (E : Externals) (c : SegmentConfig) :
  c_str E c =
  String.concat ""
    (fst (segment_identity c) ::
     flat_map (fun kw => [fst kw; str_float E (snd kw)]) (snd (segment_identity c))).
Proof. reflexivity. Qed.

(** C5: the cache key of a segment depends only on its prompt text and its
    sorted [(lora_name, weight_clip)] pairs; a segment whose key is in the
    cache gets the cached list back and nothing else happens (the encoder
    is not invoked, the state is unchanged); a segment that has been encoded
    is in the cache under its key; and in every run, whatever it returns,
    the segments for which [do_encode] was invoked have distinct
    [(prompt, lora-state)] pairs and distinct keys, none of which was in the
    cache supplied by the caller. *)
Theorem encode_once_per_segment (E : Externals) :
  (forall c1 c2 : SegmentConfig,
     sc_prompt c1 = sc_prompt c2 -> lora_state c1 = lora_state c2 ->
     c_str E c1 = c_str E c2)
  /\ (forall orig loaded c st conds,
        es_cache E st !! c_str E c = Some conds ->
        encode E orig loaded c st = (Ok conds, st))
  /\ (forall orig loaded c st conds st',
        encode E orig loaded c st = (Ok conds, st') ->
        es_cache E st' !! c_str E c = Some conds)
  /\ (forall clip sched cache,
        NoDup (map segment_identity
                 (es_encoded E (snd (control_to_clip_common E clip sched cache))))
        /\ NoDup (map (c_str E)
                 (es_encoded E (snd (control_to_clip_common E clip sched cache))))
        /\ forall c,
             In c (es_encoded E (snd (control_to_clip_common E clip sched cache))) ->
             cache !! c_str E c = None).
Proof.
  split; [|split; [|split]].
  - intros c1 c2 Hp Hl. unfold c_str. now rewrite Hp, Hl.
  - intros orig loaded c st conds H. unfold encode. now rewrite H.
  - intros orig loaded c st conds st' H. unfold encode in H.
    destruct (es_cache E st !! c_str E c) as [cond|] eqn:Hlook.
    + injection H as <- <-. exact Hlook.
    + destruct (dict_eqb _ _); destruct (do_encode E _ _); try discriminate;
        injection H as <- <-; cbn [es_cache]; apply lookup_insert_eq.
  - intros clip sched cache.
    assert (Hweak : cache_weak E cache
                      (snd (control_to_clip_common E clip sched cache))).
    { unfold control_to_clip_common.
      pose proof (keeps_for_each E cache
                    (schedule_step E sched
                       (encode E (clip_clone E clip) (loaded_loras sched)))
                    (entries sched) {| rl_start_pct := 0%Q; rl_conds := [] |}
                    (fun s a => keeps_schedule_step E cache sched _ s a
                                  (keeps_encode E cache _ _))
                    (initial_state E clip cache)) as Hk.
      destruct (enc_for_each _ _ _ _ _) as [[l|e] st]; cbn [fst snd] in *;
        apply Hk; (split; [constructor|]); (split; [intros c []|]);
        (split; [intros c []|]); intros k Hk'; exact Hk'. }
    destruct Hweak as [Hnd Hnew]. split; [|split; assumption].
    apply (NoDup_map_factor segment_identity
             (fun i => String.concat ""
                (fst i :: flat_map (fun kw => [fst kw; str_float E (snd kw)]) (snd i)))).
    exact Hnd.
Qed.

(* ===================================================================== *)
(** ** Rounding *)
(* ===================================================================== *)

Lemma round_half_even_comp (x y : Q) :
  (x == y)%Q -> round_half_even x = round_half_even y.
Proof.
  intros H. unfold round_half_even.
  rewrite (Qfloor_comp x y H).
  assert (Hc : Qcompare (x - inject_Z (Qfloor y))%Q (1 # 2)
               = Qcompare (y - inject_Z (Qfloor y))%Q (1 # 2))
    by (apply Qcompare_comp; [now rewrite H | reflexivity]).
  now rewrite Hc.
Qed.

Lemma round_half_even_bounds (x : Q) :
  Qfloor x <= round_half_even x <= Qfloor x + 1.
Proof.
  unfold round_half_even.
  destruct (Qcompare _ _); [destruct (Z.even _)| |]; lia.
Qed.

Lemma round_half_even_mono (x y : Q) :
  (x <= y)%Q -> round_half_even x <= round_half_even y.
Proof.
  intros Hxy. pose proof (Qfloor_resp_le x y Hxy) as Hf.
  destruct (Z.eq_dec (Qfloor x) (Qfloor y)) as [Heq|Hne].
  - unfold round_half_even. rewrite Heq.
    assert (Hd : (x - inject_Z (Qfloor y) <= y - inject_Z (Qfloor y))%Q).
    { unfold Qminus. apply Qplus_le_l. exact Hxy. }
    destruct (Qcompare_spec (x - inject_Z (Qfloor y))%Q (1 # 2)) as [Hx|Hx|Hx];
      destruct (Qcompare_spec (y - inject_Z (Qfloor y))%Q (1 # 2)) as [Hy|Hy|Hy];
      try (destruct (Z.even (Qfloor y))); try lia;
      exfalso.
    all: try (rewrite Hx in Hd; apply (Qlt_irrefl (1 # 2));
              eapply Qle_lt_trans; eassumption).
    all: try (rewrite Hy in Hd; apply (Qlt_irrefl (1 # 2));
              eapply Qlt_le_trans; eassumption).
    all: apply (Qlt_irrefl (1 # 2));
         eapply Qlt_trans; [exact Hx|]; eapply Qle_lt_trans; eassumption.
  - pose proof (round_half_even_bounds x). pose proof (round_half_even_bounds y).
    lia.
Qed.

Lemma py_round_comp (x y : Q) (n : nat) :
  (x == y)%Q -> py_round x n = py_round y n.
Proof.
  intros H. unfold py_round. f_equal. apply round_half_even_comp. now rewrite H.
Qed.

Lemma py_round_mono (x y : Q) (n : nat) :
  (x <= y)%Q -> (py_round x n <= py_round y n)%Q.
Proof.
  intros H. unfold py_round, Qle. cbn [Qnum Qden].
  apply Z.mul_le_mono_nonneg_r; [lia|].
  apply round_half_even_mono. apply Qmult_le_compat_r; [exact H|].
  unfold Qle. simpl. lia.
Qed.

(* ===================================================================== *)
(** ** Schedules without interpolation *)
(* ===================================================================== *)

Lemma ranges_of_stamped (a b : Q) (c : SegmentConfig) (cond : list Cond) :
  map range_of (map (stamp a b c) cond)
  = map Some (repeat (py_round a 2, py_round b 2) (length cond)).
Proof. induction cond as [|n cond IH]; simpl; [reflexivity|]. now rewrite IH. Qed.

Section PlainSchedule.
Context (E : Externals) (sched : Schedule (LoraWeights E)).
Context (orig : Clip E).
Hypothesis Hplain : interpolations sched = [].

Lemma schedule_step_plain (l : RunLocals) (end_pct : Q) (c : SegmentConfig)
    (st : EncoderState E) :
  schedule_step E sched (encode E orig (loaded_loras sched)) l (end_pct, c) st =
  if Qltb (rl_start_pct l) end_pct then
    match encode E orig (loaded_loras sched) c st with
    | (Ok cond, st') =>
        (Ok {| rl_start_pct := end_pct;
               rl_conds := rl_conds l
                           ++ map (stamp (rl_start_pct l) end_pct c) cond |}, st')
    | (Raise e, st') => (Raise e, st')
    end
  else (Ok {| rl_start_pct := end_pct; rl_conds := rl_conds l |}, st).
Proof.
  unfold schedule_step. rewrite Hplain.
  unfold enc_bind, enc_lift, enc_ret.
  cbn [filter_result rl_start_pct rl_conds].
  destruct (Qltb (rl_start_pct l) end_pct); [|reflexivity].
  destruct (encode E orig (loaded_loras sched) c st) as [[cond|e] st'];
    reflexivity.
Qed.

Lemma encode_inhabited (c : SegmentConfig) (st : EncoderState E) :
  cache_inhabited E st -> encodes_something E c ->
  exists n ns st',
    encode E orig (loaded_loras sched) c st = (Ok (n :: ns), st')
    /\ cache_inhabited E st'.
Proof.
  intros Hst Hc. unfold encode.
  destruct (es_cache E st !! c_str E c) as [cond|] eqn:Hlook.
  - destruct cond as [|n ns]; [now apply Hst in Hlook|]. eauto.
  - destruct (dict_eqb _ _);
      match goal with |- context [do_encode E ?cl _] =>
        destruct (Hc cl) as (n & ns & ->) end;
      exists n, ns; eexists; (split; [reflexivity|]);
      intros k v; cbn [es_cache];
      (destruct (decide (c_str E c = k)) as [<-|Hne];
       [rewrite lookup_insert_eq; intros [= <-]; discriminate
       |rewrite lookup_insert_ne by exact Hne; apply Hst]).
Qed.

Lemma plain_run (es : list (Q * SegmentConfig)) (p : Q) (l : RunLocals)
    (st : EncoderState E) :
  rl_start_pct l = p -> increasing_from p es -> cache_inhabited E st ->
  Forall (fun e => encodes_something E (snd e)) es ->
  exists l' st' ks,
    enc_for_each E (schedule_step E sched (encode E orig (loaded_loras sched)))
      es l st = (Ok l', st')
    /\ length ks = length es /\ Forall (fun k => (0 < k)%nat) ks
    /\ map range_of (rl_conds l')
       = (map range_of (rl_conds l)
          ++ map Some (stamped_ranges p (map fst es) ks))%list.
Proof.
  revert p l st. induction es as [|[end_pct c] es IH]; intros p l st Hp Hinc Hst Hall.
  - exists l, st, []. cbn. rewrite app_nil_r. repeat split; constructor.
  - destruct Hinc as [Hlt Hinc]. cbn [fst] in Hlt, Hinc.
    apply Forall_cons in Hall. destruct Hall as [Hc Hall]. cbn [snd] in Hc.
    destruct (encode_inhabited c st Hst Hc) as (n & ns & st1 & Henc & Hst1).
    cbn [enc_for_each]. unfold enc_bind at 1. rewrite schedule_step_plain.
    rewrite Hp. replace (Qltb p end_pct) with true
      by (symmetry; now apply Z.ltb_lt).
    rewrite Henc.
    match goal with |- context [enc_for_each E _ es ?l1 st1] =>
      destruct (IH end_pct l1 st1 eq_refl Hinc Hst1 Hall)
        as (l' & st' & ks & Hrun & Hlen & Hks & Hranges)
    end.
    exists l', st', (S (length ns) :: ks). split; [exact Hrun|].
    split; [cbn; now rewrite Hlen|]. split; [constructor; [lia|exact Hks]|].
    rewrite Hranges. cbn [rl_conds].
    change (map fst ((end_pct, c) :: es)) with (end_pct :: map fst es).
    cbn [stamped_ranges].
    rewrite (map_app range_of), ranges_of_stamped, <- app_assoc.
    rewrite (map_app Some). reflexivity.
Qed.

End PlainSchedule.

Lemma chained_repeat (r : Q * Q) (k : nat) (rest : list (Q * Q)) :
  (fst r <= snd r)%Q -> chained r rest -> chained r (repeat r k ++ rest).
Proof.
  intros Hle Hrest. induction k as [|k IH]; [exact Hrest|].
  cbn [repeat app chained]. split; [left; split; reflexivity|]. split; assumption.
Qed.

Lemma chained_stamped (qs : list Q) (ks : list nat) (p : Q) (prev : Q * Q) :
  (snd prev == py_round p 2)%Q ->
  increasing_from p (map (fun q => (q, {| sc_prompt := ""; sc_loras := [] |})) qs) ->
  Forall (fun k => (0 < k)%nat) ks ->
  chained prev (stamped_ranges p qs ks).
Proof.
  revert ks p prev. induction qs as [|q qs IH]; intros ks p prev Hprev Hinc Hks;
    [exact I|].
  destruct ks as [|k ks]; [exact I|].
  destruct Hinc as [Hlt Hinc]. cbn [fst] in Hlt, Hinc.
  apply Forall_cons in Hks. destruct Hks as [Hk Hks].
  destruct k as [|k]; [lia|]. cbn [stamped_ranges repeat app chained fst snd].
  assert (Hle : (py_round p 2 <= py_round q 2)%Q)
    by (apply py_round_mono; now apply Qlt_le_weak).
  split; [right; now symmetry|]. split; [exact Hle|].
  apply chained_repeat; [exact Hle|].
  apply IH; [reflexivity|exact Hinc|exact Hks].
Qed.

Lemma increasing_from_ends (p : Q) (es : list (Q * SegmentConfig)) :
  increasing_from p es ->
  increasing_from p
    (map (fun q => (q, {| sc_prompt := ""; sc_loras := [] |})) (map fst es)).
Proof.
  revert p. induction es as [|e es IH]; intros p; [exact id|].
  intros [Hlt Hinc]. split; [exact Hlt|]. now apply IH.
Qed.

Lemma last_stamped (qs : list Q) (ks : list nat) (p q : Q) :
  length ks = length qs -> Forall (fun k => (0 < k)%nat) ks ->
  last qs = Some q ->
  exists z, last (stamped_ranges p qs ks) = Some z /\ snd z = py_round q 2.
Proof.
  revert ks p. induction qs as [|q0 qs IH]; intros ks p Hlen Hks Hlast;
    [discriminate|].
  destruct ks as [|k ks]; [discriminate|].
  apply Forall_cons in Hks. destruct Hks as [Hk Hks].
  injection Hlen as Hlen. cbn [stamped_ranges].
  destruct qs as [|q1 qs].
  - destruct ks; [|discriminate]. injection Hlast as <-.
    cbn [stamped_ranges]. rewrite app_nil_r.
    destruct k as [|k]; [lia|]. exists (py_round p 2, py_round q0 2).
    split; [|reflexivity].
    change (S k) with (1 + k)%nat. rewrite Nat.add_comm, repeat_app.
    apply last_snoc.
  - destruct (IH ks q0 Hlen Hks) as (z & Hz & Hsnd).
    { exact Hlast. }
    exists z. split; [|exact Hsnd]. rewrite last_app, Hz. reflexivity.
Qed.

Lemma last_map {A B} (f : A -> B) (l : list A) :
  last (map f l) = option_map f (last l).
Proof.
  induction l as [|a l IH]; [reflexivity|].
  destruct l as [|b l]; [reflexivity|]. exact IH.
Qed.

(** C1 (as amended): for a schedule that covers [[0, 1]] and has no
    interpolation, a supplied cache without empty lists, and entries that
    each encode to at least one segment, the orchestrator returns a list
    whose ranges [[start_percent, end_percent)] are in ascending order and
    partition [[0, 1]]: the first range starts at 0, each range repeats the
    one before it or starts where that one ends, and the last one ends at
    1. *)
Theorem schedule_ranges_partition (E : Externals) (clip : Clip E)
    (sched : Schedule (LoraWeights E)) (cache : gmap string (list Cond)) :
  interpolations sched = [] ->
  covers_unit (entries sched) ->
  (forall k v, cache !! k = Some v -> v <> []) ->
  (forall e clip', In e (entries sched) ->
     exists n ns, do_encode E clip' (sc_prompt (snd e)) = Ok (n :: ns)) ->
  exists conds st,
    control_to_clip_common E clip sched cache = (Ok conds, st)
    /\ partitions_unit conds.
Proof.
  intros Hplain [Hinc (elast & Hlast & Hone)] Hcache Henc.
  unfold control_to_clip_common.
  destruct (plain_run E sched (clip_clone E clip) Hplain (entries sched) 0
              {| rl_start_pct := 0%Q; rl_conds := [] |}
              (initial_state E clip cache) eq_refl Hinc)
    as (l' & st' & ks & Hrun & Hlen & Hks & Hranges).
  { exact Hcache. }
  { apply Forall_forall. intros e He clip'. apply Henc.
    now apply list_elem_of_In. }
  rewrite Hrun. exists (rl_conds l'), st'. split; [reflexivity|].
  cbn [rl_conds map app] in Hranges.
  destruct (entries sched) as [|[q0 c0] es] eqn:Hes; [discriminate|].
  destruct ks as [|k ks]; [discriminate|].
  assert (Hlq : last (map fst ((q0, c0) :: es)) = Some (fst elast))
    by (rewrite last_map, Hlast; reflexivity).
  rewrite <- length_map with (f := fst) in Hlen.
  destruct (last_stamped _ _ 0 _ Hlen Hks Hlq) as (z & Hz & Hsnd).
  pose proof (chained_stamped (map fst ((q0, c0) :: es)) (k :: ks) 0
                (0%Q, py_round 0 2) ltac:(reflexivity)
                (increasing_from_ends _ _ Hinc) Hks) as Hch.
  apply Forall_cons in Hks. destruct Hks as [Hk _].
  destruct k as [|k]; [lia|].
  cbn [map fst stamped_ranges repeat app] in Hranges, Hz, Hch.
  destruct Hch as (_ & Hle & Hch).
  eexists _, _, z. split; [exact Hranges|]. split; [reflexivity|].
  split; [exact Hle|]. split; [exact Hch|]. split; [exact Hz|].
  rewrite Hsnd, (py_round_comp _ 1 2 Hone). reflexivity.
Qed.

Lemma demo_encodes (text : string) (clip' : unit) :
  text = "a" \/ text = "b" ->
  exists n ns, do_encode demo clip' text = Ok (n :: ns).
Proof. destruct clip'. intros [-> | ->]; eexists; eexists; vm_compute; reflexivity. Qed.

Lemma schedule_ranges_partition_example :
  exists conds st,
    control_to_clip_common demo tt (demo_schedule [(0.5%Q, "a"); (1%Q, "b")]) ∅
    = (Ok conds, st)
    /\ partitions_unit conds.
Proof.
  apply (schedule_ranges_partition demo tt
           (demo_schedule [(0.5%Q, "a"); (1%Q, "b")]) ∅).
  - reflexivity.
  - split; [repeat split|]. eexists. split; [reflexivity|reflexivity].
  - intros k v H. rewrite lookup_empty in H. discriminate.
  - intros e clip' [<-|[<-|[]]]; apply demo_encodes; auto.
Defined.

(** C1, as stated, fails when an entry encodes to no segment: with the
    prompt ["a:0"] for the first half, the returned list covers only the
    second half. *)
Lemma schedule_with_zero_weight_leaves_gap :
  interpolations (demo_schedule [(0.5%Q, "a:0"); (1%Q, "b")]) = []
  /\ covers_unit (entries (demo_schedule [(0.5%Q, "a:0"); (1%Q, "b")]))
  /\ exists conds st,
       control_to_clip_common demo tt
         (demo_schedule [(0.5%Q, "a:0"); (1%Q, "b")]) ∅ = (Ok conds, st)
       /\ map range_of conds = [Some (0.50, 1.00)%Q]
       /\ ~ partitions_unit conds.
Proof.
  split; [reflexivity|]. split.
  { split; [repeat split|]. eexists. split; reflexivity. }
  eexists. eexists. split; [vm_compute; reflexivity|].
  split; [reflexivity|].
  intros (r & rs & z & Hmap & Hzero & _).
  cbn in Hmap. injection Hmap as Hr _. subst r. discriminate Hzero.
Qed.

(* ===================================================================== *)
(** ** Examples *)
(* ===================================================================== *)

Lemma linear_interpolate_cond_unbound_pooled_example :
  linear_interpolate_cond demo [([[1%Q]], empty_meta)] [([[3%Q]], empty_meta)]
    0 1 0.1 None None "N/A"
  = Raise (UnboundLocalError "new_pooled").
Proof.
  apply (linear_interpolate_cond_unbound_pooled demo
           ([[1%Q]], empty_meta) ([[3%Q]], empty_meta) [] [] 0 1 0.1 None None "N/A").
  - reflexivity.
  - reflexivity.
  - intros H. discriminate H.
  - vm_compute. discriminate.
  - vm_compute. reflexivity.
Defined.

Lemma interpolate_identical_is_identity_example :
  exists segs,
    linear_interpolate_cond demo [demo_segment "a"] [demo_segment "a"]
      0 1 0.1 None None "N/A" = Ok segs
    /\ Forall2 same_values segs (flat_map (fun a => repeat a 10) [demo_segment "a"]).
Proof.
  apply (interpolate_identical_is_identity demo [demo_segment "a"] "N/A").
  repeat constructor. eexists. reflexivity.
Defined.

Lemma linear_interpolate_deciles_example :
  (exists chunks,
     linear_interpolate_cond demo [demo_segment "a"] [demo_segment "b"]
       0 1 0.1 None None "N/A" = Ok (concat chunks)
     /\ Forall2 decile_chunk chunks [(demo_segment "a", demo_segment "b")])
  /\ (exists segs n,
        linear_interpolate_cond demo [demo_segment "a"] [demo_segment "b"]
          0 1 0.1 None (Some 0.125%Q) "N/A" = Ok segs
        /\ last segs = Some n
        /\ end_percent (snd n) = Some (py_round 0.125 2)).
Proof.
  split.
  - apply (proj1 (linear_interpolate_deciles demo)
             (demo_segment "a") (demo_segment "b") [] [] "N/A").
    eexists. reflexivity.
  - eexists. eexists. split; [vm_compute; reflexivity|]. split; [reflexivity|].
    apply (proj2 (linear_interpolate_deciles demo)
             [demo_segment "a"] [demo_segment "b"] 0%Q 1%Q 0.1%Q None
             (Some 0.125%Q) "N/A" _ _ ltac:(vm_compute; reflexivity)).
    reflexivity.
Defined.

(** C4, as stated, fails on [end_at = 0.125]: the one segment emitted ends
    at [0.12], the rounded value, not at [0.125]. *)
Lemma final_end_percent_is_rounded :
  exists segs n v,
    linear_interpolate_cond demo [demo_segment "a"] [demo_segment "b"]
      0 1 0.1 None (Some 0.125%Q) "N/A" = Ok segs
    /\ last segs = Some n
    /\ end_percent (snd n) = Some v
    /\ ~ (v == 0.125)%Q.
Proof.
  eexists. eexists. eexists. split; [vm_compute; reflexivity|].
  split; [reflexivity|]. split; [reflexivity|]. intros H. discriminate H.
Qed.


Lemma encode_once_per_segment_example :
  c_str demo {| sc_prompt := "a"; sc_loras := [("x", 1%Q); ("y", 0.5%Q)] |}
  = c_str demo {| sc_prompt := "a"; sc_loras := [("y", 0.5%Q); ("x", 1%Q)] |}
  /\ encode demo tt [] {| sc_prompt := "a"; sc_loras := [] |}
       (initial_state demo tt {["a" := [demo_segment "z"]]})
     = (Ok [demo_segment "z"],
        initial_state demo tt {["a" := [demo_segment "z"]]})
  /\ exists conds st',
       encode demo tt [] {| sc_prompt := "b"; sc_loras := [] |}
         (initial_state demo tt ∅) = (Ok conds, st')
       /\ es_cache demo st' !! "b" = Some conds.
Proof.
  destruct (encode_once_per_segment demo) as (Hkey & Hhit & Hstored & _).
  split; [|split].
  - apply Hkey; reflexivity.
  - apply Hhit. reflexivity.
  - eexists. eexists. split; [vm_compute; reflexivity|].
    apply (Hstored tt [] {| sc_prompt := "b"; sc_loras := [] |}
             (initial_state demo tt ∅)).
    vm_compute. reflexivity.
Defined.

(* ===================================================================== *)
(** ** Invariants of the shared state *)
(* ===================================================================== *)

Section Preserves.
Context (E : Externals) (P : EncoderState E -> Prop).

Lemma preserves_ret {A} (a : A) : enc_preserves E P (enc_ret E a).
Proof. intros st H. exact H. Qed.

Lemma preserves_lift {A} (r : result A) : enc_preserves E P (enc_lift E r).
Proof. intros st H. exact H. Qed.

Lemma preserves_bind {A B} (m : Enc E A) (k : A -> Enc E B) :
  enc_preserves E P m -> (forall a, enc_preserves E P (k a)) ->
  enc_preserves E P (enc_bind E m k).
Proof.
  intros Hm Hk st H. unfold enc_bind. specialize (Hm st H).
  destruct (m st) as [[a|e] st']; cbn [snd] in *; [now apply Hk | exact Hm].
Qed.

Lemma preserves_for_each {S A} (body : S -> A -> Enc E S) (l : list A) (s : S) :
  (forall s a, enc_preserves E P (body s a)) ->
  enc_preserves E P (enc_for_each E body l s).
Proof.
  intros Hbody. revert s. induction l as [|a l IH]; intros s; cbn [enc_for_each].
  - apply preserves_ret.
  - apply preserves_bind; [apply Hbody | exact IH].
Qed.

Lemma preserves_map {A B} (f : A -> Enc E B) (l : list A) :
  (forall a, enc_preserves E P (f a)) -> enc_preserves E P (enc_map E f l).
Proof.
  intros Hf. induction l as [|a l IH]; cbn [enc_map].
  - apply preserves_ret.
  - apply preserves_bind; [apply Hf|]. intros b.
    apply preserves_bind; [exact IH|]. intros bs. apply preserves_ret.
Qed.

Context (encoder : SegmentConfig -> Enc E (list Cond)).
Hypothesis Hencoder : forall c, enc_preserves E P (encoder c).

Lemma preserves_get_control_points (es : list (Q * SegmentConfig))
    (steps : list Q) : enc_preserves E P (get_control_points E es steps encoder).
Proof.
  unfold get_control_points.
  destruct steps as [|first [|second steps]]; try apply preserves_lift.
  destruct (last _); [|apply preserves_lift].
  apply preserves_bind.
  - apply preserves_map. intros s. apply preserves_bind; [apply preserves_lift|].
    intros e. apply preserves_bind; [apply Hencoder|]. intros conds.
    apply preserves_ret.
  - intros cps. apply preserves_ret.
Qed.

Lemma preserves_interpolate_spec (es : list (Q * SegmentConfig))
    (min_step start_pct end_pct : Q) (l : RunLocals) (i : list Q * Q) :
  enc_preserves E P (interpolate_spec E es encoder min_step start_pct end_pct l i).
Proof.
  unfold interpolate_spec.
  destruct (fst i) as [|first rest]; [apply preserves_lift|].
  destruct (last _); [|apply preserves_lift].
  apply preserves_bind; [apply preserves_get_control_points|]. intros cps.
  apply preserves_bind; [apply preserves_lift|]. intros cs. apply preserves_ret.
Qed.

Lemma preserves_schedule_step (sched : Schedule (LoraWeights E)) (l : RunLocals)
    (entry : Q * SegmentConfig) :
  enc_preserves E P (schedule_step E sched encoder l entry).
Proof.
  unfold schedule_step. destruct entry as [end_pct c].
  apply preserves_bind; [apply preserves_lift|]. intros selected.
  apply preserves_bind.
  - destruct selected; [apply preserves_ret|].
    apply preserves_for_each. intros s a. apply preserves_interpolate_spec.
  - intros l1. apply preserves_bind.
    + destruct (Qltb _ _); [|apply preserves_ret].
      apply preserves_bind; [apply Hencoder|]. intros cond. apply preserves_ret.
    + intros conds. apply preserves_ret.
Qed.

End Preserves.

(** What [encode] keeps, the whole run keeps. *)
Lemma run_preserves (E : Externals) (P : EncoderState E -> Prop)
    (clip : Clip E) (sched : Schedule (LoraWeights E))
    (cache : gmap string (list Cond)) :
  (forall c, enc_preserves E P
               (encode E (clip_clone E clip) (loaded_loras sched) c)) ->
  P (initial_state E clip cache) ->
  P (snd (control_to_clip_common E clip sched cache)).
Proof.
  intros Henc Hinit. unfold control_to_clip_common.
  pose proof (preserves_for_each E P
                (schedule_step E sched
                   (encode E (clip_clone E clip) (loaded_loras sched)))
                (entries sched) {| rl_start_pct := 0%Q; rl_conds := [] |}
                (fun s a => preserves_schedule_step E P _ Henc sched s a)
                _ Hinit) as H.
  destruct (enc_for_each _ _ _ _ _) as [[l|e] st]; exact H.
Qed.

Lemma encode_extends (E : Externals) (cache0 : gmap string (list Cond))
    (orig : Clip E) (loaded : list (string * LoraWeights E)) (c : SegmentConfig) :
  enc_preserves E (cache_extends E cache0) (encode E orig loaded c).
Proof.
  intros st H. unfold encode.
  destruct (es_cache E st !! c_str E c) as [cond|] eqn:Hlook; [exact H|].
  destruct (dict_eqb _ _); destruct (do_encode E _ _) as [cond|e];
    cbn [snd]; intros k v Hk; cbn [es_cache]; try (now apply H);
    (destruct (decide (c_str E c = k)) as [<-|Hne];
     [apply H in Hk; congruence
     |rewrite lookup_insert_ne by exact Hne; now apply H]).
Qed.

Lemma encode_sound (E : Externals) (cache0 : gmap string (list Cond))
    (orig : Clip E) (loaded : list (string * LoraWeights E)) (c : SegmentConfig) :
  enc_preserves E (cache_sound E cache0) (encode E orig loaded c).
Proof.
  intros st H. unfold encode.
  destruct (es_cache E st !! c_str E c) as [cond|] eqn:Hlook; [exact H|].
  assert (Hold : forall k v, es_cache E st !! k = Some v ->
            cache0 !! k = Some v
            \/ exists c' clip, In c' (es_encoded E st ++ [c]) /\ c_str E c' = k
                               /\ do_encode E clip (sc_prompt c') = Ok v).
  { intros k v Hk. destruct (H k v Hk) as [H0|(c' & clip & Hin & Hkey & Hdo)];
      [now left|right]. exists c', clip. split; [|now split].
    apply in_or_app. now left. }
  destruct (dict_eqb _ _);
    match goal with |- context [do_encode E ?cl _] =>
      destruct (do_encode E cl (sc_prompt c)) as [cond|e] eqn:Hdo
    end;
    cbn [snd]; intros k v Hk; cbn [es_cache es_encoded] in *;
    try (now apply Hold);
    (destruct (decide (c_str E c = k)) as [<-|Hne];
     [rewrite lookup_insert_eq in Hk; injection Hk as <-; right;
      eexists c, _; split; [apply in_or_app; right; now left|];
      split; [reflexivity|exact Hdo]
     |rewrite lookup_insert_ne in Hk by exact Hne; now apply Hold]).
Qed.

Lemma load_clip_lora_nil (E : Externals) (loaded : list (string * LoraWeights E))
    (clip : Clip E) : load_clip_lora E loaded clip [] = clip.
Proof. reflexivity. Qed.

Lemma encode_in_step (E : Externals) (clip0 orig : Clip E)
    (loaded : list (string * LoraWeights E)) (c : SegmentConfig) :
  enc_preserves E (clip_in_step E clip0 orig loaded) (encode E orig loaded c).
Proof.
  intros st H. unfold encode.
  destruct (es_cache E st !! c_str E c) as [cond|]; [exact H|].
  destruct (dict_eqb _ _); destruct (do_encode E _ _) as [cond|e];
    cbn [snd]; unfold clip_in_step; cbn [es_clip es_current_loras];
    try exact H; now right.
Qed.

(** X1: whatever a run does, returning or raising, each entry of the cache
    that the caller supplied is still in the cache afterwards, with its
    value; and every entry of the final cache is one of those or the list
    that [do_encode] returned for a segment encoded during the run, stored
    under the key of that segment. *)
Theorem run_keeps_supplied_cache (E : Externals) (clip : Clip E)
    (sched : Schedule (LoraWeights E)) (cache : gmap string (list Cond)) :
  (forall k v, cache !! k = Some v ->
     es_cache E (snd (control_to_clip_common E clip sched cache)) !! k = Some v)
  /\ (forall k v,
        es_cache E (snd (control_to_clip_common E clip sched cache)) !! k = Some v ->
        cache !! k = Some v
        \/ exists c clip',
             In c (es_encoded E (snd (control_to_clip_common E clip sched cache)))
             /\ c_str E c = k /\ do_encode E clip' (sc_prompt c) = Ok v).
Proof.
  split.
  - apply (run_preserves E (cache_extends E cache)).
    + intros c. apply encode_extends.
    + intros k v H. exact H.
  - apply (run_preserves E (cache_sound E cache)).
    + intros c. apply encode_sound.
    + intros k v H. now left.
Qed.

(** X2: when a run ends, returning or raising, the encoder handle is the
    one passed in, with no LoRA recorded as current, or a fresh clone of the
    original handle to which exactly the LoRAs recorded as current were
    applied: LoRAs of earlier segments never pile up on the handle. *)
Theorem run_keeps_clip_in_step (E : Externals) (clip : Clip E)
    (sched : Schedule (LoraWeights E)) (cache : gmap string (list Cond)) :
  clip_in_step E clip (clip_clone E clip) (loaded_loras sched)
    (snd (control_to_clip_common E clip sched cache)).
Proof.
  apply run_preserves.
  - intros c. apply encode_in_step.
  - left. split; reflexivity.
Qed.

Lemma run_keeps_supplied_cache_example :
  es_cache demo
    (snd (control_to_clip_common demo tt (demo_schedule [(1%Q, "a")])
            {["zz" := [demo_segment "z"]]})) !! "zz"
  = Some [demo_segment "z"].
Proof.
  apply (proj1 (run_keeps_supplied_cache demo tt (demo_schedule [(1%Q, "a")])
                  {["zz" := [demo_segment "z"]]})).
  apply lookup_singleton_eq.
Defined.

(* ===================================================================== *)
(** ** Running again with the cache of an earlier run *)
(* ===================================================================== *)

Section Replays.
Context (E : Externals).

Lemma replays_ret {A} (a : A) : replays E (enc_ret E a).
Proof.
  split; [reflexivity|]. intros st1 st2 b st1' H _.
  unfold enc_ret in *. injection H as <- _. reflexivity.
Qed.

Lemma replays_lift {A} (r : result A) : replays E (enc_lift E r).
Proof.
  split; [reflexivity|]. intros st1 st2 b st1' H _.
  unfold enc_lift in *. injection H as -> _. reflexivity.
Qed.

Lemma replays_bind {A B} (m : Enc E A) (k : A -> Enc E B) :
  replays E m -> (forall a, replays E (k a)) -> replays E (enc_bind E m k).
Proof.
  intros [Hgrow Hm] Hk. split.
  - intros st. unfold enc_bind. specialize (Hgrow st).
    destruct (m st) as [[a|e] st'] eqn:Hrun; cbn [snd] in *; [|exact Hgrow].
    etrans; [exact Hgrow|]. apply (Hk a).
  - intros st1 st2 b st1' Hrun Hsub. unfold enc_bind in *.
    destruct (m st1) as [[a|e] stm] eqn:Hfirst; [|discriminate].
    assert (Hmid : es_cache E stm ⊆ es_cache E st2).
    { etrans; [|exact Hsub]. pose proof (proj1 (Hk a) stm) as Hg.
      rewrite Hrun in Hg. exact Hg. }
    rewrite (Hm st1 st2 a stm Hfirst Hmid).
    exact (proj2 (Hk a) stm st2 b st1' Hrun Hsub).
Qed.

Lemma replays_for_each {S A} (body : S -> A -> Enc E S) (l : list A) (s : S) :
  (forall s a, replays E (body s a)) -> replays E (enc_for_each E body l s).
Proof.
  intros Hbody. revert s. induction l as [|a l IH]; intros s; cbn [enc_for_each].
  - apply replays_ret.
  - apply replays_bind; [apply Hbody | exact IH].
Qed.

Lemma replays_map {A B} (f : A -> Enc E B) (l : list A) :
  (forall a, replays E (f a)) -> replays E (enc_map E f l).
Proof.
  intros Hf. induction l as [|a l IH]; cbn [enc_map].
  - apply replays_ret.
  - apply replays_bind; [apply Hf|]. intros b.
    apply replays_bind; [exact IH|]. intros bs. apply replays_ret.
Qed.

Lemma replays_encode (orig : Clip E) (loaded : list (string * LoraWeights E))
    (c : SegmentConfig) : replays E (encode E orig loaded c).
Proof.
  split.
  - intros st. unfold encode.
    destruct (es_cache E st !! c_str E c) as [cond|] eqn:Hlook; [reflexivity|].
    destruct (dict_eqb _ _); destruct (do_encode E _ _) as [cond|e];
      cbn [snd es_cache]; try reflexivity; now apply insert_subseteq.
  - intros st1 st2 conds st1' Hrun Hsub.
    assert (Hin : es_cache E st1' !! c_str E c = Some conds).
    { unfold encode in Hrun.
      destruct (es_cache E st1 !! c_str E c) as [cond|] eqn:Hlook.
      - injection Hrun as <- <-. exact Hlook.
      - destruct (dict_eqb _ _); destruct (do_encode E _ _); try discriminate;
          injection Hrun as <- <-; cbn [es_cache]; apply lookup_insert_eq. }
    unfold encode. now rewrite (lookup_weaken _ _ _ _ Hin Hsub).
Qed.

Context (encoder : SegmentConfig -> Enc E (list Cond)).
Hypothesis Hencoder : forall c, replays E (encoder c).

Lemma replays_get_control_points (es : list (Q * SegmentConfig))
    (steps : list Q) : replays E (get_control_points E es steps encoder).
Proof.
  unfold get_control_points.
  destruct steps as [|first [|second steps]]; try apply replays_lift.
  destruct (last _); [|apply replays_lift].
  apply replays_bind.
  - apply replays_map. intros s. apply replays_bind; [apply replays_lift|].
    intros e. apply replays_bind; [apply Hencoder|]. intros conds.
    apply replays_ret.
  - intros cps. apply replays_ret.
Qed.

Lemma replays_interpolate_spec (es : list (Q * SegmentConfig))
    (min_step start_pct end_pct : Q) (l : RunLocals) (i : list Q * Q) :
  replays E (interpolate_spec E es encoder min_step start_pct end_pct l i).
Proof.
  unfold interpolate_spec.
  destruct (fst i) as [|first rest]; [apply replays_lift|].
  destruct (last _); [|apply replays_lift].
  apply replays_bind; [apply replays_get_control_points|]. intros cps.
  apply replays_bind; [apply replays_lift|]. intros cs. apply replays_ret.
Qed.

Lemma replays_schedule_step (sched : Schedule (LoraWeights E)) (l : RunLocals)
    (entry : Q * SegmentConfig) :
  replays E (schedule_step E sched encoder l entry).
Proof.
  unfold schedule_step. destruct entry as [end_pct c].
  apply replays_bind; [apply replays_lift|]. intros selected.
  apply replays_bind.
  - destruct selected; [apply replays_ret|].
    apply replays_for_each. intros s a. apply replays_interpolate_spec.
  - intros l1. apply replays_bind.
    + destruct (Qltb _ _); [|apply replays_ret].
      apply replays_bind; [apply Hencoder|]. intros cond. apply replays_ret.
    + intros conds. apply replays_ret.
Qed.

End Replays.

(** X3: a run that has returned can be repeated from its cache: with the
    cache it has left, or any cache that holds at least those entries, the
    same schedule returns the same list, [do_encode] is not invoked for any
    segment, no LoRA is loaded and the cache is left as it is. *)
Theorem run_again_encodes_nothing (E : Externals) (clip : Clip E)
    (sched : Schedule (LoraWeights E)) (cache cache' : gmap string (list Cond))
    (conds : list Cond) (st : EncoderState E) :
  control_to_clip_common E clip sched cache = (Ok conds, st) ->
  es_cache E st ⊆ cache' ->
  control_to_clip_common E clip sched cache'
  = (Ok conds, initial_state E clip cache').
Proof.
  unfold control_to_clip_common. intros Hrun Hsub.
  destruct (enc_for_each _ _ _ _ (initial_state E clip cache))
    as [[l|e] st1] eqn:Hloop; [|discriminate].
  injection Hrun as <- <-.
  pose proof (replays_for_each E
                (schedule_step E sched
                   (encode E (clip_clone E clip) (loaded_loras sched)))
                (entries sched) {| rl_start_pct := 0%Q; rl_conds := [] |}
                (fun s a => replays_schedule_step E _
                              (replays_encode E _ _) sched s a)) as [_ Hrep].
  now rewrite (Hrep _ (initial_state E clip cache') _ _ Hloop Hsub).
Qed.

Lemma run_again_encodes_nothing_example :
  is_ok (fst (control_to_clip_common demo tt
          (demo_schedule [(0.5%Q, "a"); (1%Q, "b")]) ∅)) = true
  /\ control_to_clip_common demo tt (demo_schedule [(0.5%Q, "a"); (1%Q, "b")])
       (es_cache demo (snd (control_to_clip_common demo tt
          (demo_schedule [(0.5%Q, "a"); (1%Q, "b")]) ∅)))
     = (fst (control_to_clip_common demo tt
          (demo_schedule [(0.5%Q, "a"); (1%Q, "b")]) ∅),
        initial_state demo tt (es_cache demo (snd (control_to_clip_common demo tt
          (demo_schedule [(0.5%Q, "a"); (1%Q, "b")]) ∅)))).
Proof.
  assert (Hok : is_ok (fst (control_to_clip_common demo tt
          (demo_schedule [(0.5%Q, "a"); (1%Q, "b")]) ∅)) = true)
    by (vm_compute; reflexivity).
  split; [exact Hok|].
  destruct (control_to_clip_common demo tt
              (demo_schedule [(0.5%Q, "a"); (1%Q, "b")]) ∅)
    as [[conds|e] st] eqn:Hrun; [|discriminate Hok].
  cbn [fst snd].
  apply (run_again_encodes_nothing demo tt _ ∅ (es_cache demo st) conds st Hrun).
  reflexivity.
Defined.

(* ===================================================================== *)
(** ** Edge cases of the interpolation *)
(* ===================================================================== *)

Lemma step_segment_ranged (E : Externals) c m np pct step f ps :
  ranged (step_segment E c m np pct step f ps)
  /\ is_Some (pooled_output (snd (step_segment E c m np pct step f ps))).
Proof.
  unfold ranged, step_segment. cbn [snd].
  destruct (String.eqb ps ""); cbn; repeat split; eexists; reflexivity.
Qed.

Lemma set_last_end_percent_Forall (P : Cond -> Prop) v (res : list Cond) :
  (forall t m, P (t, m) -> P (t, set_end_percent v m)) ->
  Forall P res -> Forall P (set_last_end_percent v res).
Proof.
  intros Hset. induction 1 as [|[t m] res Hn Hres IH]; [constructor|].
  destruct res as [|n res].
  - constructor; [now apply Hset|constructor].
  - change (set_last_end_percent v ((t, m) :: n :: res))
      with ((t, m) :: set_last_end_percent v (n :: res)).
    constructor; assumption.
Qed.

Lemma interpolate_step_ranged (E : Externals) fc tc m step x ps
    (l l1 : StepLocals) (s : Z) :
  Forall (fun n => ranged n /\ is_Some (pooled_output (snd n))) (sl_res l) ->
  interpolate_step E fc tc m step x ps l s = Ok l1 ->
  Forall (fun n => ranged n /\ is_Some (pooled_output (snd n))) (sl_res l1).
Proof.
  intros Hres Hrun. unfold interpolate_step in Hrun.
  destruct (step_pooled _ _ _ _) as [[fp tp] [np|]]; [|discriminate].
  injection Hrun as <-. cbn [sl_res].
  apply Forall_app. split; [exact Hres|].
  constructor; [apply step_segment_ranged|constructor].
Qed.

Lemma interpolate_pair_ranged (E : Externals) (from_step to_step step : Q)
    (ps : string) (l l' : InterpLocals) (pair : Cond * Cond) :
  Forall (fun n => ranged n /\ is_Some (pooled_output (snd n))) (li_all_res l) ->
  interpolate_pair E from_step to_step step ps l pair = Ok l' ->
  Forall (fun n => ranged n /\ is_Some (pooled_output (snd n))) (li_all_res l').
Proof.
  intros Hall Hrun. destruct pair as [[st sm] [et em]].
  unfold interpolate_pair in Hrun. destruct (equalize2 st et) as [fc tc].
  do 4 match type of Hrun with
  | (?m ≫= _) = Ok _ =>
      destruct m; cbn [mbind result_bind] in Hrun; [|discriminate]
  end.
  match type of Hrun with
  | (for_each ?body ?ss ?s0 ≫= _) = _ =>
      destruct (for_each body ss s0) as [sl|] eqn:Hloop; [|discriminate];
      pose proof (for_each_invariant
        (fun s => Forall (fun n => ranged n /\ is_Some (pooled_output (snd n)))
                    (sl_res s))
        body ss s0 sl) as Hinv
  end.
  cbn [mbind result_bind] in Hrun. injection Hrun as <-. cbn [li_all_res].
  assert (Hsl : Forall (fun n => ranged n /\ is_Some (pooled_output (snd n)))
                  (sl_res sl)).
  { apply Hinv; [|constructor|exact Hloop].
    intros s0 z0 s1 Hs Hb. eapply interpolate_step_ranged; eauto. }
  destruct (sl_res sl) as [|c res] eqn:Hres; [exact Hall|].
  apply Forall_app. split; [exact Hall|].
  apply (set_last_end_percent_Forall
           (fun n => ranged n /\ is_Some (pooled_output (snd n)))
           (py_round (default to_step (li_end_at l)) 2) (c :: res));
    [|exact Hsl].
  intros t m [[Hs He] Hp]. repeat split; cbn in *; eauto.
Qed.

Lemma interpolated_segments_ranged (E : Externals) (start end_ : list Cond)
    (from_step to_step step : Q) (start_at end_at : option Q)
    (prompt_start : string) (segs : list Cond) :
  linear_interpolate_cond E start end_ from_step to_step step start_at end_at
    prompt_start = Ok segs ->
  Forall (fun n => ranged n /\ is_Some (pooled_output (snd n))) segs.
Proof.
  intros Hrun. unfold linear_interpolate_cond in Hrun.
  match type of Hrun with
  | (for_each ?body ?ps ?s ≫= _) = _ =>
      destruct (for_each body ps s) as [l'|] eqn:Hloop; [|discriminate];
      pose proof (for_each_invariant
        (fun st => Forall (fun n => ranged n /\ is_Some (pooled_output (snd n)))
                     (li_all_res st))
        body ps s l') as Hinv
  end.
  cbn [mbind result_bind] in Hrun. injection Hrun as <-.
  apply Hinv; [|constructor|exact Hloop].
  intros s a s' Hs Hb. eapply interpolate_pair_ranged; eauto.
Qed.

(** X4: every segment that [linear_interpolate_cond] returns carries a
    [start_percent], an [end_percent] and a pooled output, whatever the
    metadata of the interpolated segments holds. *)
Theorem linear_interpolate_cond_ranged (E : Externals) (start end_ : list Cond)
    (from_step to_step step : Q) (start_at end_at : option Q)
    (prompt_start : string) (segs : list Cond) :
  linear_interpolate_cond E start end_ from_step to_step step start_at end_at
    prompt_start = Ok segs ->
  Forall (fun n => ranged n /\ is_Some (pooled_output (snd n))) segs.
Proof. apply interpolated_segments_ranged. Qed.

Lemma linear_interpolate_cond_ranged_example :
  exists segs,
    linear_interpolate_cond demo [demo_segment "a"] [demo_segment "b"]
      0 1 0.5 None None "N/A" = Ok segs
    /\ length segs = 2%nat
    /\ Forall (fun n => ranged n /\ is_Some (pooled_output (snd n))) segs.
Proof.
  eexists. split; [vm_compute; reflexivity|]. split; [reflexivity|].
  apply (linear_interpolate_cond_ranged demo [demo_segment "a"]
           [demo_segment "b"] 0 1 0.5 None None "N/A").
  vm_compute. reflexivity.
Defined.

Lemma Qeqb_true (a b : Q) : (a == b)%Q -> Qeqb a b = true.
Proof. intros H. now apply Qeqb_spec. Qed.

(** X5: on non-empty lists a [step] of zero makes [linear_interpolate_cond]
    raise the division error, and so does a window of [-1] steps between
    [from_step] and [to_step] (the divisor [total_steps + 1] is zero then);
    on an empty list there is nothing to divide and the result is empty. *)
Theorem linear_interpolate_cond_division (E : Externals) (start0 end0 : Cond)
    (starts ends : list Cond) (from_step to_step step : Q)
    (start_at end_at : option Q) (prompt_start : string) :
  ((step == 0)%Q \/ step_index from_step step to_step = -1 ->
   linear_interpolate_cond E (start0 :: starts) (end0 :: ends)
     from_step to_step step start_at end_at prompt_start
   = Raise ZeroDivisionError)
  /\ linear_interpolate_cond E [] (end0 :: ends)
       from_step to_step step start_at end_at prompt_start = Ok []
  /\ linear_interpolate_cond E (start0 :: starts) []
       from_step to_step step start_at end_at prompt_start = Ok [].
Proof.
  split; [|split; reflexivity].
  intros H. unfold linear_interpolate_cond. cbn [zip zip_with for_each].
  destruct start0 as [st sm], end0 as [et em]. unfold interpolate_pair.
  destruct (equalize2 st et) as [fc tc].
  destruct (Qeqb step 0) eqn:Hstep.
  - unfold step_count, py_div. rewrite Hstep. reflexivity.
  - destruct H as [H|H]; [apply Qeqb_true in H; congruence|].
    assert (Hne : ~ (step == 0)%Q).
    { intros Hz. apply Qeqb_true in Hz. congruence. }
    rewrite !(step_count_ok _ _ _ Hne), H. cbn [mbind result_bind].
    reflexivity.
Qed.

Lemma linear_interpolate_cond_division_example :
  linear_interpolate_cond demo [demo_segment "a"] [demo_segment "b"]
    0 1 0 None None "N/A" = Raise ZeroDivisionError
  /\ linear_interpolate_cond demo [demo_segment "a"] [demo_segment "b"]
       1 0.9 0.1 None None "N/A" = Raise ZeroDivisionError.
Proof.
  split.
  - apply (proj1 (linear_interpolate_cond_division demo (demo_segment "a")
                    (demo_segment "b") [] [] 0 1 0 None None "N/A")).
    left. reflexivity.
  - apply (proj1 (linear_interpolate_cond_division demo (demo_segment "a")
                    (demo_segment "b") [] [] 1 0.9 0.1 None None "N/A")).
    right. reflexivity.
Defined.

Lemma interpolator_loop_empty_window (E : Externals)
    (o_start o_end step start_pct end_pct : Q) (rest : list (Q * list Cond))
    (t_start : Q) (start conds : list Cond) :
  (end_pct <= start_pct)%Q ->
  interpolator_loop E o_start o_end step start_pct end_pct t_start start conds rest
  = Ok conds.
Proof.
  intros Hle. revert t_start start.
  induction rest as [|[t_end end_] rest IH]; intros t_start start;
    [reflexivity|].
  cbn [interpolator_loop].
  destruct (Qltb t_start start_pct) eqn:Hlt; [apply IH|].
  replace (Qleb end_pct t_start) with true; [reflexivity|].
  symmetry. apply Qleb_spec. apply Qle_trans with start_pct; [exact Hle|].
  apply Qnot_lt_le. intros H. apply Qltb_spec in H. congruence.
Qed.

(** X6: when the window is empty, [end_pct <= start_pct], the interpolator
    returns no segment for any non-empty list of control points: every pair
    is skipped or ends the walk, and nothing is interpolated (so nothing can
    raise). *)
Theorem linear_interpolator_empty_window (E : Externals)
    (control_points : list (Q * list Cond)) (step start_pct end_pct : Q) :
  control_points <> [] ->
  (end_pct <= start_pct)%Q ->
  linear_interpolator E control_points step start_pct end_pct = Ok [].
Proof.
  intros Hne Hle. unfold linear_interpolator.
  destruct control_points as [|[o_start start] rest]; [contradiction|].
  destruct (last ((o_start, start) :: rest)) as [[o_end ?]|] eqn:Hlast.
  - now apply interpolator_loop_empty_window.
  - apply last_None in Hlast. discriminate.
Qed.

Lemma linear_interpolator_empty_window_example :
  linear_interpolator demo
    [(0%Q, [([[1%Q]], empty_meta)]); (1%Q, [([[2%Q]], empty_meta)])]
    0.1 0.5 0.5 = Ok [].
Proof.
  apply linear_interpolator_empty_window; [discriminate|].
  unfold Qle. simpl. lia.
Defined.

(** X7: for a window of [total] steps, the blend factor of every step
    [0 <= s < total] lies in [[0, 1]]: an interpolated tensor is a mixture
    of its two ends and never overshoots them. *)
Theorem blend_factor_in_unit (total s : Z) :
  0 <= s < total ->
  (0 <= blend_factor s (1 / inject_Z (total + 1)) <= 1)%Q.
Proof.
  intros Hs. unfold blend_factor.
  assert (Hpos : (0 < inject_Z (total + 1))%Q)
    by (unfold Qlt; simpl; lia).
  assert (Hv : (0 <= inject_Z (s + 1) * (1 / inject_Z (total + 1)) <= 1)%Q).
  { split.
    - apply Qmult_le_0_compat; [unfold Qle; simpl; lia|].
      apply Qle_shift_div_l; [exact Hpos|]. unfold Qle; simpl; lia.
    - unfold Qdiv. rewrite Qmult_1_l.
      apply Qle_shift_div_r; [exact Hpos|]. rewrite Qmult_1_l.
      unfold Qle; simpl; lia. }
  destruct Hv as [H0 H1]. split.
  - apply Qle_trans with (py_round 0 2); [vm_compute; discriminate|].
    now apply py_round_mono.
  - apply Qle_trans with (py_round 1 2); [|vm_compute; discriminate].
    now apply py_round_mono.
Qed.

Lemma blend_factor_in_unit_example :
  (0 <= blend_factor 9 (1 / inject_Z (10 + 1)) <= 1)%Q.
Proof. apply (blend_factor_in_unit 10 9). lia. Defined.

(* ===================================================================== *)
(** ** What the directive readers return *)
(* ===================================================================== *)

Lemma Qltb_false (a b : Q) : Qltb a b = false -> (b <= a)%Q.
Proof.
  intros H. apply Qnot_lt_le. intros Hlt. apply Qltb_spec in Hlt. congruence.
Qed.

Lemma py_clamp_unit (w : Q) : (0 <= py_max (py_min w 1) 0 <= 1)%Q.
Proof.
  unfold py_max, py_min.
  destruct (Qltb 1 w) eqn:H1.
  - change (Qltb 1 0) with false. cbv iota. split; discriminate.
  - apply Qltb_false in H1.
    destruct (Qltb w 0) eqn:H0.
    + split; discriminate.
    + apply Qltb_false in H0. split; assumption.
Qed.

(** X8: the weight that [get_noise] returns for a text with NOISE
    directives lies in [[0, 1]], whatever the directives say: the sum of
    their weights is clamped. *)
Theorem get_noise_weight_clamped (text t : string) (w : Q) (seed : option Z) :
  get_noise text = (t, Some w, seed) -> (0 <= w <= 1)%Q.
Proof.
  unfold get_noise.
  destruct (get_function text "NOISE" _) as [t' [|first rest]]; [discriminate|].
  intros H. injection H as _ <- _. apply py_clamp_unit.
Qed.

Lemma get_noise_weight_clamped_example :
  get_noise "a NOISE(0.7) NOISE(0.6, 5)" = ("a  ", Some 1%Q, None)
  /\ (0 <= 1 <= 1)%Q.
Proof.
  split; [vm_compute; reflexivity|].
  apply (get_noise_weight_clamped "a NOISE(0.7) NOISE(0.6, 5)" "a  " 1 None).
  vm_compute. reflexivity.
Defined.

Lemma is_pct_spec (f : Q) : is_pct f = true -> (0 <= f <= 1)%Q.
Proof.
  unfold is_pct. intros H. apply andb_prop in H. destruct H as [H0 H1].
  split; now apply Qleb_spec.
Qed.

Lemma is_pixel_nonneg (f : Q) : is_pixel f = true -> 0 <= py_int f / 8.
Proof.
  unfold is_pixel. intros H. apply orb_prop in H.
  assert (Hf : 0 <= Qnum f).
  { destruct H as [H|H].
    - apply Qeqb_spec in H. unfold Qeq in H. simpl in H. lia.
    - apply Qltb_spec in H. unfold Qlt in H. simpl in H. lia. }
  apply Z.div_pos; [|lia]. unfold py_int. apply Z.quot_pos; [exact Hf|].
  lia.
Qed.

Lemma area_of_values_valid (x w y h : Q) (a : Area) :
  area_of_values x w y h = Ok a -> valid_area a.
Proof.
  unfold area_of_values.
  destruct (forallb is_pct [h; w; y; x]) eqn:Hpct.
  - intros H. injection H as <-. cbn [forallb] in Hpct.
    repeat (apply andb_prop in Hpct; destruct Hpct as [? Hpct]).
    repeat split; now apply is_pct_spec.
  - destruct (forallb is_pixel [h; w; y; x]) eqn:Hpix; [|discriminate].
    intros H. injection H as <-. cbn [forallb] in Hpix.
    repeat (apply andb_prop in Hpix; destruct Hpix as [? Hpix]).
    repeat split; now apply is_pixel_nonneg.
Qed.

(** X9: an area that [get_area] returns is usable as it is: its four fields
    are percentages within [[0, 1]], or pixel units none of which is
    negative. *)
Theorem get_area_valid (text t : string) (a : Area) (w : Q) :
  get_area text = Ok (t, Some (a, w)) -> valid_area a.
Proof.
  unfold get_area.
  destruct (get_function text "AREA" _) as [t' [|args rest]]; [discriminate|].
  destruct (parse_floats (arg 0 args) _) as [x wd].
  destruct (parse_floats (arg 1 args) _) as [y h].
  destruct (area_of_values x wd y h) as [a'|e] eqn:Harea; [|discriminate].
  cbn [mbind result_bind]. intros H. injection H as _ <- _.
  eapply area_of_values_valid; eassumption.
Qed.

Lemma get_area_valid_example :
  get_area "AREA(64 256, 0 512) cat" = Ok (" cat", Some (AreaPixels 64 32 0 8, 1%Q))
  /\ valid_area (AreaPixels 64 32 0 8).
Proof.
  split; [vm_compute; reflexivity|].
  apply (get_area_valid "AREA(64 256, 0 512) cat" " cat" (AreaPixels 64 32 0 8) 1).
  vm_compute. reflexivity.
Defined.

Lemma Forall_imap {A B} (P : A -> Prop) (R : B -> Prop) (f : nat -> A -> B)
    (l : list A) :
  (forall i x, P x -> R (f i x)) -> Forall P l -> Forall R (imap f l).
Proof.
  intros Hf Hl. revert f Hf. induction Hl as [|x l Hx Hl IH]; intros f Hf.
  - constructor.
  - cbn [imap]. constructor; [now apply Hf|]. apply IH. intros i y. apply Hf.
Qed.

Lemma assign_slice2_shape (a b c d w h : Z) (m : Mask) :
  mask_shape w h m -> mask_shape w h (assign_slice2 a b c d 1 m).
Proof.
  intros [Hlen Hall]. unfold assign_slice2. split.
  - now rewrite length_imap.
  - eapply Forall_imap; [|exact Hall].
    intros i plane [Hplane Hrows]. split; [now rewrite length_imap|].
    eapply Forall_imap; [|exact Hrows].
    intros j row [Hrow Hentries].
    destruct (in_slice _ _ _ _ && in_slice _ _ _ _); [|now split].
    split; [now rewrite length_map|].
    apply Forall_forall. intros v Hv. apply list_elem_of_In in Hv.
    apply in_map_iff in Hv. destruct Hv as (? & <- & _). now right.
Qed.

Lemma torch_full3_shape (w h : Z) (m : Mask) :
  torch_full3 1 h w 0 = Ok m -> mask_shape w h m.
Proof.
  unfold torch_full3. destruct (_ || _); [discriminate|].
  intros H. injection H as <-. split; [reflexivity|].
  change (Z.to_nat 1) with 1%nat. cbn [repeat]. constructor; [|constructor].
  split; [apply repeat_length|].
  apply Forall_forall. intros row Hrow. apply list_elem_of_In in Hrow.
  apply repeat_spec in Hrow. subst row. split; [apply repeat_length|].
  apply Forall_forall. intros v Hv. apply list_elem_of_In in Hv.
  apply repeat_spec in Hv. now left.
Qed.

Lemma mask_of_values_shape (x1 x2 y1 y2 : Q) (w h : Z) (m : Mask) :
  mask_of_values x1 x2 y1 y2 (w, h) = Ok m -> mask_shape w h m.
Proof.
  unfold mask_of_values.
  match goal with |- (?b ≫= _) = _ -> _ =>
    destruct b as [[[xs0 xs1] [ys0 ys1]]|e]; [|discriminate]
  end.
  cbn [mbind result_bind].
  destruct (torch_full3 1 h w 0) as [mask|e] eqn:Hfull; [|discriminate].
  cbn [mbind result_bind]. intros H. injection H as <-.
  apply assign_slice2_shape. now apply torch_full3_shape.
Qed.

(** X10: a mask that [get_mask] returns for the canvas [(w, h)] has the shape
    [(1, h, w)], and each of its entries is zero or one. *)
Theorem get_mask_shape (text t : string) (w h : Z) (m : Mask) (wt : option Q) :
  get_mask text (w, h) = Ok (t, Some m, wt) -> mask_shape w h m.
Proof.
  unfold get_mask.
  destruct (get_function text "MASK" _) as [t' [|args rest]]; [discriminate|].
  destruct (parse_floats (arg 0 args) _) as [x1 x2].
  destruct (parse_floats (arg 1 args) _) as [y1 y2].
  destruct (mask_of_values x1 x2 y1 y2 (w, h)) as [m'|e] eqn:Hmask;
    [|discriminate].
  cbn [mbind result_bind]. intros H. injection H as _ <- _.
  now apply mask_of_values_shape in Hmask.
Qed.

Lemma get_mask_shape_example :
  exists m, get_mask "MASK(0 0.5, 0 1) cat" (4, 2) = Ok (" cat", Some m, Some 1%Q)
            /\ mask_shape 4 2 m.
Proof.
  eexists. split; [vm_compute; reflexivity|].
  apply (get_mask_shape "MASK(0 0.5, 0 1) cat" " cat" 4 2 _ (Some 1%Q)).
  vm_compute. reflexivity.
Defined.

(** X11: the style and the normalization that [get_style] returns are
    available ones, or the defaults it was given: an unrecognized name in a
    STYLE directive never reaches the encoder. *)
Theorem get_style_validated (E : Externals)
    (text default_style default_normalization style normalization t : string) :
  get_style E text default_style default_normalization
  = (style, normalization, t) ->
  (style = default_style \/ string_in style (AVAILABLE_STYLES E) = true)
  /\ (normalization = default_normalization
      \/ string_in normalization (AVAILABLE_NORMALIZATIONS E) = true).
Proof.
  unfold get_style.
  destruct (get_function text "STYLE" _) as [t' [|args rest]].
  - intros H. injection H as <- <- _. split; now left.
  - destruct (string_in (arg 0 args) (AVAILABLE_STYLES E)) eqn:Hs;
      destruct (string_in (arg 1 args) (AVAILABLE_NORMALIZATIONS E)) eqn:Hn;
      intros H; injection H as <- <- _; split; auto.
Qed.

Lemma get_style_validated_example :
  get_style demo "STYLE(A1111, mean) cat" "comfy" "none" = ("comfy", "none", " cat")
  /\ ("comfy" = "comfy" \/ string_in "comfy" (AVAILABLE_STYLES demo) = true)
  /\ ("none" = "none" \/ string_in "none" (AVAILABLE_NORMALIZATIONS demo) = true).
Proof.
  split; [vm_compute; reflexivity|].
  apply (get_style_validated demo "STYLE(A1111, mean) cat" "comfy" "none"
           "comfy" "none" " cat").
  vm_compute. reflexivity.
Defined.

(* ===================================================================== *)
(** ** The weight suffix *)
(* ===================================================================== *)

Lemma search_weight_cut (t before numeral : string) (tag : option string) :
  search_weight t = Some (before, numeral, tag) ->
  exists rest, t = (before ++ String ":" rest)%string.
Proof.
  revert before numeral tag.
  induction t as [|c t IH]; intros before numeral tag; [discriminate|].
  cbn [search_weight].
  destruct (Ascii.eqb c ":") eqn:Hc.
  - apply Ascii.eqb_eq in Hc. subst c.
    destruct (read_weight_numeral t) as [[num rest]|].
    + destruct (read_weight_tag rest) as [tg|].
      * intros H. injection H as <- _ _. exists t. reflexivity.
      * destruct (search_weight t) as [[[b n] tg]|]; [|discriminate].
        intros H. injection H as <- _ _.
        destruct (IH b n tg eq_refl) as [r ->]. exists r. reflexivity.
    + destruct (search_weight t) as [[[b n] tg]|]; [|discriminate].
      intros H. injection H as <- _ _.
      destruct (IH b n tg eq_refl) as [r ->]. exists r. reflexivity.
  - destruct (search_weight t) as [[[b n] tg]|]; [|discriminate].
    intros H. injection H as <- _ _.
    destruct (IH b n tg eq_refl) as [r ->]. exists r. reflexivity.
Qed.

Lemma search_weight_colon_free (t : string) :
  colon_free t = true -> search_weight t = None.
Proof.
  induction t as [|c t IH]; [reflexivity|]. cbn [colon_free search_weight].
  intros H. apply andb_prop in H. destruct H as [Hc Ht].
  apply negb_true_iff in Hc. rewrite Hc, (IH Ht). reflexivity.
Qed.

(** X12: the local function [weight] of [do_encode] leaves the text as it is,
    with weight 1 and no options, or cuts it at a colon and returns what is
    before that colon; a text without a colon is always left as it is. *)
Theorem weight_cuts_at_colon (t : string) :
  (weight t = (1%Q, false, t)
   \/ exists rest, t = (snd (weight t) ++ String ":" rest)%string)
  /\ (colon_free t = true -> weight t = (1%Q, false, t)).
Proof.
  unfold weight. split.
  - destruct (search_weight t) as [[[before numeral] tag]|] eqn:Hs; [|now left].
    right. cbn [snd]. eapply search_weight_cut. exact Hs.
  - intros H. now rewrite (search_weight_colon_free t H).
Qed.

Lemma weight_cuts_at_colon_example :
  weight "a cat" = (1%Q, false, "a cat")
  /\ weight "a cat:1.5!noscale" = (1.5%Q, true, "a cat").
Proof.
  split.
  - apply (proj2 (weight_cuts_at_colon "a cat")). reflexivity.
  - vm_compute. reflexivity.
Defined.

(* ===================================================================== *)
(** ** LoRAs and the cache key *)
(* ===================================================================== *)

Lemma fold_left_filter {A B} (f : A -> B -> A) (p : B -> bool) (l : list B)
    (a : A) :
  (forall a b, p b = false -> f a b = a) ->
  fold_left f l a = fold_left f (List.filter p l) a.
Proof.
  intros Hskip. revert a. induction l as [|b l IH]; intros a; [reflexivity|].
  cbn [fold_left List.filter]. destruct (p b) eqn:Hp.
  - cbn [fold_left]. apply IH.
  - rewrite (Hskip a b Hp). apply IH.
Qed.

(** X13: [load_clip_lora] applies exactly the LoRAs of the specification that
    have been loaded and have a non-zero weight, in the order of the
    specification: the others can be struck from the specification without
    changing the resulting encoder handle. *)
Theorem load_clip_lora_effective (E : Externals)
    (loaded : list (string * LoraWeights E)) (clip : Clip E) (loraspec : Loras) :
  load_clip_lora E loaded clip loraspec
  = load_clip_lora E loaded clip (List.filter (effective E loaded) loraspec).
Proof.
  unfold load_clip_lora.
  destruct loraspec as [|item spec]; [reflexivity|].
  rewrite (fold_left_filter _ (effective E loaded)).
  - destruct (List.filter (effective E loaded) (item :: spec)); reflexivity.
  - intros c [name w]. unfold effective. cbn [fst snd].
    destruct (assoc name loaded); [|reflexivity].
    cbn [is_Some_b andb]. intros Hw. apply negb_false_iff in Hw.
    now rewrite Hw.
Qed.

Lemma string_leb_trans (a b c : string) :
  String.leb a b = true -> String.leb b c = true -> String.leb a c = true.
Proof.
  unfold String.leb. revert b c.
  induction a as [|x a IH]; intros [|y b] [|z c]; cbn [String.compare];
    try easy.
  unfold Ascii.compare.
  destruct (N.compare_spec (N_of_ascii x) (N_of_ascii y));
    destruct (N.compare_spec (N_of_ascii y) (N_of_ascii z));
    destruct (N.compare_spec (N_of_ascii x) (N_of_ascii z));
    try easy; try lia.
  apply IH.
Qed.

Lemma insert_sorted_comm (x y : string) (s : list string) :
  insert_sorted String.leb x (insert_sorted String.leb y s)
  = insert_sorted String.leb y (insert_sorted String.leb x s).
Proof.
  assert (Hbase : forall rest,
            (if String.leb y x then y :: x :: rest else x :: y :: rest)
            = (if String.leb x y then x :: y :: rest else y :: x :: rest)).
  { intros rest. destruct (String.leb y x) eqn:Hyx, (String.leb x y) eqn:Hxy;
      try reflexivity.
    - now rewrite (String.leb_antisym _ _ Hyx Hxy).
    - destruct (String.leb_total x y); congruence. }
  induction s as [|z s IH]; cbn [insert_sorted]; [apply Hbase|].
  destruct (String.leb z y) eqn:Hzy, (String.leb z x) eqn:Hzx;
    cbn [insert_sorted]; rewrite ?Hzy, ?Hzx.
  - now rewrite IH.
  - replace (String.leb x y) with true; [reflexivity|].
    symmetry. apply string_leb_trans with z; [|exact Hzy].
    destruct (String.leb_total x z); congruence.
  - replace (String.leb y x) with true; [reflexivity|].
    symmetry. apply string_leb_trans with z; [|exact Hzx].
    destruct (String.leb_total y z); congruence.
  - apply Hbase.
Qed.

Lemma sorted_Permutation (l1 l2 : list string) :
  l1 ≡ₚ l2 -> sorted String.leb l1 = sorted String.leb l2.
Proof.
  unfold sorted. induction 1 as [|x l1 l2 _ IH|x y l|l1 l2 l3 _ IH1 _ IH2];
    cbn [foldr].
  - reflexivity.
  - now rewrite IH.
  - apply insert_sorted_comm.
  - congruence.
Qed.

Lemma assoc_not_in {A} (k : string) (l : list (string * A)) :
  ~ In k (map fst l) -> assoc k l = None.
Proof.
  induction l as [|[k' v] l IH]; [reflexivity|]. cbn [map fst In assoc].
  intros H. destruct (String.eqb_spec k k') as [->|_]; [tauto|].
  apply IH. tauto.
Qed.

Lemma assoc_Permutation {A} (k : string) (l1 l2 : list (string * A)) :
  l1 ≡ₚ l2 -> NoDup (map fst l1) -> assoc k l1 = assoc k l2.
Proof.
  induction 1 as [|[k' v] l1 l2 Hperm IH|[k1 v1] [k2 v2] l|l1 l2 l3 H12 IH1 H23 IH2];
    intros Hnd.
  - reflexivity.
  - cbn [assoc]. destruct (String.eqb k k'); [reflexivity|].
    apply IH. cbn [map fst] in Hnd. now apply NoDup_cons in Hnd.
  - cbn [assoc map fst] in *. apply NoDup_cons in Hnd. destruct Hnd as [Hnotin _].
    destruct (String.eqb_spec k k1) as [H1|_], (String.eqb_spec k k2) as [H2|_];
      try reflexivity.
    exfalso. apply Hnotin. rewrite <- H1, <- H2. now left.
  - rewrite IH1 by exact Hnd. apply IH2.
    assert (Hp : map fst l1 ≡ₚ map fst l2) by now apply Permutation_map.
    rewrite <- Hp. exact Hnd.
Qed.

Lemma omap_pointwise {A B} (f g : A -> option B) (l : list A) :
  (forall a, f a = g a) -> omap f l = omap g l.
Proof.
  intros Hfg. induction l as [|a l IH]; [reflexivity|].
  cbn [omap list_omap]. now rewrite Hfg, IH.
Qed.

Lemma lora_state_Permutation (p1 p2 : string) (l1 l2 : Loras) :
  NoDup (map fst l1) -> l1 ≡ₚ l2 ->
  lora_state {| sc_prompt := p1; sc_loras := l1 |}
  = lora_state {| sc_prompt := p2; sc_loras := l2 |}.
Proof.
  intros Hnd Hperm. unfold lora_state. cbn [sc_loras].
  rewrite (sorted_Permutation (map fst l1) (map fst l2))
    by (now apply Permutation_map).
  apply omap_pointwise. intros k. now rewrite (assoc_Permutation k l1 l2).
Qed.

(** X14: the cache key does not depend on the order in which the LoRAs of a
    segment are listed: two segments with the same prompt whose LoRA
    dictionaries hold the same items, in any order, have the same key. *)
Theorem c_str_order_independent (E : Externals) (prompt : string)
    (loras1 loras2 : Loras) :
  NoDup (map fst loras1) -> loras1 ≡ₚ loras2 ->
  c_str E {| sc_prompt := prompt; sc_loras := loras1 |}
  = c_str E {| sc_prompt := prompt; sc_loras := loras2 |}.
Proof.
  intros Hnd Hperm. unfold c_str. cbn [sc_prompt].
  now rewrite (lora_state_Permutation prompt prompt loras1 loras2).
Qed.

Lemma c_str_order_independent_example :
  c_str demo {| sc_prompt := "a"; sc_loras := [("x", 1%Q); ("y", 0.5%Q)] |}
  = c_str demo {| sc_prompt := "a"; sc_loras := [("y", 0.5%Q); ("x", 1%Q)] |}.
Proof.
  apply c_str_order_independent.
  - cbn [map fst]. apply NoDup_cons. split.
    + intros H. apply list_elem_of_In in H. destruct H as [H|[]]. discriminate H.
    + apply NoDup_singleton.
  - apply perm_swap.
Defined.

(* ===================================================================== *)
(** ** The control points *)
(* ===================================================================== *)

Lemma insert_sorted_ascending {A} (x : Q * A) (l : list (Q * A)) :
  ascending l ->
  ascending (insert_sorted (fun a b => Qleb (fst a) (fst b)) x l).
Proof.
  induction l as [|y l IH]; cbn [insert_sorted ascending].
  - intros _. split; [constructor|exact I].
  - intros [Hy Hl]. destruct (Qleb (fst y) (fst x)) eqn:Hyx.
    + cbn [ascending]. split; [|now apply IH].
      clear IH Hl. apply Qleb_spec in Hyx.
      induction l as [|z l IH]; cbn [insert_sorted].
      * constructor; [exact Hyx|constructor].
      * apply Forall_cons in Hy. destruct Hy as [Hz Hy].
        destruct (Qleb (fst z) (fst x)).
        -- constructor; [exact Hz|now apply IH].
        -- constructor; [exact Hyx|]. constructor; assumption.
    + cbn [ascending]. split; [|split; assumption].
      assert (Hxy : (fst x <= fst y)%Q).
      { apply Qlt_le_weak. apply Qnot_le_lt. intros H.
        apply Qleb_spec in H. congruence. }
      constructor; [exact Hxy|].
      eapply Forall_impl; [exact Hy|]. intros z Hz. cbn beta in Hz.
      now apply Qle_trans with (fst y).
Qed.

Lemma sorted_ascending {A} (l : list (Q * A)) :
  ascending (sorted (fun a b => Qleb (fst a) (fst b)) l).
Proof.
  unfold sorted. induction l as [|x l IH]; cbn [foldr]; [exact I|].
  now apply insert_sorted_ascending.
Qed.

(** X15: the control points that [get_control_points] returns are in
    ascending order of their percentage, whatever the order in which the
    set of steps is iterated; with fewer than two steps it raises the
    assertion error and leaves the shared state (no segment is encoded). *)
Theorem get_control_points_ascending (E : Externals)
    (es : list (Q * SegmentConfig)) (steps : list Q)
    (encoder : SegmentConfig -> Enc E (list Cond)) (st : EncoderState E) :
  (forall cps st',
     get_control_points E es steps encoder st = (Ok cps, st') -> ascending cps)
  /\ ((length steps <= 1)%nat ->
      get_control_points E es steps encoder st = (Raise AssertionError, st)).
Proof.
  split.
  - intros cps st'. unfold get_control_points.
    destruct steps as [|first [|second steps]]; try discriminate.
    destruct (last _); [|discriminate].
    unfold enc_bind at 1.
    destruct (enc_map E _ _ st) as [[cps0|e] st0]; [|discriminate].
    unfold enc_ret. intros H. injection H as <- _. apply sorted_ascending.
  - intros Hlen. unfold get_control_points.
    destruct steps as [|first [|second steps]]; try reflexivity.
    cbn in Hlen. lia.
Qed.

Lemma get_control_points_ascending_example :
  get_control_points demo [] [0.5%Q] (fun _ => enc_ret demo [])
    (initial_state demo tt ∅)
  = (Raise AssertionError, initial_state demo tt ∅)
  /\ exists cps st',
       get_control_points demo
         (entries (demo_schedule [(0.5%Q, "a"); (1%Q, "b")])) [1%Q; 0%Q]
         (encode demo tt []) (initial_state demo tt ∅) = (Ok cps, st')
       /\ length cps = 2%nat /\ ascending cps.
Proof.
  split.
  - apply (proj2 (get_control_points_ascending demo [] [0.5%Q]
                    (fun _ => enc_ret demo []) (initial_state demo tt ∅))).
    cbn. lia.
  - assert (Hlen : match fst (get_control_points demo
                               (entries (demo_schedule [(0.5%Q, "a"); (1%Q, "b")]))
                               [1%Q; 0%Q] (encode demo tt [])
                               (initial_state demo tt ∅)) with
                   | Ok cps => length cps
                   | Raise _ => O
                   end = 2%nat) by (vm_compute; reflexivity).
    destruct (get_control_points demo
                (entries (demo_schedule [(0.5%Q, "a"); (1%Q, "b")]))
                [1%Q; 0%Q] (encode demo tt []) (initial_state demo tt ∅))
      as [[cps|e] st'] eqn:Hrun; [|discriminate Hlen].
    exists cps, st'. split; [reflexivity|]. split; [exact Hlen|].
    exact (proj1 (get_control_points_ascending demo _ _ _ _) cps st' Hrun).
Defined.

(* ===================================================================== *)
(** ** The ranges of the returned segments *)
(* ===================================================================== *)

Lemma interpolator_loop_ranged (E : Externals)
    (o_start o_end step start_pct end_pct : Q) (rest : list (Q * list Cond))
    (t_start : Q) (start conds cs : list Cond) :
  Forall ranged conds ->
  interpolator_loop E o_start o_end step start_pct end_pct t_start start conds rest
  = Ok cs ->
  Forall ranged cs.
Proof.
  revert t_start start conds.
  induction rest as [|[t_end end_] rest IH]; intros t_start start conds Hconds.
  - intros H. injection H as <-. exact Hconds.
  - cbn [interpolator_loop].
    destruct (Qltb t_start start_pct); [now apply IH|].
    destruct (Qleb end_pct t_start); [intros H; injection H as <-; exact Hconds|].
    destruct (linear_interpolate_cond E start end_ o_start o_end step
                (Some t_start) (Some end_pct) "N/A") as [new|e] eqn:Hnew;
      cbn [mbind result_bind]; [|discriminate].
    apply interpolated_segments_ranged in Hnew.
    destruct new as [|n new]; [intros H; injection H as <-; exact Hconds|].
    apply IH. apply Forall_app. split; [exact Hconds|].
    eapply Forall_impl; [exact Hnew|]. now intros ? [? _].
Qed.

Lemma linear_interpolator_ranged (E : Externals)
    (control_points : list (Q * list Cond)) (step start_pct end_pct : Q)
    (cs : list Cond) :
  linear_interpolator E control_points step start_pct end_pct = Ok cs ->
  Forall ranged cs.
Proof.
  unfold linear_interpolator.
  destruct control_points as [|[o_start start] rest]; [discriminate|].
  destruct (last _) as [[o_end ?]|]; [|discriminate].
  apply interpolator_loop_ranged. constructor.
Qed.

Lemma stamp_ranged (start_pct end_pct : Q) (c : SegmentConfig) (cond : list Cond) :
  Forall ranged (map (stamp start_pct end_pct c) cond).
Proof.
  apply Forall_forall. intros n Hn. apply list_elem_of_In in Hn.
  apply in_map_iff in Hn. destruct Hn as (n0 & <- & _).
  split; eexists; reflexivity.
Qed.

Section Ranged.
Context (E : Externals) (encoder : SegmentConfig -> Enc E (list Cond)).

Lemma enc_for_each_result {S A} (P : S -> Prop) (body : S -> A -> Enc E S) :
  (forall s a st s' st', P s -> body s a st = (Ok s', st') -> P s') ->
  forall l s st s' st',
    P s -> enc_for_each E body l s st = (Ok s', st') -> P s'.
Proof.
  intros Hbody l. induction l as [|a l IH]; intros s st s' st' Hs;
    cbn [enc_for_each].
  - unfold enc_ret. intros H. injection H as <- _. exact Hs.
  - unfold enc_bind. destruct (body s a st) as [[s1|e] st1] eqn:Hb;
      [|discriminate].
    apply IH. eapply Hbody; eauto.
Qed.

Lemma interpolate_spec_ranged (es : list (Q * SegmentConfig))
    (min_step start_pct end_pct : Q) (l l' : RunLocals) (i : list Q * Q)
    (st st' : EncoderState E) :
  Forall ranged (rl_conds l) ->
  interpolate_spec E es encoder min_step start_pct end_pct l i st = (Ok l', st') ->
  Forall ranged (rl_conds l').
Proof.
  intros Hl. unfold interpolate_spec.
  destruct (fst i) as [|first rest]; [discriminate|].
  destruct (last _); [|discriminate].
  unfold enc_bind, enc_lift, enc_ret.
  destruct (get_control_points E es _ encoder st) as [[cps|e] st1];
    [|discriminate].
  destruct (linear_interpolator E cps _ _ _) as [cs|e] eqn:Hcs; [|discriminate].
  intros H. injection H as <- _. cbn [rl_conds].
  apply Forall_app. split; [exact Hl|]. eapply linear_interpolator_ranged; eauto.
Qed.

Lemma schedule_step_ranged (sched : Schedule (LoraWeights E)) (l l' : RunLocals)
    (entry : Q * SegmentConfig) (st st' : EncoderState E) :
  Forall ranged (rl_conds l) ->
  schedule_step E sched encoder l entry st = (Ok l', st') ->
  Forall ranged (rl_conds l').
Proof.
  intros Hl. unfold schedule_step. destruct entry as [end_pct c].
  unfold enc_bind at 1. unfold enc_lift.
  destruct (filter_result _ _) as [selected|e]; [|discriminate].
  unfold enc_bind at 1.
  match goal with |- context [match ?m st with _ => _ end] =>
    destruct (m st) as [[l1|e] st1] eqn:Hinterp; [|discriminate]
  end.
  assert (Hl1 : Forall ranged (rl_conds l1)).
  { destruct selected as [|i selected].
    - unfold enc_ret in Hinterp. injection Hinterp as <- _. exact Hl.
    - refine (enc_for_each_result (fun s => Forall ranged (rl_conds s))
                _ _ _ _ _ _ _ _ Hinterp); [|exact Hl].
      intros s a s0 s' s0' Hs Hb. eapply interpolate_spec_ranged; eauto. }
  unfold enc_bind at 1.
  destruct (Qltb (rl_start_pct l1) end_pct).
  - unfold enc_bind. destruct (encoder c st1) as [[cond|e] st2]; [|discriminate].
    unfold enc_ret. intros H. injection H as <- _. cbn [rl_conds].
    apply Forall_app. split; [exact Hl1|apply stamp_ranged].
  - unfold enc_ret. intros H. injection H as <- _. exact Hl1.
Qed.

End Ranged.

(** X16: every segment that the orchestrator returns carries a
    [start_percent] and an [end_percent], whether it was stamped from a
    schedule entry or produced by an interpolation, and whatever the encoder
    returns. *)
Theorem run_segments_ranged (E : Externals) (clip : Clip E)
    (sched : Schedule (LoraWeights E)) (cache : gmap string (list Cond))
    (conds : list Cond) (st : EncoderState E) :
  control_to_clip_common E clip sched cache = (Ok conds, st) ->
  Forall ranged conds.
Proof.
  unfold control_to_clip_common.
  destruct (enc_for_each _ _ _ _ _) as [[l|e] st1] eqn:Hloop; [|discriminate].
  intros H. injection H as <- _.
  refine (enc_for_each_result E (fun s => Forall ranged (rl_conds s))
            _ _ _ _ _ _ _ _ Hloop); [|constructor].
  intros s a s0 s' s0' Hs Hb. eapply schedule_step_ranged; eauto.
Qed.

Lemma run_segments_ranged_example :
  exists conds st,
    control_to_clip_common demo tt (demo_schedule [(0.5%Q, "a"); (1%Q, "b")]) ∅
    = (Ok conds, st)
    /\ Forall ranged conds.
Proof.
  assert (Hok : is_ok (fst (control_to_clip_common demo tt
                              (demo_schedule [(0.5%Q, "a"); (1%Q, "b")]) ∅))
                = true) by (vm_compute; reflexivity).
  destruct (control_to_clip_common demo tt
              (demo_schedule [(0.5%Q, "a"); (1%Q, "b")]) ∅)
    as [[conds|e] st] eqn:Hrun; [|discriminate Hok].
  exists conds, st. split; [reflexivity|].
  exact (run_segments_ranged demo tt _ ∅ conds st Hrun).
Defined.

(* ===================================================================== *)
(** ** Prompts of the returned segments *)
(* ===================================================================== *)

Lemma plain_run_prompts_from (E : Externals) (sched : Schedule (LoraWeights E))
    (orig : Clip E) (es : list (Q * SegmentConfig)) (l l' : RunLocals)
    (st st' : EncoderState E) :
  interpolations sched = [] ->
  (forall e, In e es -> In e (entries sched)) ->
  Forall (fun n => exists e, In e (entries sched)
                             /\ prompt (snd n) = Some (sc_prompt (snd e)))
    (rl_conds l) ->
  enc_for_each E (schedule_step E sched (encode E orig (loaded_loras sched)))
    es l st = (Ok l', st') ->
  Forall (fun n => exists e, In e (entries sched)
                             /\ prompt (snd n) = Some (sc_prompt (snd e)))
    (rl_conds l').
Proof.
  intros Hplain. revert l st.
  induction es as [|[end_pct c] es IH]; intros l st Hsub Hl; cbn [enc_for_each].
  - unfold enc_ret. intros H. injection H as <- _. exact Hl.
  - unfold enc_bind. rewrite (schedule_step_plain E sched orig Hplain).
    destruct (Qltb (rl_start_pct l) end_pct).
    + destruct (encode E orig (loaded_loras sched) c st) as [[cond|e] st1];
        [|discriminate].
      apply IH; [intros e He; apply Hsub; now right|].
      cbn [rl_conds]. apply Forall_app. split; [exact Hl|].
      apply Forall_forall. intros n Hn. apply list_elem_of_In in Hn.
      apply in_map_iff in Hn. destruct Hn as (n0 & <- & _).
      exists (end_pct, c). split; [apply Hsub; now left|reflexivity].
    + apply IH; [intros e He; apply Hsub; now right|exact Hl].
Qed.

(** X17: in a run without interpolation, the prompt in the metadata of every
    returned segment is the whole prompt of a schedule entry: the
    orchestrator overwrites the sub-prompt text that [do_encode] has left
    there. *)
Theorem plain_run_prompts (E : Externals) (clip : Clip E)
    (sched : Schedule (LoraWeights E)) (cache : gmap string (list Cond))
    (conds : list Cond) (st : EncoderState E) :
  interpolations sched = [] ->
  control_to_clip_common E clip sched cache = (Ok conds, st) ->
  Forall (fun n => exists e, In e (entries sched)
                             /\ prompt (snd n) = Some (sc_prompt (snd e)))
    conds.
Proof.
  intros Hplain. unfold control_to_clip_common.
  destruct (enc_for_each _ _ _ _ _) as [[l|e] st1] eqn:Hloop; [|discriminate].
  intros H. injection H as <- _.
  eapply (plain_run_prompts_from E sched (clip_clone E clip) (entries sched));
    [exact Hplain|auto| |exact Hloop].
  constructor.
Qed.

Lemma plain_run_prompts_example :
  exists conds st,
    control_to_clip_common demo tt (demo_schedule [(1%Q, "a:2 AND b:1")]) ∅
    = (Ok conds, st)
    /\ Forall (fun n => exists e,
                 In e (entries (demo_schedule [(1%Q, "a:2 AND b:1")]))
                 /\ prompt (snd n) = Some (sc_prompt (snd e)))
         conds.
Proof.
  assert (Hok : is_ok (fst (control_to_clip_common demo tt
                              (demo_schedule [(1%Q, "a:2 AND b:1")]) ∅))
                = true) by (vm_compute; reflexivity).
  destruct (control_to_clip_common demo tt
              (demo_schedule [(1%Q, "a:2 AND b:1")]) ∅)
    as [[conds|e] st] eqn:Hrun; [|discriminate Hok].
  exists conds, st. split; [reflexivity|].
  apply (plain_run_prompts demo tt _ ∅ conds st); [reflexivity|exact Hrun].
Defined.

(* ===================================================================== *)
(** ** Sub-prompts kept as separate layers *)
(* ===================================================================== *)

Lemma layered_settings (w : Q) (alt : bool) (text : string)
    (o1 o2 : option SdxlOpts) (ar : option (Area * Q)) (mk : option Mask)
    (mw : option Q) (po : option Pooled) :
  alt = true ->
  layered
    (@pair Tensor Meta []
       (let settings := set_prompt text empty_meta in
        let settings := if alt then set_strength w settings else settings in
        let settings := update_sdxl o1 settings in
        let settings := update_sdxl o2 settings in
        let settings := match ar with
                        | Some (a, aw) => set_area a aw settings
                        | None => settings
                        end in
        let settings := match mk, mw with
                        | Some k, Some kw => set_mask k kw settings
                        | _, _ => settings
                        end in
        match po with
        | Some p => set_pooled_output p settings
        | None => settings
        end)).
Proof.
  intros ->. unfold layered.
  destruct o1, o2, ar as [[a aw]|], mk, mw, po; cbn; split; eexists; reflexivity.
Qed.

Lemma encode_term_layered (E : Externals) (clip : Clip E)
    (style normalization : string) (mask_size : Z * Z) (p : string)
    (sdxl_opts : option SdxlOpts) (scale : Q) (l l' : EncodeLocals)
    (prompt : string) :
  el_res l = [] /\ Forall layered (el_conds l) ->
  encode_term E clip style normalization mask_size true p sdxl_opts scale l prompt
  = Ok l' ->
  el_res l' = [] /\ Forall layered (el_conds l').
Proof.
  intros [Hres Hconds]. unfold encode_term.
  destruct (get_mask prompt mask_size) as [[[pr mk] mw]|e]; [|discriminate].
  cbn [mbind result_bind].
  destruct (weight pr) as [[w ns] pr2].
  destruct (get_noise (el_text l)) as [[tx nw] seed].
  destruct (Qeqb w 0).
  { intros H. injection H as <-. now split. }
  destruct (get_area pr2) as [[pr3 ar]|e]; [|discriminate].
  cbn [mbind result_bind].
  destruct (get_sdxl p) as [pr4 lo].
  destruct (encode_prompt E clip pr4 style normalization) as [cond pooled].
  destruct (apply_noise_tensor E cond nw (seed, O)) as [cond' gen].
  destruct (apply_noise_pooled E pooled nw gen) as [pooled' gen'].
  replace (is_Some_b mk || is_Some_b ar || true || is_Some_b lo) with true
    by (destruct mk, ar; reflexivity).
  intros H. injection H as <-. cbn [el_res el_conds]. split; [exact Hres|].
  apply Forall_app. split; [exact Hconds|]. constructor; [|constructor].
  pose proof (layered_settings w true pr4 sdxl_opts lo ar mk mw pooled' eq_refl)
    as Hl.
  exact Hl.
Qed.

(** X18: when the text holds [COMFYAND()], [do_encode] sums nothing: every
    segment it returns is a separate layer with a strength and a prompt of
    its own.  (The text is the one left by the STYLE and MASK_SIZE
    readers.) *)
Theorem do_encode_comfyand_layers (E : Externals) (clip : Clip E)
    (text style normalization t1 t2 : string) (mask_size : Z * Z)
    (conds : list Cond) :
  get_style E text "comfy" "none" = (style, normalization, t1) ->
  get_mask_size t1 = Ok (t2, mask_size) ->
  contains "COMFYAND()" t2 = true ->
  do_encode E clip text = Ok conds ->
  Forall layered conds.
Proof.
  intros Hstyle Hsize Halt. unfold do_encode. rewrite Hstyle, Hsize.
  cbn [mbind result_bind]. rewrite Halt.
  destruct (get_sdxl _) as [p sdxl_opts].
  match goal with |- (for_each ?body ?ps ?s0 ≫= _) = _ -> _ =>
    destruct (for_each body ps s0) as [l|e] eqn:Hloop; [|discriminate];
    pose proof (for_each_invariant
      (fun loc => el_res loc = [] /\ Forall layered (el_conds loc))
      body ps s0 l) as Hinv
  end.
  cbn [mbind result_bind].
  destruct Hinv as [Hres Hconds]; [| |exact Hloop|].
  - intros s a s' Hs Hb. eapply encode_term_layered; eauto.
  - split; [reflexivity|constructor].
  - rewrite Hres. cbn. intros H. injection H as <-. exact Hconds.
Qed.

Lemma do_encode_comfyand_layers_example :
  exists conds,
    do_encode demo tt "a:2 AND b COMFYAND()" = Ok conds
    /\ length conds = 2%nat /\ Forall layered conds.
Proof.
  eexists. split; [vm_compute; reflexivity|]. split; [reflexivity|].
  apply (do_encode_comfyand_layers demo tt "a:2 AND b COMFYAND()" "comfy" "none"
           "a:2 AND b COMFYAND()" "a:2 AND b COMFYAND()" (512, 512)).
  - vm_compute. reflexivity.
  - vm_compute. reflexivity.
  - vm_compute. reflexivity.
  - vm_compute. reflexivity.
Defined.

(* ===================================================================== *)
(** ** A malformed interpolation *)
(* ===================================================================== *)

Lemma filter_result_index_error (start_pct end_pct : Q)
    (specs : list (list Q * Q)) (step : Q) :
  In ([], step) specs ->
  filter_result (overlaps start_pct end_pct) specs = Raise IndexError.
Proof.
  induction specs as [|i specs IH]; [intros []|].
  intros Hin. cbn [filter_result].
  destruct (overlaps start_pct end_pct i) as [b|e] eqn:Hover.
  - cbn [mbind result_bind]. destruct Hin as [->|Hin]; [discriminate Hover|].
    now rewrite (IH Hin).
  - cbn [mbind result_bind]. unfold overlaps in Hover.
    destruct (fst i) as [|first rest]; [now injection Hover as <-|].
    destruct (last _); [discriminate|now injection Hover as <-].
Qed.

(** X19: a schedule with at least one entry and an interpolation whose list
    of control points is empty makes the run raise the index error at the
    first entry, before anything is encoded: the state of the closures is
    the initial one. *)
Theorem run_with_empty_interpolation (E : Externals) (clip : Clip E)
    (sched : Schedule (LoraWeights E)) (cache : gmap string (list Cond))
    (step : Q) :
  entries sched <> [] ->
  In ([], step) (interpolations sched) ->
  control_to_clip_common E clip sched cache
  = (Raise IndexError, initial_state E clip cache).
Proof.
  intros Hne Hin. unfold control_to_clip_common.
  destruct (entries sched) as [|[end_pct c] es]; [contradiction|].
  cbn [enc_for_each]. unfold enc_bind at 1. unfold schedule_step.
  unfold enc_bind at 1. unfold enc_lift.
  now rewrite (filter_result_index_error _ _ _ step Hin).
Qed.

Lemma run_with_empty_interpolation_example :
  control_to_clip_common demo tt
    {| entries := [(1%Q, {| sc_prompt := "a"; sc_loras := [] |})];
       interpolations := [([], 0.1%Q)];
       loaded_loras := [] |} ∅
  = (Raise IndexError, initial_state demo tt ∅).
Proof.
  apply (run_with_empty_interpolation demo tt _ ∅ 0.1%Q).
  - discriminate.
  - left. reflexivity.
Defined.
